(** * Dice-elimination game server: the game engine and the lobby

    The development embeds [initializeGameState], [processGameAction],
    [findOrCreateQuickMatch] and the socket handlers of the server as
    executable Rocq functions, and then states and proves what the
    specification says about them.

    Modelling decisions, all taken from the source:

    - Cells are JavaScript objects that the engine mutates in place
      ([cell.stage += 1], [shooterCell.bullets -= 1]) and that
      [Array(n).fill(obj)] shares between the slots of one player.  Cells
      therefore live in a store ([GameState.cellStore]); a player's [cells]
      array holds references into it.
    - Arrays are lists of optional elements: [None] is a hole, which is what
      an assignment beyond the end of a JavaScript array leaves behind.
    - A thrown [TypeError] (reading a property of [undefined] or [null])
      is an explicit outcome, [Throw TypeError].
    - Numbers sent by a client are integers ([Z]); the engine's own counters
      and indices start at 0 and are only incremented.  JavaScript computes
      with doubles: [targetCell + 1] is the exact sum for every index of a
      board, and not beyond 2^53.  What is stated about a comparison
      [lastRoll === targetCell + 1] that fails is therefore stated for
      [targetCell] within the board.
    - The room directory is a JavaScript [Map]: an association list in
      insertion order, since [quickMatch] and [leaveRoom] iterate over it.
    - The client store is a record with one function per listener and per
      request; a request returns the events it sends, and the pushes that
      reach a client are read off the calls the server makes on the socket
      and on [io]. *)

From Stdlib Require Import ZArith Lia.
From stdpp Require Import base option list gmap strings.

Local Open Scope Z_scope.

(** ** Outcomes of a handler: a value, or an exception *)

Inductive Error : Type :=
| TypeError      (* property access on undefined / null *)
| DanglingRef    (* a reference outside the cell store; no JavaScript state has one *)
| OutOfFuel.     (* the turn loop did not finish within its bound *)

Inductive Res (A : Type) : Type :=
| Ok (a : A)
| Throw (e : Error).
Arguments Ok {A} a.
Arguments Throw {A} e.

#[global] Instance Res_ret : MRet Res := fun A a => Ok a.
#[global] Instance Res_bind : MBind Res := fun A B f m =>
  match m with
  | Ok a => f a
  | Throw e => Throw e
  end.

Definition orThrow {A} (e : Error) (o : option A) : Res A :=
  match o with
  | Some a => Ok a
  | None => Throw e
  end.

(** ** JavaScript arrays *)

Module JsArray.

  (** An array of [A] is a [list (option A)]; [None] is a hole. *)

  (** [a[i]]: [undefined] (here [None]) outside the array and at a hole. *)
Definition get {A} (a : list (option A)) (i : Z) : option A :=
    if i <? 0 then None else mjoin (a !! Z.to_nat i).

  (** [a[i] = v]: in range it overwrites; beyond the end the array grows and
      the slots in between are holes.  A negative [i] names a property, not
      an element. *)
Definition set {A} (a : list (option A)) (i : Z) (v : A) : list (option A) :=
    if i <? 0 then a
    else
      let n := Z.to_nat i in
      if decide (n < length a)%nat then <[n := Some v]> a
      else a ++ replicate (n - length a)%nat None ++ [Some v].

  (** [Array(n).fill(v)] *)
Definition fill {A} (n : nat) (v : A) : list (option A) := replicate n (Some v).

End JsArray.

(** ** Data model of the game engine *)

(** References into the cell store. *)
Abbreviation loc := nat (only parsing).

Module Cell.
Record t : Type := mk { stage : Z; isActive : bool; bullets : Z }.
Definition set_stage (v : Z) (c : t) : t := mk v (isActive c) (bullets c).
Definition set_bullets (v : Z) (c : t) : t := mk (stage c) (isActive c) v.
End Cell.

Module Stats.
Record t : Type := mk { shotsFired : Z; eliminations : Z; timesTargeted : Z }.
Definition set_shotsFired (v : Z) (s : t) : t := mk v (eliminations s) (timesTargeted s).
Definition set_eliminations (v : Z) (s : t) : t := mk (shotsFired s) v (timesTargeted s).
Definition set_timesTargeted (v : Z) (s : t) : t := mk (shotsFired s) (eliminations s) v.
End Stats.

Module GamePlayer.
Record t : Type := mk {
    id : string;
    username : string;
    color : string;
    eliminated : bool;
    firstMove : bool;
    cells : list (option loc);
    stats : Stats.t
  }.
Definition set_eliminated (v : bool) (p : t) : t :=
    mk (id p) (username p) (color p) v (firstMove p) (cells p) (stats p).
Definition set_firstMove (v : bool) (p : t) : t :=
    mk (id p) (username p) (color p) (eliminated p) v (cells p) (stats p).
Definition set_cells (v : list (option loc)) (p : t) : t :=
    mk (id p) (username p) (color p) (eliminated p) (firstMove p) v (stats p).
Definition set_stats (v : Stats.t) (p : t) : t :=
    mk (id p) (username p) (color p) (eliminated p) (firstMove p) (cells p) v.
End GamePlayer.

(** The entries pushed on [gameLog]; each constructor carries exactly the
    fields of the object literal that the engine pushes. *)
Module LogEntry.
Inductive t : Type :=
  | firstMove (player : string) (message : string)
  | activate (player : string) (cell : Z)
  | maxLevel (player : string) (cell : Z)
  | reload (player : string) (cell : Z)
  | shoot (shooter : string) (target : string) (cell : Z)
  | eliminate (player : string)
  | emote (player : string) (message : string).

  (** [log.type] *)
Definition type (e : t) : string :=
    match e with
    | firstMove _ _ => "firstMove"
    | activate _ _ => "activate"
    | maxLevel _ _ => "maxLevel"
    | reload _ _ => "reload"
    | shoot _ _ _ => "shoot"
    | eliminate _ => "eliminate"
    | emote _ _ => "emote"
    end.

  (** [log.shooter]: only a [shoot] entry has the property. *)
Definition shooter (e : t) : option string :=
    match e with
    | shoot s _ _ => Some s
    | _ => None
    end.

  (** [log.player]: every entry but [shoot] has the property. *)
Definition player (e : t) : option string :=
    match e with
    | firstMove p _ | activate p _ | maxLevel p _ | reload p _
    | eliminate p | emote p _ => Some p
    | shoot _ _ _ => None
    end.
End LogEntry.

Module GameState.
Record t : Type := mk {
    currentPlayer : nat;
    players : list GamePlayer.t;
    lastRoll : option Z;
    gameLog : list LogEntry.t;
    cellStore : list Cell.t
  }.
Definition set_currentPlayer (v : nat) (g : t) : t :=
    mk v (players g) (lastRoll g) (gameLog g) (cellStore g).
Definition set_players (v : list GamePlayer.t) (g : t) : t :=
    mk (currentPlayer g) v (lastRoll g) (gameLog g) (cellStore g).
Definition set_lastRoll (v : option Z) (g : t) : t :=
    mk (currentPlayer g) (players g) v (gameLog g) (cellStore g).
Definition set_gameLog (v : list LogEntry.t) (g : t) : t :=
    mk (currentPlayer g) (players g) (lastRoll g) v (cellStore g).
Definition set_cellStore (v : list Cell.t) (g : t) : t :=
    mk (currentPlayer g) (players g) (lastRoll g) (gameLog g) v.
End GameState.

(** The end-of-game record. [eliminator] and [eliminated] are whatever
    [log.shooter] and [log.player] evaluate to, hence optional. *)
Module Elimination.
Record t : Type := mk { eliminator : option string; eliminated : option string }.
End Elimination.

Module History.
Record t : Type := mk {
    winner : string;
    eliminations : list Elimination.t;
    playerStats : gmap string Stats.t
  }.
End History.

Module ActionResult.
Record t : Type := mk {
    gameState : GameState.t;
    gameEnded : bool;
    history : option History.t
  }.
End ActionResult.

(** The [data] argument of a game action, with the fields the three action
    kinds destructure, each at the type the data model gives it: die value
    and indices are integers, the emote is a string. *)
Module ActionData.
Record t : Type := mk {
    value : Z;
    targetPlayer : Z;
    targetCell : Z;
    emote : string
  }.
End ActionData.

(** The lobby roster entry, as the handlers build it. *)
Module LobbyPlayer.
Record t : Type := mk {
    id : string;
    username : string;
    ready : bool;
    isLeader : bool;
    color : string
  }.
Definition set_ready (v : bool) (p : t) : t :=
    mk (id p) (username p) v (isLeader p) (color p).
Definition set_isLeader (v : bool) (p : t) : t :=
    mk (id p) (username p) (ready p) v (color p).
End LobbyPlayer.

(** ** The engine *)

Definition PLAYER_COLORS : list string :=
  ["#3B82F6"; "#EF4444"; "#10B981"; "#F59E0B"; "#8B5CF6"; "#EC4899"].

(** [PLAYER_COLORS[index % PLAYER_COLORS.length]] *)
Definition playerColor (index : nat) : string :=
  nth (index mod length PLAYER_COLORS)%nat PLAYER_COLORS "".

Definition freshCell : Cell.t := Cell.mk 0 false 0.

(** One callback invocation of [players.map] in [initializeGameState]: the
    object literal passed to [fill] is evaluated once per player, so the
    player at [index] gets one store object, shared by all of its slots. *)
Definition initPlayer (n : nat) (index : nat) (p : LobbyPlayer.t) : GamePlayer.t :=
  GamePlayer.mk (LobbyPlayer.id p) (LobbyPlayer.username p) (playerColor index)
    false true (JsArray.fill n index) (Stats.mk 0 0 0).

Definition initializeGameState (players : list LobbyPlayer.t) : GameState.t :=
  GameState.mk 0%nat
    (imap (initPlayer (length players)) players)
    None
    []
    (replicate (length players) freshCell).

Definition deref (g : GameState.t) (l : loc) : Res Cell.t :=
  orThrow DanglingRef (GameState.cellStore g !! l).

(** [gameState.gameLog.push(e)] *)
Definition pushLog (e : LogEntry.t) (g : GameState.t) : GameState.t :=
  GameState.set_gameLog (GameState.gameLog g ++ [e]) g.

(** In-place update of the player object at [i]. *)
Definition updPlayer (i : nat) (f : GamePlayer.t -> GamePlayer.t) (g : GameState.t)
  : GameState.t :=
  GameState.set_players (alter f i (GameState.players g)) g.

(** In-place update of the cell object at [l]. *)
Definition updCell (l : loc) (f : Cell.t -> Cell.t) (g : GameState.t) : GameState.t :=
  GameState.set_cellStore (alter f l (GameState.cellStore g)) g.

(** Evaluation of an object literal for a cell: a new store object. *)
Definition allocCell (c : Cell.t) (g : GameState.t) : loc * GameState.t :=
  (length (GameState.cellStore g),
   GameState.set_cellStore (GameState.cellStore g ++ [c]) g).

(** [gameState.players[i]] for a client-supplied index. *)
Definition playerAt (g : GameState.t) (i : Z) : option GamePlayer.t :=
  if i <? 0 then None else GameState.players g !! Z.to_nat i.

(** [case 'roll'] *)
Definition roll (g0 : GameState.t) (value : Z) : Res GameState.t :=
  let cur := GameState.currentPlayer g0 in
  let g := GameState.set_lastRoll (Some value) g0 in
  currentPlayer ← orThrow TypeError (GameState.players g !! cur);
  if GamePlayer.firstMove currentPlayer && negb (value =? 1) then
    Ok (pushLog (LogEntry.firstMove (GamePlayer.username currentPlayer)
                   (GamePlayer.username currentPlayer +:+ " needs to roll a 1 to start!")) g)
  else
    let g :=
      if GamePlayer.firstMove currentPlayer && (value =? 1)
      then updPlayer cur (GamePlayer.set_firstMove false) g
      else g in
    let cellIndex := value - 1 in
    l ← orThrow TypeError (JsArray.get (GamePlayer.cells currentPlayer) cellIndex);
    cell ← deref g l;
    if negb (Cell.isActive cell) then
      let '(l', g) := allocCell (Cell.mk 1 true 0) g in
      let g := updPlayer cur
                 (fun p => GamePlayer.set_cells
                             (JsArray.set (GamePlayer.cells p) cellIndex l') p) g in
      Ok (pushLog (LogEntry.activate (GamePlayer.username currentPlayer) (cellIndex + 1)) g)
    else if Cell.stage cell <? 6 then
      let g := updCell l (Cell.set_stage (Cell.stage cell + 1)) g in
      if Cell.stage cell + 1 =? 6 then
        let g := updCell l (Cell.set_bullets 5) g in
        Ok (pushLog (LogEntry.maxLevel (GamePlayer.username currentPlayer) (cellIndex + 1)) g)
      else Ok g
    else if Cell.bullets cell =? 0 then
      let g := updCell l (Cell.set_bullets 5) g in
      Ok (pushLog (LogEntry.reload (GamePlayer.username currentPlayer) (cellIndex + 1)) g)
    else Ok g.

(** [cells.every(cell => !cell.isActive)]: holes are skipped, and the scan
    stops at the first active cell. *)
Fixpoint everyInactive (g : GameState.t) (cs : list (option loc)) : Res bool :=
  match cs with
  | [] => Ok true
  | None :: rest => everyInactive g rest
  | Some l :: rest =>
      cell ← deref g l;
      if negb (Cell.isActive cell) then everyInactive g rest else Ok false
  end.

(** [gameState.lastRoll === n], for [n] the exact value of the right-hand
    side.  The engine calls it with [targetCell + 1], which JavaScript
    computes exactly when [targetCell] is an index of the board. *)
Definition lastRollIs (g : GameState.t) (n : Z) : bool :=
  match GameState.lastRoll g with
  | Some r => r =? n
  | None => false
  end.

(** The mutations of a shot that lands, up to and including the [shoot] log
    entry (the body of [if (shooterCell.bullets > 0)] before [eliminated] is
    recomputed).  [shooterCell] was read before the target's slot is
    overwritten, so the decrement goes to that object even when the slot that
    held it has just been given a new cell. *)
Definition landShot (g : GameState.t) (cur tp : nat) (targetCell : Z)
  (shooterCell : loc) (shooterName targetName : string) : GameState.t :=
  let '(l', g) := allocCell (Cell.mk 0 false 0) g in
  let g := updPlayer tp
             (fun p => GamePlayer.set_cells
                         (JsArray.set (GamePlayer.cells p) targetCell l') p) g in
  let g := updCell shooterCell (fun c => Cell.set_bullets (Cell.bullets c - 1) c) g in
  let g := updPlayer cur
             (fun p => GamePlayer.set_stats
                (Stats.set_shotsFired (Stats.shotsFired (GamePlayer.stats p) + 1)
                   (GamePlayer.stats p)) p) g in
  let g := updPlayer tp
             (fun p => GamePlayer.set_stats
                (Stats.set_timesTargeted (Stats.timesTargeted (GamePlayer.stats p) + 1)
                   (GamePlayer.stats p)) p) g in
  pushLog (LogEntry.shoot shooterName targetName (targetCell + 1)) g.
Arguments landShot : simpl never.

(** [case 'shoot'].  [target] and [currentPlayer] are the same object when
    [targetPlayer] is the current index: all updates go through the state,
    in source order. *)
Definition shoot (g : GameState.t) (targetPlayer targetCell : Z) : Res GameState.t :=
  let cur := GameState.currentPlayer g in
  if lastRollIs g (targetCell + 1) then
    currentPlayer ← orThrow TypeError (GameState.players g !! cur);
    shooterCell ← orThrow TypeError (JsArray.get (GamePlayer.cells currentPlayer) targetCell);
    sc ← deref g shooterCell;
    if Cell.bullets sc >? 0 then
      target ← orThrow TypeError (playerAt g targetPlayer);
      let tp := Z.to_nat targetPlayer in
      let g := landShot g cur tp targetCell shooterCell
                 (GamePlayer.username currentPlayer) (GamePlayer.username target) in
      target' ← orThrow TypeError (GameState.players g !! tp);
      e ← everyInactive g (GamePlayer.cells target');
      let g := updPlayer tp (GamePlayer.set_eliminated e) g in
      if e then
        let g := updPlayer cur
                   (fun p => GamePlayer.set_stats
                      (Stats.set_eliminations (Stats.eliminations (GamePlayer.stats p) + 1)
                         (GamePlayer.stats p)) p) g in
        Ok (pushLog (LogEntry.eliminate (GamePlayer.username target)) g)
      else Ok g
    else Ok g
  else Ok g.

(** [case 'emote'] *)
Definition emote (g : GameState.t) (message : string) : Res GameState.t :=
  currentPlayer ← orThrow TypeError (GameState.players g !! GameState.currentPlayer g);
  Ok (pushLog (LogEntry.emote (GamePlayer.username currentPlayer) message) g).

(** The [switch (action)] statement; it has no [default] branch. *)
Definition applyAction (g : GameState.t) (action : string) (data : ActionData.t)
  : Res GameState.t :=
  if String.eqb action "roll" then roll g (ActionData.value data)
  else if String.eqb action "shoot" then
    shoot g (ActionData.targetPlayer data) (ActionData.targetCell data)
  else if String.eqb action "emote" then emote g (ActionData.emote data)
  else Ok g.

Definition notEliminated (p : GamePlayer.t) : bool := negb (GamePlayer.eliminated p).

(** [Object.fromEntries]: a later entry overrides an earlier one. *)
Definition fromEntries {V} (l : list (string * V)) : gmap string V :=
  foldl (fun m kv => <[kv.1 := kv.2]> m) ∅ l.

Definition buildHistory (g : GameState.t) (winner : GamePlayer.t) : History.t :=
  History.mk
    (GamePlayer.username winner)
    ((fun log => Elimination.mk (LogEntry.shooter log) (LogEntry.player log))
       <$> filter (fun log => LogEntry.type log = "eliminate") (GameState.gameLog g))
    (fromEntries ((fun p => (GamePlayer.username p, GamePlayer.stats p))
                    <$> GameState.players g)).

(** The [do ... while] loop that moves to the next player.  One call is one
    iteration; [fuel] bounds the number of further iterations. *)
Fixpoint nextPlayer (fuel : nat) (ps : list GamePlayer.t) (cur : nat) : Res nat :=
  let cur' := ((cur + 1) mod length ps)%nat in
  p ← orThrow TypeError (ps !! cur');
  if GamePlayer.eliminated p && existsb notEliminated ps then
    match fuel with
    | O => Throw OutOfFuel
    | S fuel' => nextPlayer fuel' ps cur'
    end
  else Ok cur'.

(** The code after the [switch]: end check, then turn advance. *)
Definition endOfAction (g : GameState.t) : Res ActionResult.t :=
  let activePlayers := List.filter notEliminated (GameState.players g) in
  match activePlayers with
  | [winner] => Ok (ActionResult.mk g true (Some (buildHistory g winner)))
  | _ =>
      cur' ← nextPlayer (length (GameState.players g)) (GameState.players g)
                (GameState.currentPlayer g);
      Ok (ActionResult.mk (GameState.set_currentPlayer cur' g) false None)
  end.

Definition processGameAction (g : GameState.t) (action : string) (data : ActionData.t)
  : Res ActionResult.t :=
  g' ← applyAction g action data;
  endOfAction g'.

(** ** The room directory and the socket handlers *)

(** The three things a [password] can be in the server: absent or
    [undefined], [null], or a string. *)
Inductive JsPassword : Type :=
| PwUndefined
| PwNull
| PwString (s : string).

#[global] Instance JsPassword_eq_dec : EqDecision JsPassword.
Proof. solve_decision. Defined.

(** JavaScript truthiness of a password value. *)
Definition truthy (p : JsPassword) : bool :=
  match p with
  | PwString s => negb (String.eqb s "")
  | _ => false
  end.

Module Room.
  (** [isQuickMatch] is absent (falsy, here [false]) on rooms made by
      [createRoom]; [password] is absent (here [PwUndefined]) on rooms made
      by [quickMatch]. *)
Record t : Type := mk {
    id : string;
    leader : string;
    password : JsPassword;
    maxPlayers : Z;
    isQuickMatch : bool;
    players : list LobbyPlayer.t;
    gameState : option GameState.t;
    started : bool
  }.
Definition set_leader (v : string) (r : t) : t :=
    mk (id r) v (password r) (maxPlayers r) (isQuickMatch r) (players r) (gameState r) (started r).
Definition set_password (v : JsPassword) (r : t) : t :=
    mk (id r) (leader r) v (maxPlayers r) (isQuickMatch r) (players r) (gameState r) (started r).
Definition set_players (v : list LobbyPlayer.t) (r : t) : t :=
    mk (id r) (leader r) (password r) (maxPlayers r) (isQuickMatch r) v (gameState r) (started r).
Definition set_gameState (v : option GameState.t) (r : t) : t :=
    mk (id r) (leader r) (password r) (maxPlayers r) (isQuickMatch r) (players r) v (started r).
Definition set_started (v : bool) (r : t) : t :=
    mk (id r) (leader r) (password r) (maxPlayers r) (isQuickMatch r) (players r) (gameState r) v.
End Room.

(** [{ ...room, password: undefined }] *)
Definition stripPassword (r : Room.t) : Room.t := Room.set_password PwUndefined r.

(** What the server sends. [leaveRoomMsg] is the event of that name that the
    [disconnect] handler emits on the socket. *)
Inductive Msg : Type :=
| errorMsg (message : string)
| roomCreated (room : Room.t)
| playerJoined (room : Room.t)
| roomUpdated (room : Room.t)
| playerLeft (room : Room.t) (username : string)
| gameStarted (gameState : GameState.t)
| gameStateUpdated (gameState : GameState.t)
| gameEndedMsg (history : option History.t)
| emoteMsg (username : string) (emote : string)
| leaveRoomMsg.

(** The calls a handler makes on the socket and on [io], in order. *)
Inductive Effect : Type :=
| SocketEmit (socketId : string) (m : Msg)          (* socket.emit(...) *)
| Broadcast (roomId : string) (m : Msg)             (* io.to(roomId).emit(...) *)
| SocketJoin (socketId : string) (roomId : string)  (* socket.join(roomId) *)
| SocketLeave (socketId : string) (roomId : string). (* socket.leave(roomId) *)

(** The events a client connection can raise on the server. *)
Inductive Event : Type :=
| quickMatch (username : string)
| createRoom (maxPlayers : Z) (password : JsPassword) (username : string)
| joinRoom (roomId : string) (password : JsPassword) (username : string)
| toggleReady (roomId : string)
| startGame (roomId : string)
| gameAction (roomId : string) (action : string) (data : ActionData.t)
| sendEmote (roomId : string) (emote : string)
| leaveRoom
| disconnect.

(** [rooms]: a [Map] from room code to room, in insertion order. *)
Definition Rooms : Type := list (string * Room.t).

Definition mapGet (k : string) (m : Rooms) : option Room.t :=
  snd <$> List.find (fun e => String.eqb (fst e) k) m.

Definition mapHas (k : string) (m : Rooms) : bool :=
  bool_decide (is_Some (mapGet k m)).

Fixpoint mapSet (k : string) (v : Room.t) (m : Rooms) : Rooms :=
  match m with
  | [] => [(k, v)]
  | (k', v') :: rest =>
      if String.eqb k' k then (k, v) :: rest else (k', v') :: mapSet k v rest
  end.

Definition mapDelete (k : string) (m : Rooms) : Rooms :=
  List.filter (fun e => negb (String.eqb (fst e) k)) m.

(** [generateRoomId]: [draws] is the sequence of codes that the successive
    calls of [Math.random] yield; the loop takes the first one not in use. *)
Fixpoint generateRoomId (draws : list string) (rooms : Rooms) : Res string :=
  match draws with
  | [] => Throw OutOfFuel
  | roomId :: rest =>
      if mapHas roomId rooms then generateRoomId rest rooms else Ok roomId
  end.

Definition hasId (socketId : string) (p : LobbyPlayer.t) : Prop :=
  LobbyPlayer.id p = socketId.

#[global] Instance hasId_dec socketId p : Decision (hasId socketId p).
Proof. unfold hasId. apply _. Defined.

(** The condition of the scan in [findOrCreateQuickMatch]. *)
Definition quickMatchOpen (e : string * Room.t) : Prop :=
  Room.isQuickMatch e.2 = true ∧ Room.started e.2 = false ∧
  (Z.of_nat (length (Room.players e.2)) < Room.maxPlayers e.2).

#[global] Instance quickMatchOpen_dec e : Decision (quickMatchOpen e).
Proof. unfold quickMatchOpen. apply _. Defined.

Definition findOrCreateQuickMatch (draws : list string) (socketId username : string)
  (rooms : Rooms) : Res (Rooms * list Effect) :=
  match list_find quickMatchOpen rooms with
  | Some (_, (roomId, room)) =>
      let room := Room.set_players
                    (Room.players room ++
                       [LobbyPlayer.mk socketId username true false
                          (playerColor (length (Room.players room)))]) room in
      let joined := [SocketJoin socketId roomId; Broadcast roomId (playerJoined room)] in
      if Z.of_nat (length (Room.players room)) =? Room.maxPlayers room then
        let gs := initializeGameState (Room.players room) in
        let room := Room.set_gameState (Some gs) (Room.set_started true room) in
        Ok (mapSet roomId room rooms, joined ++ [Broadcast roomId (gameStarted gs)])
      else Ok (mapSet roomId room rooms, joined)
  | None =>
      roomId ← generateRoomId draws rooms;
      let room := Room.mk roomId socketId PwUndefined 4 true
                    [LobbyPlayer.mk socketId username true true (playerColor 0)]
                    None false in
      Ok (mapSet roomId room rooms,
          [SocketJoin socketId roomId; SocketEmit socketId (roomCreated room)])
  end.

Definition onCreateRoom (draws : list string) (socketId : string)
  (maxPlayers : Z) (password : JsPassword) (username : string) (rooms : Rooms)
  : Res (Rooms * list Effect) :=
  roomId ← generateRoomId draws rooms;
  let room := Room.mk roomId socketId
                (if truthy password then password else PwNull)   (* password || null *)
                maxPlayers false
                [LobbyPlayer.mk socketId username true true (playerColor 0)]
                None false in
  Ok (mapSet roomId room rooms,
      [SocketJoin socketId roomId; SocketEmit socketId (roomCreated (stripPassword room))]).

Definition onJoinRoom (socketId roomId : string) (password : JsPassword)
  (username : string) (rooms : Rooms) : Rooms * list Effect :=
  match mapGet roomId rooms with
  | None => (rooms, [SocketEmit socketId (errorMsg "Room not found")])
  | Some room =>
      if truthy (Room.password room) && negb (bool_decide (Room.password room = password)) then
        (rooms, [SocketEmit socketId (errorMsg "Incorrect password")])
      else if Z.of_nat (length (Room.players room)) >=? Room.maxPlayers room then
        (rooms, [SocketEmit socketId (errorMsg "Room is full")])
      else if Room.started room then
        (rooms, [SocketEmit socketId (errorMsg "Game already in progress")])
      else
        let room := Room.set_players
                      (Room.players room ++
                         [LobbyPlayer.mk socketId username false false
                            (playerColor (length (Room.players room)))]) room in
        (mapSet roomId room rooms,
         [SocketJoin socketId roomId; Broadcast roomId (playerJoined (stripPassword room))])
  end.

Definition onToggleReady (socketId roomId : string) (rooms : Rooms)
  : Rooms * list Effect :=
  match mapGet roomId rooms with
  | None => (rooms, [])
  | Some room =>
      match list_find (hasId socketId) (Room.players room) with
      | Some (i, _) =>
          let room := Room.set_players
                        (alter (fun p => LobbyPlayer.set_ready (negb (LobbyPlayer.ready p)) p)
                           i (Room.players room)) room in
          (mapSet roomId room rooms, [Broadcast roomId (roomUpdated (stripPassword room))])
      | None => (rooms, [])
      end
  end.

Definition onStartGame (socketId roomId : string) (rooms : Rooms)
  : Rooms * list Effect :=
  match mapGet roomId rooms with
  | None => (rooms, [])
  | Some room =>
      if negb (String.eqb (Room.leader room) socketId) then (rooms, [])
      else if forallb LobbyPlayer.ready (Room.players room) then
        let gs := initializeGameState (Room.players room) in
        let room := Room.set_gameState (Some gs) (Room.set_started true room) in
        (mapSet roomId room rooms, [Broadcast roomId (gameStarted gs)])
      else (rooms, [])
  end.

Definition onGameAction (socketId roomId action : string) (data : ActionData.t)
  (rooms : Rooms) : Res (Rooms * list Effect) :=
  match mapGet roomId rooms with
  | None => Ok (rooms, [])
  | Some room =>
      if negb (Room.started room) then Ok (rooms, [])
      else
        gs ← orThrow TypeError (Room.gameState room);
        cp ← orThrow TypeError (GameState.players gs !! GameState.currentPlayer gs);
        if negb (String.eqb (GamePlayer.id cp) socketId) then Ok (rooms, [])
        else
          result ← processGameAction gs action data;
          let room := Room.set_gameState (Some (ActionResult.gameState result)) room in
          Ok (mapSet roomId room rooms,
              if ActionResult.gameEnded result
              then [Broadcast roomId (gameEndedMsg (ActionResult.history result))]
              else [Broadcast roomId (gameStateUpdated (ActionResult.gameState result))])
  end.

Definition onSendEmote (socketId roomId emote : string) (rooms : Rooms)
  : Rooms * list Effect :=
  match mapGet roomId rooms with
  | None => (rooms, [])
  | Some room =>
      match list_find (hasId socketId) (Room.players room) with
      | Some (_, player) =>
          (rooms, [Broadcast roomId (emoteMsg (LobbyPlayer.username player) emote)])
      | None => (rooms, [])
      end
  end.

(** One iteration of the [for ... of rooms.entries()] loop of [leaveRoom]. *)
Definition leaveStep (socketId : string) (acc : Rooms * list Effect)
  (entry : string * Room.t) : Rooms * list Effect :=
  let '(rooms, effects) := acc in
  let '(roomId, room) := entry in
  match list_find (hasId socketId) (Room.players room) with
  | None => acc
  | Some (playerIndex, player) =>
      let username := LobbyPlayer.username player in
      let room := Room.set_players (delete playerIndex (Room.players room)) room in
      let '(rooms, room) :=
        match Room.players room with
        | [] => (mapDelete roomId rooms, room)
        | first :: others =>
            if String.eqb (Room.leader room) socketId then
              let room := Room.set_players
                            (LobbyPlayer.set_isLeader true first :: others)
                            (Room.set_leader (LobbyPlayer.id first) room) in
              (mapSet roomId room rooms, room)
            else (mapSet roomId room rooms, room)
        end in
      (rooms, effects ++ [SocketLeave socketId roomId;
                          Broadcast roomId (playerLeft (stripPassword room) username)])
  end.

Definition onLeaveRoom (socketId : string) (rooms : Rooms) : Rooms * list Effect :=
  foldl (leaveStep socketId) (rooms, []) rooms.

(** The [disconnect] handler: its body is [socket.emit('leaveRoom')], an
    emit on the socket like the [error] and [roomCreated] ones above. *)
Definition onDisconnect (socketId : string) (rooms : Rooms) : Rooms * list Effect :=
  (rooms, [SocketEmit socketId leaveRoomMsg]).

(** Dispatch of one client event raised by the connection [socketId]. *)
Definition handle (draws : list string) (socketId : string) (ev : Event) (rooms : Rooms)
  : Res (Rooms * list Effect) :=
  match ev with
  | quickMatch username => findOrCreateQuickMatch draws socketId username rooms
  | createRoom maxPlayers password username =>
      onCreateRoom draws socketId maxPlayers password username rooms
  | joinRoom roomId password username =>
      Ok (onJoinRoom socketId roomId password username rooms)
  | toggleReady roomId => Ok (onToggleReady socketId roomId rooms)
  | startGame roomId => Ok (onStartGame socketId roomId rooms)
  | gameAction roomId action data => onGameAction socketId roomId action data rooms
  | sendEmote roomId emote => Ok (onSendEmote socketId roomId emote rooms)
  | leaveRoom => Ok (onLeaveRoom socketId rooms)
  | disconnect => Ok (onDisconnect socketId rooms)
  end.

(** The server states that a run can reach from the empty directory. *)
Inductive reachableRooms : Rooms -> Prop :=
| reachable_start : reachableRooms []
| reachable_handle rooms draws socketId ev rooms' effects :
    reachableRooms rooms ->
    handle draws socketId ev rooms = Ok (rooms', effects) ->
    reachableRooms rooms'.

(** The room carried by a push, if it carries one. *)
Definition roomPayload (m : Msg) : option Room.t :=
  match m with
  | roomCreated r | playerJoined r | roomUpdated r | playerLeft r _ => Some r
  | _ => None
  end.

Definition effectMsg (e : Effect) : option Msg :=
  match e with
  | SocketEmit _ m | Broadcast _ m => Some m
  | _ => None
  end.

(** The specification's names for the four ways [joinRoom] fails, with the
    message the handler sends for each. *)
Inductive JoinError : Type :=
| RoomNotFound
| InvalidPassword
| RoomFull
| GameAlreadyStarted.

Definition joinErrorMessage (e : JoinError) : string :=
  match e with
  | RoomNotFound => "Room not found"
  | InvalidPassword => "Incorrect password"
  | RoomFull => "Room is full"
  | GameAlreadyStarted => "Game already in progress"
  end.

(** A failed join: the directory as it was, and one [error] push to the
    requester. *)
Definition joinFails (socketId : string) (e : JoinError) (rooms : Rooms)
  : Rooms * list Effect :=
  (rooms, [SocketEmit socketId (errorMsg (joinErrorMessage e))]).

(** The roster entry [joinRoom] appends for the requester. *)
Definition joiner (socketId username : string) (room : Room.t) : LobbyPlayer.t :=
  LobbyPlayer.mk socketId username false false (playerColor (length (Room.players room))).

(** A quick-match room has no password. *)
Definition quickHasNoPassword (r : Room.t) : Prop :=
  Room.isQuickMatch r = true → Room.password r = PwUndefined.

Definition roomsInv (rooms : Rooms) : Prop :=
  Forall (fun e => quickHasNoPassword e.2) rooms.

(** A call whose payload, if it carries a room, carries no password. *)
Definition omitsPassword (e : Effect) : Prop :=
  ∀ m r, effectMsg e = Some m → roomPayload m = Some r → Room.password r = PwUndefined.

(** The directory after "s-alice" has created a room with code "123456". *)
Definition aliceAlone : Rooms :=
  [("123456",
    Room.mk "123456" "s-alice" (PwString "secret") 4 false
      [LobbyPlayer.mk "s-alice" "alice" true true "#3B82F6"] None false)].

(** ** Observations on game states, used to state the properties *)

(** The cell object that slot [i] of player [p] refers to. *)
Definition cellOf (g : GameState.t) (p : GamePlayer.t) (i : Z) : option Cell.t :=
  l ← JsArray.get (GamePlayer.cells p) i;
  GameState.cellStore g !! l.

(** [cells[i].isActive == false] for every slot [i] of [p]. *)
Definition allInactive (g : GameState.t) (p : GamePlayer.t) : bool :=
  forallb (fun slot =>
             match slot ≫= (fun l => GameState.cellStore g !! l) with
             | Some c => negb (Cell.isActive c)
             | None => true
             end) (GamePlayer.cells p).

(** Number of players with [eliminated = false]. *)
Definition alive (ps : list GamePlayer.t) : nat :=
  length (List.filter notEliminated ps).

(** [next] is where the turn goes from [cur]: the first index after [cur],
    cyclically, whose player is not eliminated; every index passed over
    holds an eliminated player.  When no player at all is left, it is just
    the index after [cur]. *)
Definition nextInTurn (ps : list GamePlayer.t) (cur next : nat) : Prop :=
  ∃ k, (k < length ps)%nat ∧
    next = ((cur + 1 + k) mod length ps)%nat ∧
    (∀ i, (i < k)%nat →
       ∃ q, ps !! ((cur + 1 + i) mod length ps)%nat = Some q ∧
            GamePlayer.eliminated q = true) ∧
    ∃ q, ps !! next = Some q ∧
         (GamePlayer.eliminated q = true → alive ps = 0%nat ∧ k = 0%nat).

(** Every cell of store [s] is still there in [s'], as active as it was. *)
Definition storeExt (s s' : list Cell.t) : Prop :=
  ∀ l c, s !! l = Some c → ∃ c', s' !! l = Some c' ∧ Cell.isActive c' = Cell.isActive c.

(** What holds of every player in a state of the game: [timesTargeted]
    counts up from 0, and the player is eliminated exactly when all cells
    are inactive and some shot has been aimed at the player. *)
Definition playerInv (g : GameState.t) (p : GamePlayer.t) : Prop :=
  0 <= Stats.timesTargeted (GamePlayer.stats p) ∧
  GamePlayer.eliminated p =
    allInactive g p && (0 <? Stats.timesTargeted (GamePlayer.stats p)).

(** What holds while the game is in progress: the player to move is not
    eliminated, and two players are left unless nothing has been rolled
    yet. *)
Definition turnInv (g : GameState.t) : Prop :=
  (∃ p, GameState.players g !! GameState.currentPlayer g = Some p ∧
        GamePlayer.eliminated p = false) ∧
  ((2 ≤ alive (GameState.players g))%nat ∨ GameState.lastRoll g = None).

(** Shape of the states the engine builds: a current index inside the
    player list, and for every player one cell per player, each slot
    holding a reference into the store. *)
Definition wfSlot (g : GameState.t) (slot : option loc) : Prop :=
  ∃ l, slot = Some l ∧ (l < length (GameState.cellStore g))%nat.

Definition wfPlayer (g : GameState.t) (p : GamePlayer.t) : Prop :=
  length (GamePlayer.cells p) = length (GameState.players g) ∧
  Forall (wfSlot g) (GamePlayer.cells p).

Definition wf (g : GameState.t) : Prop :=
  (GameState.currentPlayer g < length (GameState.players g))%nat ∧
  Forall (wfPlayer g) (GameState.players g).

(** Payloads within the ranges the data model gives: die values and cell
    numbers in [1..N], player and cell indices in [0..N-1]. *)
Definition validAction (g : GameState.t) (action : string) (data : ActionData.t) : Prop :=
  let n := Z.of_nat (length (GameState.players g)) in
  (action = "roll" → 1 <= ActionData.value data <= n) ∧
  (action = "shoot" →
     0 <= ActionData.targetPlayer data < n ∧ 0 <= ActionData.targetCell data < n).

(** Game states of a match: [reachable g ended] holds for the state at game
    start and for the state after each processed action, [ended] being the
    [gameEnded] flag that came with it; no action is processed once the game
    has ended. *)
Inductive reachable : GameState.t -> bool -> Prop :=
| reachable_init roster :
    roster ≠ [] -> reachable (initializeGameState roster) false
| reachable_action g action data r :
    reachable g false ->
    processGameAction g action data = Ok r ->
    reachable (ActionResult.gameState r) (ActionResult.gameEnded r).

(** Plays a sequence of actions from [g], stopping at the action that ends
    the game; the flag tells whether the game has ended. *)
Fixpoint playMoves (g : GameState.t) (moves : list (string * ActionData.t))
  : Res (GameState.t * bool) :=
  match moves with
  | [] => Ok (g, false)
  | (action, data) :: rest =>
      r ← processGameAction g action data;
      if ActionResult.gameEnded r then Ok (ActionResult.gameState r, true)
      else playMoves (ActionResult.gameState r) rest
  end.

(** *** Two concrete matches *)

Definition alice : LobbyPlayer.t := LobbyPlayer.mk "s-alice" "alice" true true "#3B82F6".
Definition bob : LobbyPlayer.t := LobbyPlayer.mk "s-bob" "bob" false false "#EF4444".

Definition rollData (v : Z) : ActionData.t := ActionData.mk v 0 0 "".
Definition shootData (targetPlayer targetCell : Z) : ActionData.t :=
  ActionData.mk 0 targetPlayer targetCell "".
Definition emoteData (m : string) : ActionData.t := ActionData.mk 0 0 0 m.

(** Alice and Bob each roll a 1 six times in turn: both have cell 1 at stage
    6 with 5 bullets, the last roll is 1 and it is Alice's turn. *)
Definition loadedMoves : list (string * ActionData.t) :=
  concat (replicate 6 [("roll", rollData 1); ("roll", rollData 1)]).

Definition loadedState : Res (GameState.t * bool) :=
  playMoves (initializeGameState [alice; bob]) loadedMoves.

(** The state [loadedState] stands for. *)
Definition loadedGame : GameState.t :=
  match loadedState with
  | Ok (g, _) => g
  | Throw _ => initializeGameState [alice; bob]
  end.

(** Alice rolls a 1 six times while Bob only sends emotes: Alice's cell 1 is
    loaded, Bob has no active cell, the last roll is 1 and it is Alice's
    turn. *)
Definition duelMoves : list (string * ActionData.t) :=
  concat (replicate 6 [("roll", rollData 1); ("emote", emoteData "gg")]).

Definition duelState : Res (GameState.t * bool) :=
  playMoves (initializeGameState [alice; bob]) duelMoves.

(** ** Relations between a player before and after an action *)

(** The identity of a player: connection id, username and colour. *)
Definition sameIdentity (p p' : GamePlayer.t) : Prop :=
  GamePlayer.id p' = GamePlayer.id p ∧
  GamePlayer.username p' = GamePlayer.username p ∧
  GamePlayer.color p' = GamePlayer.color p.

(** No counter of the player's stats has gone down. *)
Definition statsGrow (p p' : GamePlayer.t) : Prop :=
  Stats.shotsFired (GamePlayer.stats p) <= Stats.shotsFired (GamePlayer.stats p') ∧
  Stats.eliminations (GamePlayer.stats p) <= Stats.eliminations (GamePlayer.stats p') ∧
  Stats.timesTargeted (GamePlayer.stats p) <= Stats.timesTargeted (GamePlayer.stats p').

(** The player is as eliminated as before, with the same stats. *)
Definition sameStanding (p p' : GamePlayer.t) : Prop :=
  GamePlayer.eliminated p' = GamePlayer.eliminated p ∧
  GamePlayer.stats p' = GamePlayer.stats p.

(** ** Shape of the log *)

(** Every [eliminate] entry directly follows a [shoot] entry aimed at the
    player it names. *)
Definition logPaired (log : list LogEntry.t) : Prop :=
  ∀ k name, log !! k = Some (LogEntry.eliminate name) →
    ∃ k' shooter cell, k = S k' ∧ log !! k' = Some (LogEntry.shoot shooter name cell).

(** The state [duelState] stands for. *)
Definition duelGame : GameState.t :=
  match duelState with
  | Ok (g, _) => g
  | Throw _ => initializeGameState [alice; bob]
  end.

(** ** Bounds of a cell *)

(** Stage between 0 and 6, bullets between 0 and 5, active exactly from
    stage 1 on, and bullets only at stage 6. *)
Definition cellOk (c : Cell.t) : Prop :=
  0 <= Cell.stage c <= 6 ∧
  0 <= Cell.bullets c <= 5 ∧
  (Cell.isActive c = true ↔ 1 <= Cell.stage c) ∧
  (0 < Cell.bullets c → Cell.stage c = 6).

(** *** A match of three *)

Definition carol : LobbyPlayer.t := LobbyPlayer.mk "s-carol" "carol" true false "#10B981".

(** Alice rolls a 1 six times while Bob and Carol only send emotes, then
    shoots Bob's cell 1: Bob is eliminated, two players are left and it is
    Carol's turn. *)
Definition trioMoves : list (string * ActionData.t) :=
  concat (replicate 6 [("roll", rollData 1); ("emote", emoteData "gg");
                       ("emote", emoteData "gg")])
  ++ [("shoot", shootData 1 0)].

Definition trioState : Res (GameState.t * bool) :=
  playMoves (initializeGameState [alice; bob; carol]) trioMoves.

(** The state [trioState] stands for. *)
Definition trioGame : GameState.t :=
  match trioState with
  | Ok (g, _) => g
  | Throw _ => initializeGameState [alice; bob; carol]
  end.

(** ** Sharing of cell objects *)

(** Slot [k] of player [i] refers to the store object [l]. *)
Definition slotRef (g : GameState.t) (i k : nat) (l : loc) : Prop :=
  ∃ p, GameState.players g !! i = Some p ∧ GamePlayer.cells p !! k = Some (Some l).

(** No active cell object is referred to from two slots. *)
Definition unshared (g : GameState.t) : Prop :=
  ∀ i k j m l c,
    slotRef g i k l → slotRef g j m l →
    GameState.cellStore g !! l = Some c → Cell.isActive c = true →
    i = j ∧ k = m.

(** ** Shape of the room directory *)

(** The roster of a room: the first entry is the leader and is the only one
    flagged as such. *)
Definition rosterOk (leader : string) (players : list LobbyPlayer.t) : Prop :=
  ∃ first others,
    players = first :: others ∧
    LobbyPlayer.id first = leader ∧
    LobbyPlayer.isLeader first = true ∧
    Forall (fun p => LobbyPlayer.isLeader p = false) others.

(** What holds of every room of the directory: the roster has its leader
    first, it is no longer than [maxPlayers] allows (a room made with
    [maxPlayers] below 1 still holds its creator), the room has a game state
    exactly when it has started, that state is well formed, and a
    quick-match room is for four. *)
Definition roomOk (r : Room.t) : Prop :=
  rosterOk (Room.leader r) (Room.players r) ∧
  Z.of_nat (length (Room.players r)) <= Z.max 1 (Room.maxPlayers r) ∧
  (Room.started r = true ↔ is_Some (Room.gameState r)) ∧
  (∀ gs, Room.gameState r = Some gs → wf gs) ∧
  (Room.isQuickMatch r = true → Room.maxPlayers r = 4).

(** An entry of the directory: the room is filed under its own code. *)
Definition entryOk (e : string * Room.t) : Prop :=
  Room.id e.2 = e.1 ∧ roomOk e.2.

Definition dirOk (rooms : Rooms) : Prop :=
  NoDup rooms.*1 ∧ Forall entryOk rooms.

(** The directory after "s-alice" has started the game in her room. *)
Definition aliceStarted : Rooms := (onStartGame "s-alice" "123456" aliceAlone).1.

(** The room an event is addressed to: the [roomId] of its payload. *)
Definition eventRoom (ev : Event) : option string :=
  match ev with
  | joinRoom roomId _ _ | toggleReady roomId | startGame roomId
  | gameAction roomId _ _ | sendEmote roomId _ => Some roomId
  | quickMatch _ | createRoom _ _ _ | leaveRoom | disconnect => None
  end.

(** The directory after "s-bob" has joined the room of "s-alice". *)
Definition aliceAndBob : Rooms :=
  (onJoinRoom "s-bob" "123456" (PwString "secret") "bob" aliceAlone).1.

(** ** The client store

    The state of the client and its reactions to what the server pushes
    ([connect] in the store), then the requests it sends. *)

Module Client.
Record t : Type := mk {
    socket : bool;                       (* [null], or the socket once connected *)
    connected : bool;
    currentRoom : option Room.t;
    username : string;
    error : option string;
    gameHistory : option History.t;
    emotesMuted : bool
  }.
Definition set_connected (v : bool) (c : t) : t :=
    mk (socket c) v (currentRoom c) (username c) (error c) (gameHistory c) (emotesMuted c).
Definition set_socket (v : bool) (c : t) : t :=
    mk v (connected c) (currentRoom c) (username c) (error c) (gameHistory c) (emotesMuted c).
Definition set_currentRoom (v : option Room.t) (c : t) : t :=
    mk (socket c) (connected c) v (username c) (error c) (gameHistory c) (emotesMuted c).
Definition set_username (v : string) (c : t) : t :=
    mk (socket c) (connected c) (currentRoom c) v (error c) (gameHistory c) (emotesMuted c).
Definition set_error (v : option string) (c : t) : t :=
    mk (socket c) (connected c) (currentRoom c) (username c) v (gameHistory c) (emotesMuted c).
Definition set_gameHistory (v : option History.t) (c : t) : t :=
    mk (socket c) (connected c) (currentRoom c) (username c) (error c) v (emotesMuted c).
Definition set_emotesMuted (v : bool) (c : t) : t :=
    mk (socket c) (connected c) (currentRoom c) (username c) (error c) (gameHistory c) v.

  (** The store as [create] builds it. *)
Definition init : t := mk false false None "" None None false.

  (** The listeners for the transport's [connect] and [disconnect]. *)
Definition onConnect (c : t) : t := set_socket true (set_connected true c).
Definition onDisconnect (c : t) : t := set_connected false c.
End Client.

(** The notifications the client shows. *)
Inductive Toast : Type :=
| toastError (message : string)
| toastSuccess (message : string)
| toastPlain (message : string).

(** The listener the store registers for each push.  The state is set
    first; the notification that follows reads the payload and throws when
    the part it reads is missing.  The store has no listener for
    [leaveRoom]. *)
Definition onPush (m : Msg) (c : Client.t) : Client.t * Res (list Toast) :=
  match m with
  | errorMsg message =>
      (Client.set_error (Some message) c, Ok [toastError message])
  | roomCreated room =>
      (Client.set_currentRoom (Some room) c, Ok [toastSuccess "Room created successfully!"])
  | playerJoined room =>
      (Client.set_currentRoom (Some room) c,
       p ← orThrow TypeError (last (Room.players room));
       Ok [toastSuccess (LobbyPlayer.username p +:+ " joined the game!")])
  | roomUpdated room =>
      (Client.set_currentRoom (Some room) c, Ok [])
  | playerLeft room username =>
      (Client.set_currentRoom (Some room) c, Ok [toastError (username +:+ " left the game")])
  | gameStarted gameState =>
      (Client.set_currentRoom
         ((fun r => Room.set_gameState (Some gameState) (Room.set_started true r))
            <$> Client.currentRoom c) c,
       Ok [toastSuccess "Game started!"])
  | gameStateUpdated gameState =>
      (Client.set_currentRoom
         (Room.set_gameState (Some gameState) <$> Client.currentRoom c) c,
       Ok [])
  | gameEndedMsg history =>
      (Client.set_gameHistory history c,
       h ← orThrow TypeError history;
       Ok [toastSuccess (History.winner h +:+ " won the game!")])
  | emoteMsg username emote =>
      (c, Ok (if negb (Client.emotesMuted c) then [toastPlain emote] else []))
  | leaveRoomMsg => (c, Ok [])
  end.

(** The requests of the store: the new state and the events sent to the
    server.  The [color] that [createRoom] adds to its payload is not read by
    the server and is left out. *)
Module Store.
Definition needsUsername : string := "Please set a username first".

Definition createRoom (maxPlayers : Z) (password : JsPassword) (c : Client.t)
  : Client.t * list Event :=
    if String.eqb (Client.username c) "" then (Client.set_error (Some needsUsername) c, [])
    else (c, [createRoom maxPlayers password (Client.username c)]).

Definition joinRoom (roomId : string) (password : JsPassword) (c : Client.t)
  : Client.t * list Event :=
    if String.eqb (Client.username c) "" then (Client.set_error (Some needsUsername) c, [])
    else (c, [joinRoom roomId password (Client.username c)]).

Definition quickMatch (c : Client.t) : Client.t * list Event :=
    if String.eqb (Client.username c) "" then (Client.set_error (Some needsUsername) c, [])
    else (c, [quickMatch (Client.username c)]).

Definition setUsername (username : string) (c : Client.t) : Client.t * list Event :=
    (Client.set_username username c, []).

Definition toggleReady (c : Client.t) : Client.t * list Event :=
    match Client.currentRoom c with
    | Some room => (c, [toggleReady (Room.id room)])
    | None => (c, [])
    end.

Definition startGame (c : Client.t) : Client.t * list Event :=
    match Client.currentRoom c with
    | Some room => (c, [startGame (Room.id room)])
    | None => (c, [])
    end.

Definition performGameAction (action : string) (data : ActionData.t) (c : Client.t)
  : Client.t * list Event :=
    match Client.currentRoom c with
    | Some room => (c, [gameAction (Room.id room) action data])
    | None => (c, [])
    end.

Definition sendEmote (emote : string) (c : Client.t) : Client.t * list Event :=
    match Client.currentRoom c with
    | Some room => (c, [sendEmote (Room.id room) emote])
    | None => (c, [])
    end.

Definition toggleEmotes (c : Client.t) : Client.t * list Event :=
    (Client.set_emotesMuted (negb (Client.emotesMuted c)) c, []).

Definition leaveRoom (c : Client.t) : Client.t * list Event :=
    (Client.set_gameHistory None (Client.set_currentRoom None c), [leaveRoom]).

Definition clearError (c : Client.t) : Client.t * list Event :=
    (Client.set_error None c, []).
End Store.

(** The pushes among [effects] that reach a client: those emitted on its
    socket, and those broadcast to a room it is in. *)
Definition pushesTo (socketId : string) (effects : list Effect) : list Msg :=
  omap (fun e => match e with
                 | SocketEmit s m => if decide (s = socketId) then Some m else None
                 | _ => None
                 end) effects.

Definition broadcastsTo (roomId : string) (effects : list Effect) : list Msg :=
  omap (fun e => match e with
                 | Broadcast k m => if decide (k = roomId) then Some m else None
                 | _ => None
                 end) effects.

(** The client state after its listeners have run on [msgs], in order. *)
Definition deliver (msgs : list Msg) (c : Client.t) : Client.t :=
  foldl (fun c m => (onPush m c).1) c msgs.

(** * Properties *)

(** ** The outcome monad *)

Lemma bind_Ok {A B} (m : Res A) (f : A -> Res B) (b : B) :
  m ≫= f = Ok b ↔ ∃ a, m = Ok a ∧ f a = Ok b.
Proof.
  destruct m as [a|e]; simpl; split.
  - intros H. exists a. done.
  - intros (a' & Ha & Hf). by simplify_eq.
  - done.
  - intros (a' & Ha & _). done.
Qed.

Lemma orThrow_Ok {A} (e : Error) (o : option A) (a : A) :
  orThrow e o = Ok a ↔ o = Some a.
Proof. destruct o; simpl; split; intros; by simplify_eq. Qed.

(** Splits a hypothesis [m ≫= f = Ok b] into its two halves, repeatedly. *)
Ltac inv_bind :=
  repeat match goal with
    | H : _ ≫= _ = Ok _ |- _ =>
        apply bind_Ok in H; destruct H as (? & ? & H)
    | H : orThrow _ _ = Ok _ |- _ => apply orThrow_Ok in H
    | H : Ok _ = Ok _ |- _ => injection H as H
    | H : Throw _ = Ok _ |- _ => discriminate H
    end.

(** ** Arithmetic of the cyclic scan *)

Lemma cyclic_next (n cur x : nat) :
  (((cur + 1) mod n + 1 + x) mod n = (cur + 1 + S x) mod n)%nat.
Proof.
  replace ((cur + 1) mod n + 1 + x)%nat with ((cur + 1) mod n + (1 + x))%nat by lia.
  rewrite Nat.Div0.add_mod_idemp_l. f_equal; lia.
Qed.

Lemma cyclic_reaches (n cur i : nat) :
  (i < n)%nat → ∃ j, (j < n)%nat ∧ ((cur + 1 + j) mod n = i)%nat.
Proof.
  intros Hi.
  assert (Hc : ((cur + 1) mod n < n)%nat) by (apply Nat.mod_upper_bound; lia).
  destruct (decide ((cur + 1) mod n ≤ i)%nat) as [Hle|Hgt].
  - exists (i - (cur + 1) mod n)%nat. split; [lia|].
    rewrite <- Nat.Div0.add_mod_idemp_l.
    replace ((cur + 1) mod n + (i - (cur + 1) mod n))%nat with i by lia.
    by apply Nat.mod_small.
  - exists (i + n - (cur + 1) mod n)%nat. split; [lia|].
    rewrite <- Nat.Div0.add_mod_idemp_l.
    replace ((cur + 1) mod n + (i + n - (cur + 1) mod n))%nat with (i + 1 * n)%nat by lia.
    rewrite Nat.Div0.mod_add. by apply Nat.mod_small.
Qed.

(** ** The turn loop *)

Lemma nextPlayer_unfold fuel ps cur :
  nextPlayer fuel ps cur =
    (let cur' := ((cur + 1) mod length ps)%nat in
     p ← orThrow TypeError (ps !! cur');
     if GamePlayer.eliminated p && existsb notEliminated ps then
       match fuel with
       | O => Throw OutOfFuel
       | S fuel' => nextPlayer fuel' ps cur'
       end
     else Ok cur').
Proof. by destruct fuel. Qed.

Lemma existsb_notEliminated ps :
  existsb notEliminated ps = true ↔
  ∃ i p, ps !! i = Some p ∧ GamePlayer.eliminated p = false.
Proof.
  rewrite existsb_exists. split.
  - intros (p & Hin & Hp). apply list_elem_of_In, list_elem_of_lookup in Hin.
    destruct Hin as [i Hi]. exists i, p. split; [done|].
    unfold notEliminated in Hp. by destruct (GamePlayer.eliminated p).
  - intros (i & p & Hi & Hp). exists p. split.
    + apply list_elem_of_In, list_elem_of_lookup. by exists i.
    + unfold notEliminated. by rewrite Hp.
Qed.

(** The loop skips eliminated players and stops on the first other one,
    provided that one is within reach of the fuel. *)
Lemma nextPlayer_scan fuel : ∀ ps cur j p,
  (j ≤ fuel)%nat →
  ps !! ((cur + 1 + j) mod length ps)%nat = Some p →
  GamePlayer.eliminated p = false →
  ∃ k q, (k ≤ j)%nat ∧
    nextPlayer fuel ps cur = Ok ((cur + 1 + k) mod length ps)%nat ∧
    ps !! ((cur + 1 + k) mod length ps)%nat = Some q ∧
    GamePlayer.eliminated q = false ∧
    ∀ i, (i < k)%nat →
      ∃ q', ps !! ((cur + 1 + i) mod length ps)%nat = Some q' ∧
            GamePlayer.eliminated q' = true.
Proof.
  induction fuel as [|fuel IH]; intros ps cur j p Hj Hp Hne.
  - assert (j = 0%nat) as -> by lia. rewrite Nat.add_0_r in Hp.
    exists 0%nat, p. rewrite nextPlayer_unfold, Nat.add_0_r. simpl.
    rewrite Hp. simpl. rewrite Hne. simpl.
    repeat split; try done; intros; lia.
  - rewrite nextPlayer_unfold. simpl.
    destruct (ps !! ((cur + 1) mod length ps)%nat) as [p0|] eqn:Hp0; simpl.
    + destruct (GamePlayer.eliminated p0) eqn:He0; simpl.
      * assert (Hex : existsb notEliminated ps = true).
        { apply existsb_notEliminated. eauto. }
        rewrite Hex.
        destruct j as [|j].
        { rewrite Nat.add_0_r in Hp. congruence. }
        rewrite <- cyclic_next in Hp.
        destruct (IH ps ((cur + 1) mod length ps)%nat j p ltac:(lia) Hp Hne)
          as (k & q & Hk & Hrun & Hq & Hqe & Hskip).
        exists (S k), q. rewrite <- cyclic_next.
        split; [lia|]. do 3 (split; [done|]).
        intros i Hi. destruct i as [|i].
        -- exists p0. by rewrite Nat.add_0_r.
        -- rewrite <- cyclic_next. apply Hskip. lia.
      * exists 0%nat, p0. rewrite Nat.add_0_r.
        repeat split; try done; intros; lia.
    + apply lookup_ge_None in Hp0.
      apply lookup_lt_Some in Hp.
      assert ((cur + 1) mod length ps < length ps)%nat
        by (apply Nat.mod_upper_bound; lia). lia.
Qed.


(** The loop always ends within [length ps] further iterations. *)
Lemma nextPlayer_spec ps cur :
  ps ≠ [] →
  ∃ k q, (k < length ps)%nat ∧
    nextPlayer (length ps) ps cur = Ok ((cur + 1 + k) mod length ps)%nat ∧
    ps !! ((cur + 1 + k) mod length ps)%nat = Some q ∧
    (existsb notEliminated ps = true → GamePlayer.eliminated q = false) ∧
    (existsb notEliminated ps = false → k = 0%nat) ∧
    ∀ i, (i < k)%nat →
      ∃ q', ps !! ((cur + 1 + i) mod length ps)%nat = Some q' ∧
            GamePlayer.eliminated q' = true.
Proof.
  intros Hne.
  assert (Hn : (0 < length ps)%nat) by (destruct ps; [done | simpl; lia]).
  destruct (existsb notEliminated ps) eqn:Hex.
  - apply existsb_notEliminated in Hex as (i & p & Hi & Hp).
    destruct (cyclic_reaches (length ps) cur i) as (j & Hj & Hji).
    { by eapply lookup_lt_Some. }
    rewrite <- Hji in Hi.
    destruct (nextPlayer_scan (length ps) ps cur j p ltac:(lia) Hi Hp)
      as (k & q & Hk & Hrun & Hq & Hqe & Hskip).
    exists k, q. repeat split; try done; intros; try lia; congruence.
  - assert (Hlt : ((cur + 1) mod length ps < length ps)%nat)
      by (apply Nat.mod_upper_bound; lia).
    apply lookup_lt_is_Some_2 in Hlt as [q Hq].
    exists 0%nat, q. rewrite nextPlayer_unfold, Nat.add_0_r. simpl.
    rewrite Hq. simpl. rewrite Hex, andb_false_r.
    repeat split; try done; intros; lia.
Qed.

(** ** The end-of-action sequence *)

Lemma endOfAction_inv g r :
  endOfAction g = Ok r →
  (alive (GameState.players g) = 1%nat ∧
   ActionResult.gameEnded r = true ∧
   ActionResult.gameState r = g ∧
   ∃ w, List.filter notEliminated (GameState.players g) = [w] ∧
        ActionResult.history r = Some (buildHistory g w))
  ∨
  (alive (GameState.players g) ≠ 1%nat ∧
   ActionResult.gameEnded r = false ∧
   ActionResult.history r = None ∧
   ∃ cur', nextPlayer (length (GameState.players g)) (GameState.players g)
             (GameState.currentPlayer g) = Ok cur' ∧
           ActionResult.gameState r = GameState.set_currentPlayer cur' g).
Proof.
  unfold endOfAction, alive. intros H.
  destruct (List.filter notEliminated (GameState.players g)) as [|w [|w' rest]] eqn:Hf.
  - right. inv_bind. subst r. simpl. eauto 10.
  - left. inv_bind. subst r. simpl. eauto 10.
  - right. inv_bind. subst r. simpl. eauto 10.
Qed.

Lemma endOfAction_total g :
  GameState.players g ≠ [] → ∃ r, endOfAction g = Ok r.
Proof.
  intros Hne. unfold endOfAction.
  destruct (nextPlayer_spec (GameState.players g) (GameState.currentPlayer g) Hne)
    as (k & q & _ & Hrun & _).
  rewrite Hrun. simpl.
  destruct (List.filter notEliminated (GameState.players g)) as [|w [|w' rest]]; eauto.
Qed.

(** ** What the action cases leave alone *)

(** Follows every branch of a computation known to return [Ok]. *)
Ltac run_cases :=
  repeat (first [ progress inv_bind
                | progress simplify_eq
                | progress (simpl in * )
                | case_match ]).

Lemma applyAction_unknown g action data :
  action ≠ "roll" → action ≠ "shoot" → action ≠ "emote" →
  applyAction g action data = Ok g.
Proof.
  intros H1 H2 H3. unfold applyAction.
  apply String.eqb_neq in H1, H2, H3. by rewrite H1, H2, H3.
Qed.

Lemma roll_frame g value g' :
  roll g value = Ok g' →
  GameState.currentPlayer g' = GameState.currentPlayer g ∧
  length (GameState.players g') = length (GameState.players g) ∧
  GameState.lastRoll g' = Some value.
Proof.
  unfold roll, allocCell. intros H.
  run_cases; rewrite ?length_alter; done.
Qed.

Lemma shoot_frame g tp tc g' :
  shoot g tp tc = Ok g' →
  GameState.currentPlayer g' = GameState.currentPlayer g ∧
  length (GameState.players g') = length (GameState.players g) ∧
  GameState.lastRoll g' = GameState.lastRoll g.
Proof.
  unfold shoot, landShot, allocCell. intros H.
  run_cases; rewrite ?length_alter; done.
Qed.

Lemma emote_frame g m g' :
  emote g m = Ok g' →
  GameState.currentPlayer g' = GameState.currentPlayer g ∧
  GameState.players g' = GameState.players g ∧
  GameState.lastRoll g' = GameState.lastRoll g ∧
  GameState.cellStore g' = GameState.cellStore g.
Proof. unfold emote. intros H. inv_bind. by subst g'. Qed.

Lemma applyAction_frame g action data g' :
  applyAction g action data = Ok g' →
  GameState.currentPlayer g' = GameState.currentPlayer g ∧
  length (GameState.players g') = length (GameState.players g).
Proof.
  unfold applyAction. intros H.
  repeat case_match.
  - by apply roll_frame in H as (? & ? & ?).
  - by apply shoot_frame in H as (? & ? & ?).
  - apply emote_frame in H as (? & -> & ?). done.
  - by simplify_eq.
Qed.

(** ** Well-formed states *)

Lemma wfPlayer_mono g g' p :
  length (GameState.players g') = length (GameState.players g) →
  (length (GameState.cellStore g) ≤ length (GameState.cellStore g'))%nat →
  wfPlayer g p → wfPlayer g' p.
Proof.
  intros Hp Hs [Hlen Hslots]. split; [congruence|].
  eapply Forall_impl; [exact Hslots|].
  intros slot (l & -> & Hl). exists l. split; [done|lia].
Qed.

Lemma wf_same_shape g g' :
  GameState.currentPlayer g' = GameState.currentPlayer g →
  GameState.players g' = GameState.players g →
  (length (GameState.cellStore g) ≤ length (GameState.cellStore g'))%nat →
  wf g → wf g'.
Proof.
  intros Hc Hp Hs [Hcur Hall]. split; [by rewrite Hc, Hp|].
  rewrite Hp. eapply Forall_impl; [exact Hall|].
  intros p. apply wfPlayer_mono; [by rewrite Hp|done].
Qed.

Lemma wf_updPlayer i f g :
  (∀ p, wfPlayer g p → wfPlayer g (f p)) →
  wf g → wf (updPlayer i f g).
Proof.
  intros Hf [Hcur Hall]. split; simpl.
  - by rewrite length_alter.
  - apply Forall_alter.
    + eapply Forall_impl; [exact Hall|]. intros p.
      apply wfPlayer_mono; simpl; [by rewrite length_alter|done].
    + intros p Hp _. apply (wfPlayer_mono g); simpl; [by rewrite length_alter|done|].
      apply Hf. rewrite Forall_forall in Hall. apply Hall.
      by eapply list_elem_of_lookup_2.
Qed.

Lemma wf_updCell l f g : wf g → wf (updCell l f g).
Proof. apply wf_same_shape; simpl; rewrite ?length_alter; done. Qed.

Lemma wf_pushLog e g : wf g → wf (pushLog e g).
Proof. by apply wf_same_shape. Qed.

Lemma wf_set_lastRoll v g : wf g → wf (GameState.set_lastRoll v g).
Proof. by apply wf_same_shape. Qed.

Lemma wf_allocCell c g : wf g → wf (allocCell c g).2.
Proof. apply wf_same_shape; simpl; rewrite ?length_app; try done; lia. Qed.

Lemma wf_set_stats s g p : wfPlayer g p → wfPlayer g (GamePlayer.set_stats s p).
Proof. done. Qed.

Lemma wf_set_flag g p :
  wfPlayer g p →
  (∀ v, wfPlayer g (GamePlayer.set_eliminated v p)) ∧
  (∀ v, wfPlayer g (GamePlayer.set_firstMove v p)).
Proof. done. Qed.

(** A slot that [get] can read is inside the array. *)
Lemma JsArray_get_Some {A} (a : list (option A)) (i : Z) (v : A) :
  JsArray.get a i = Some v ↔ 0 <= i ∧ a !! Z.to_nat i = Some (Some v).
Proof.
  unfold JsArray.get. destruct (Z.ltb_spec i 0).
  - split; [done|lia].
  - destruct (a !! Z.to_nat i) as [[x|]|]; simpl; split.
    all: first [ intros [_ ?]; by simplify_eq
               | intros ?; simplify_eq; by split; [lia|] ].
Qed.

Lemma JsArray_set_in_range {A} (a : list (option A)) (i : Z) (v : A) :
  0 <= i → (Z.to_nat i < length a)%nat →
  JsArray.set a i v = <[Z.to_nat i := Some v]> a.
Proof.
  intros H0 Hi. unfold JsArray.set.
  destruct (Z.ltb_spec i 0); [lia|]. by rewrite decide_True.
Qed.

(** Storing a fresh reference in a slot that exists. *)
Lemma wf_set_slot g p i l :
  0 <= i → (Z.to_nat i < length (GamePlayer.cells p))%nat →
  (l < length (GameState.cellStore g))%nat →
  wfPlayer g p →
  wfPlayer g (GamePlayer.set_cells (JsArray.set (GamePlayer.cells p) i l) p).
Proof.
  intros H0 Hi Hl [Hlen Hslots]. rewrite JsArray_set_in_range by done.
  split; simpl.
  - etrans; [apply length_insert|done].
  - apply Forall_insert; [done|]. by exists l.
Qed.

Lemma wf_lookup g i p :
  wf g → GameState.players g !! i = Some p → wfPlayer g p.
Proof.
  intros [_ Hall] Hp. rewrite Forall_forall in Hall. apply Hall.
  by eapply list_elem_of_lookup_2.
Qed.

Lemma wf_slot g p i :
  wfPlayer g p → 0 <= i < Z.of_nat (length (GameState.players g)) →
  ∃ l c, JsArray.get (GamePlayer.cells p) i = Some l ∧
         GameState.cellStore g !! l = Some c.
Proof.
  intros [Hlen Hslots] Hi.
  assert (Hlt : (Z.to_nat i < length (GamePlayer.cells p))%nat) by lia.
  apply lookup_lt_is_Some_2 in Hlt as [slot Hslot].
  rewrite Forall_forall in Hslots.
  destruct (Hslots slot) as (l & -> & Hl).
  { by eapply list_elem_of_lookup_2. }
  apply lookup_lt_is_Some_2 in Hl as [c Hc].
  exists l, c. split; [|done]. apply JsArray_get_Some. split; [lia|done].
Qed.

Lemma everyInactive_total g cs :
  Forall (wfSlot g) cs → ∃ b, everyInactive g cs = Ok b.
Proof.
  induction 1 as [|slot cs (l & -> & Hl) _ IH]; simpl; [eauto|].
  apply lookup_lt_is_Some_2 in Hl as [c Hc].
  unfold deref. rewrite Hc. simpl.
  destruct (Cell.isActive c); simpl; eauto.
Qed.

Lemma wf_init roster : roster ≠ [] → wf (initializeGameState roster).
Proof.
  intros Hne. split; simpl.
  - rewrite length_imap. destruct roster; [done|simpl; lia].
  - apply Forall_forall. intros p Hin.
    apply list_elem_of_lookup in Hin as [i Hi].
    rewrite list_lookup_imap in Hi.
    destruct (roster !! i) as [lp|] eqn:Hlp; simplify_eq/=.
    apply lookup_lt_Some in Hlp.
    split; simpl.
    + unfold JsArray.fill. by rewrite length_replicate, length_imap.
    + unfold JsArray.fill. apply Forall_replicate. exists i.
      split; [done|]. simpl. by rewrite length_replicate.
Qed.

Lemma nextPlayer_in_range fuel : ∀ ps cur c,
  nextPlayer fuel ps cur = Ok c → (c < length ps)%nat.
Proof.
  induction fuel as [|fuel IH]; intros ps cur c; rewrite nextPlayer_unfold; simpl;
    intros H; inv_bind; case_match; simplify_eq; eauto using lookup_lt_Some.
Qed.

Lemma landShot_wf g cur tp tc sc sn tn :
  wf g → 0 <= tc → (Z.to_nat tc < length (GameState.players g))%nat →
  wf (landShot g cur tp tc sc sn tn).
Proof.
  intros Hwf H0 Htc. unfold landShot, allocCell.
  apply wf_pushLog.
  apply wf_updPlayer; [intros p; apply wf_set_stats|].
  apply wf_updPlayer; [intros p; apply wf_set_stats|].
  apply wf_updCell.
  apply wf_updPlayer.
  - intros p Hp. apply wf_set_slot; try done.
    + destruct Hp as [-> _]. done.
    + simpl. rewrite length_app. simpl. lia.
  - by apply (wf_allocCell _ g).
Qed.

Lemma roll_wf g value g' : wf g → roll g value = Ok g' → wf g'.
Proof.
  intros Hwf H. unfold roll in H. inv_bind.
  rename x into p. rename H0 into Hp.
  assert (Hwf1 : wf (if GamePlayer.firstMove p && (value =? 1)
                     then updPlayer (GameState.currentPlayer g)
                            (GamePlayer.set_firstMove false)
                            (GameState.set_lastRoll (Some value) g)
                     else GameState.set_lastRoll (Some value) g)).
  { destruct (GamePlayer.firstMove p && (value =? 1));
      [apply wf_updPlayer; [intros q Hq; by apply wf_set_flag|]|];
      by apply wf_set_lastRoll. }
  destruct (GamePlayer.firstMove p && negb (value =? 1)).
  { inv_bind. subst g'. by apply wf_pushLog, wf_set_lastRoll. }
  set (g1 := if GamePlayer.firstMove p && (value =? 1) then _ else _) in *.
  inv_bind. rename x into l, x0 into cell.
  apply JsArray_get_Some in H0 as [Hv Hl].
  repeat case_match; simplify_eq; try done;
    repeat first [apply wf_pushLog | apply wf_updCell]; try done.
  unfold allocCell in *. simplify_eq.
  apply wf_updPlayer; [|by apply (wf_allocCell _ g1)].
  intros q Hq. apply wf_set_slot; try done.
  - destruct Hq as [-> _]. simpl.
    assert (Hlen1 : length (GameState.players g1) = length (GameState.players g)).
    { subst g1. destruct (_ && _); simpl; by rewrite ?length_alter. }
    assert (Hpw : wfPlayer g p) by (eapply wf_lookup; done).
    destruct Hpw as [Hlenp _]. rewrite Hlen1, <- Hlenp. by eapply lookup_lt_Some.
  - simpl. rewrite length_app. simpl. lia.
Qed.

Lemma shoot_wf g tp tc g' : wf g → shoot g tp tc = Ok g' → wf g'.
Proof.
  intros Hwf H. unfold shoot in H.
  destruct (lastRollIs g (tc + 1)); [|by simplify_eq].
  inv_bind. rename x into actor, x0 into l, x1 into sc.
  destruct (Cell.bullets sc >? 0); [|by simplify_eq].
  inv_bind. rename x into target, x0 into target', x1 into e.
  apply JsArray_get_Some in H1 as [Htc Hl].
  assert (Hin : (Z.to_nat tc < length (GameState.players g))%nat).
  { destruct (wf_lookup _ _ _ Hwf H0) as [<- _]. by eapply lookup_lt_Some. }
  pose proof (landShot_wf g (GameState.currentPlayer g) (Z.to_nat tp) tc l
                (GamePlayer.username actor) (GamePlayer.username target) Hwf Htc Hin) as Hwf1.
  destruct e; simplify_eq.
  - apply wf_pushLog.
    apply wf_updPlayer; [intros p; apply wf_set_stats|].
    apply wf_updPlayer; [intros p Hp; by apply wf_set_flag|]. done.
  - apply wf_updPlayer; [intros p Hp; by apply wf_set_flag|]. done.
Qed.

Lemma applyAction_wf g action data g' :
  wf g → applyAction g action data = Ok g' → wf g'.
Proof.
  intros Hwf H. unfold applyAction in H. repeat case_match.
  - by eapply roll_wf.
  - by eapply shoot_wf.
  - unfold emote in H. inv_bind. subst g'. by apply wf_pushLog.
  - by simplify_eq.
Qed.

Lemma endOfAction_wf g r : wf g → endOfAction g = Ok r → wf (ActionResult.gameState r).
Proof.
  intros Hwf H. apply endOfAction_inv in H as [(_ & _ & -> & _)|(_ & _ & _ & c & Hc & ->)].
  - done.
  - apply nextPlayer_in_range in Hc. destruct Hwf as [_ Hall]. split; simpl; done.
Qed.

Lemma processGameAction_wf g action data r :
  wf g → processGameAction g action data = Ok r → wf (ActionResult.gameState r).
Proof.
  intros Hwf H. unfold processGameAction in H. inv_bind.
  eapply endOfAction_wf; [|done]. by eapply applyAction_wf.
Qed.

Lemma wf_players_nonempty g : wf g → GameState.players g ≠ [].
Proof. intros [Hcur _] Hnil. rewrite Hnil in Hcur. simpl in Hcur. lia. Qed.

(** On a well-formed state, every action with a payload in range is
    processed without an exception. *)
Lemma applyAction_total g action data :
  wf g → validAction g action data → ∃ g', applyAction g action data = Ok g'.
Proof.
  intros Hwf [Hroll Hshoot]. unfold applyAction.
  pose proof Hwf as [Hcur _].
  apply lookup_lt_is_Some_2 in Hcur as [actor Hactor].
  pose proof (wf_lookup _ _ _ Hwf Hactor) as Hwa.
  destruct (String.eqb_spec action "roll") as [->|_].
  { specialize (Hroll eq_refl). unfold roll. simpl. rewrite Hactor. simpl.
    destruct (GamePlayer.firstMove actor && negb (ActionData.value data =? 1)); [eauto|].
    destruct (wf_slot g actor (ActionData.value data - 1) Hwa ltac:(lia)) as (l & c & Hl & Hc).
    rewrite Hl. simpl.
    assert (Hd : ∀ g1, GameState.cellStore g1 = GameState.cellStore g → deref g1 l = Ok c).
    { intros g1 Hg1. unfold deref. by rewrite Hg1, Hc. }
    rewrite Hd by (by destruct (_ && _)). simpl.
    unfold allocCell. repeat case_match; eauto. }
  destruct (String.eqb_spec action "shoot") as [->|_].
  { destruct (Hshoot eq_refl) as [Htp Htc]. unfold shoot.
    destruct (lastRollIs g _); [|eauto].
    rewrite Hactor. cbn [mbind Res_bind orThrow].
    destruct (wf_slot g actor (ActionData.targetCell data) Hwa ltac:(lia)) as (l & c & Hl & Hc).
    rewrite Hl. cbn [mbind Res_bind orThrow]. unfold deref at 1. rewrite Hc. cbn [mbind Res_bind orThrow].
    destruct (Cell.bullets c >? 0); [|eauto].
    assert (Htarget : is_Some (playerAt g (ActionData.targetPlayer data))).
    { unfold playerAt. destruct (Z.ltb_spec (ActionData.targetPlayer data) 0); [lia|].
      apply lookup_lt_is_Some_2. lia. }
    destruct Htarget as [target Htarget]. rewrite Htarget. cbn [mbind Res_bind orThrow].
    set (g1 := landShot _ _ _ _ _ _ _).
    assert (Hwf1 : wf g1) by (apply landShot_wf; [done|lia|lia]).
    assert (Hlen1 : length (GameState.players g1) = length (GameState.players g)).
    { subst g1. unfold landShot, allocCell. simpl. by rewrite !length_alter. }
    assert (Ht' : is_Some (GameState.players g1 !! Z.to_nat (ActionData.targetPlayer data))).
    { apply lookup_lt_is_Some_2. lia. }
    destruct Ht' as [target' Ht']. rewrite Ht'. cbn [mbind Res_bind orThrow].
    destruct (everyInactive_total g1 (GamePlayer.cells target')) as [e He].
    { by destruct (wf_lookup _ _ _ Hwf1 Ht'). }
    rewrite He. cbn [mbind Res_bind orThrow]. destruct e; eauto. }
  destruct (String.eqb action "emote"); [|eauto].
  unfold emote. rewrite Hactor. simpl. eauto.
Qed.

Lemma processGameAction_total g action data :
  wf g → validAction g action data →
  ∃ r, processGameAction g action data = Ok r.
Proof.
  intros Hwf Hv. destruct (applyAction_total g action data Hwf Hv) as [g' Hg'].
  unfold processGameAction. rewrite Hg'. simpl.
  apply endOfAction_total, wf_players_nonempty. by eapply applyAction_wf.
Qed.

(** ** End check and turn advance *)

Lemma alive_pos ps : (0 < alive ps)%nat ↔ existsb notEliminated ps = true.
Proof.
  unfold alive. induction ps as [|p ps IH]; simpl.
  - split; [lia|done].
  - destruct (notEliminated p); simpl; [split; [done|lia]|done].
Qed.

Lemma alive_zero ps : alive ps = 0%nat ↔ existsb notEliminated ps = false.
Proof.
  pose proof (alive_pos ps) as H.
  destruct (existsb notEliminated ps); split; intros; try done.
  - assert (0 < alive ps)%nat by (by apply H). lia.
  - destruct (alive ps) eqn:Ha; [done|]. assert (true = false); [|done].
    symmetry. apply H. lia.
Qed.

Lemma endOfAction_spec g r :
  endOfAction g = Ok r →
  GameState.players (ActionResult.gameState r) = GameState.players g ∧
  GameState.gameLog (ActionResult.gameState r) = GameState.gameLog g ∧
  GameState.lastRoll (ActionResult.gameState r) = GameState.lastRoll g ∧
  GameState.cellStore (ActionResult.gameState r) = GameState.cellStore g ∧
  (ActionResult.gameEnded r = true ↔ alive (GameState.players g) = 1%nat) ∧
  (ActionResult.gameEnded r = true → ActionResult.gameState r = g) ∧
  (ActionResult.gameEnded r = false →
     nextInTurn (GameState.players g) (GameState.currentPlayer g)
       (GameState.currentPlayer (ActionResult.gameState r))).
Proof.
  intros H.
  apply endOfAction_inv in H
    as [(Ha & He & Hg & _)|(Ha & He & _ & c & Hc & Hg)]; rewrite Hg, He.
  - repeat split; done.
  - simpl. repeat split; try done. intros _.
    assert (Hne : GameState.players g ≠ []).
    { intros Hnil. apply nextPlayer_in_range in Hc. rewrite Hnil in Hc. simpl in Hc. lia. }
    destruct (nextPlayer_spec (GameState.players g) (GameState.currentPlayer g) Hne)
      as (k & q & Hk & Hrun & Hq & Hlive & Hdead & Hskip).
    rewrite Hrun in Hc. simplify_eq.
    exists k. repeat split; try done.
    exists q. split; [done|]. intros Hqe.
    destruct (existsb notEliminated (GameState.players g)) eqn:Hex.
    + rewrite Hlive in Hqe; done.
    + split; [by apply alive_zero|by apply Hdead].
Qed.

(** C1, as stated, does not hold: an action of an unknown kind still runs the
    end-of-action sequence.  At the start of a two-player game the action
    "dance" hands the turn from index 0 to index 1, so the state that comes
    back is not the one that went in. *)
Lemma unknown_action_advances_turn :
  ¬ ∃ r, processGameAction (initializeGameState [alice; bob]) "dance" (emoteData "") = Ok r ∧
         ActionResult.gameState r = initializeGameState [alice; bob] ∧
         ActionResult.gameEnded r = false.
Proof. intros (r & Hr & Hg & _). vm_compute in Hr. simplify_eq. Qed.

(** C1 (amended): for an action kind other than 'roll', 'shoot' and 'emote',
    [processGameAction] appends no log entry and changes no player, no cell
    and not [lastRoll]; it does run the end-of-action sequence: it returns
    [gameEnded = true] with the state unchanged when exactly one player is
    not eliminated, and otherwise returns [gameEnded = false] with
    [currentPlayer] moved to the next player in turn. *)
Theorem unknown_action_only_ends_turn g action data :
  action ≠ "roll" → action ≠ "shoot" → action ≠ "emote" →
  GameState.players g ≠ [] →
  ∃ r, processGameAction g action data = Ok r ∧
    GameState.players (ActionResult.gameState r) = GameState.players g ∧
    GameState.gameLog (ActionResult.gameState r) = GameState.gameLog g ∧
    GameState.lastRoll (ActionResult.gameState r) = GameState.lastRoll g ∧
    GameState.cellStore (ActionResult.gameState r) = GameState.cellStore g ∧
    (ActionResult.gameEnded r = true ↔ alive (GameState.players g) = 1%nat) ∧
    (ActionResult.gameEnded r = true → ActionResult.gameState r = g) ∧
    (ActionResult.gameEnded r = false →
       nextInTurn (GameState.players g) (GameState.currentPlayer g)
         (GameState.currentPlayer (ActionResult.gameState r))).
Proof.
  intros H1 H2 H3 Hne.
  destruct (endOfAction_total g Hne) as [r Hr].
  exists r. split.
  - unfold processGameAction. by rewrite applyAction_unknown.
  - by apply endOfAction_spec.
Qed.

Lemma unknown_action_only_ends_turn_witness :
  ∃ r, processGameAction (initializeGameState [alice; bob]) "dance" (emoteData "") = Ok r ∧
       GameState.gameLog (ActionResult.gameState r) = [] ∧
       ActionResult.gameEnded r = false ∧
       GameState.currentPlayer (ActionResult.gameState r) = 1%nat.
Proof.
  destruct (unknown_action_only_ends_turn (initializeGameState [alice; bob])
              "dance" (emoteData "")) as (r & Hr & _ & Hlog & _).
  - done.
  - done.
  - done.
  - done.
  - exists r. vm_compute in Hr. simplify_eq. done.
Defined.

(** ** From the action cases to [processGameAction] *)

Lemma processGameAction_after g action data g' :
  applyAction g action data = Ok g' →
  GameState.players g' ≠ [] →
  ∃ r, processGameAction g action data = Ok r ∧
    GameState.players (ActionResult.gameState r) = GameState.players g' ∧
    GameState.gameLog (ActionResult.gameState r) = GameState.gameLog g' ∧
    GameState.lastRoll (ActionResult.gameState r) = GameState.lastRoll g' ∧
    GameState.cellStore (ActionResult.gameState r) = GameState.cellStore g'.
Proof.
  intros Happ Hne. destruct (endOfAction_total g' Hne) as [r Hr].
  exists r. split.
  - unfold processGameAction. by rewrite Happ.
  - apply endOfAction_spec in Hr as (? & ? & ? & ? & _). done.
Qed.

Lemma cellOf_ext g g' p p' i :
  GameState.cellStore g' = GameState.cellStore g →
  GamePlayer.cells p' = GamePlayer.cells p →
  cellOf g' p' i = cellOf g p i.
Proof. unfold cellOf. by intros -> ->. Qed.

Lemma JsArray_get_set {A} (a : list (option A)) (i : Z) (v : A) :
  0 <= i → (Z.to_nat i < length a)%nat →
  JsArray.get (JsArray.set a i v) i = Some v.
Proof.
  intros H0 Hi. rewrite JsArray_set_in_range by done.
  apply JsArray_get_Some. split; [done|]. by apply list_lookup_insert_eq.
Qed.

Lemma nonempty_lookup {A} (l : list A) i x : l !! i = Some x → l ≠ [].
Proof. by destruct l. Qed.

(** The state a roll leaves behind when the first-move rule does not stop
    it, written out for each condition of the cell. *)
Lemma roll_cell g value p l cell :
  GameState.players g !! GameState.currentPlayer g = Some p →
  GamePlayer.firstMove p && negb (value =? 1) = false →
  JsArray.get (GamePlayer.cells p) (value - 1) = Some l →
  GameState.cellStore g !! l = Some cell →
  ∃ g' p', roll g value = Ok g' ∧
    GameState.lastRoll g' = Some value ∧
    GameState.players g' !! GameState.currentPlayer g = Some p' ∧
    GamePlayer.firstMove p' = false ∧
    (Cell.isActive cell = false →
       cellOf g' p' (value - 1) = Some (Cell.mk 1 true 0) ∧
       GameState.gameLog g' =
         GameState.gameLog g ++ [LogEntry.activate (GamePlayer.username p) value]) ∧
    (Cell.isActive cell = true → Cell.stage cell < 6 → Cell.stage cell + 1 ≠ 6 →
       cellOf g' p' (value - 1) = Some (Cell.set_stage (Cell.stage cell + 1) cell) ∧
       GameState.gameLog g' = GameState.gameLog g) ∧
    (Cell.isActive cell = true → Cell.stage cell + 1 = 6 →
       cellOf g' p' (value - 1) = Some (Cell.mk 6 true 5) ∧
       GameState.gameLog g' =
         GameState.gameLog g ++ [LogEntry.maxLevel (GamePlayer.username p) value]) ∧
    (Cell.isActive cell = true → Cell.stage cell = 6 → Cell.bullets cell = 0 →
       cellOf g' p' (value - 1) = Some (Cell.mk 6 true 5) ∧
       GameState.gameLog g' =
         GameState.gameLog g ++ [LogEntry.reload (GamePlayer.username p) value]) ∧
    (Cell.isActive cell = true → Cell.stage cell = 6 → Cell.bullets cell > 0 →
       cellOf g' p' (value - 1) = Some cell ∧
       GameState.gameLog g' = GameState.gameLog g ∧
       GameState.cellStore g' = GameState.cellStore g ∧
       GamePlayer.cells p' = GamePlayer.cells p).
Proof.
  intros Hp Hfm Hl Hcell.
  pose proof Hl as Hl'. apply JsArray_get_Some in Hl' as [Hv Hslot].
  pose proof (lookup_lt_Some _ _ _ Hslot) as Hin.
  pose proof (lookup_lt_Some _ _ _ Hcell) as Hlstore.
  unfold roll. cbn [GameState.players GameState.set_lastRoll mbind Res_bind orThrow].
  rewrite Hp. cbn [mbind Res_bind orThrow]. rewrite Hfm, Hl. cbn [mbind Res_bind orThrow].
  set (g1 := if GamePlayer.firstMove p && (value =? 1) then _ else _).
  set (p1 := GamePlayer.set_firstMove false p).
  assert (Hstore1 : GameState.cellStore g1 = GameState.cellStore g).
  { subst g1. by destruct (GamePlayer.firstMove p && (value =? 1)). }
  assert (Hlog1 : GameState.gameLog g1 = GameState.gameLog g)
    by (subst g1; by destruct (GamePlayer.firstMove p && (value =? 1))).
  assert (Hroll1 : GameState.lastRoll g1 = Some value)
    by (subst g1; by destruct (GamePlayer.firstMove p && (value =? 1))).
  assert (Hp1 : ∃ p1, GameState.players g1 !! GameState.currentPlayer g = Some p1 ∧
                      GamePlayer.firstMove p1 = false ∧
                      GamePlayer.cells p1 = GamePlayer.cells p).
  { subst g1. destruct (GamePlayer.firstMove p) eqn:Hf; simpl in *.
    - destruct (value =? 1); [|done]. simpl. rewrite list_lookup_alter_eq, Hp. simpl.
      eexists. split; [reflexivity|]. done.
    - eauto. }
  destruct Hp1 as (q & Hq & Hqf & Hqc).
  unfold deref. rewrite Hstore1, Hcell. cbn [mbind Res_bind orThrow].
  replace (value - 1 + 1) with value by lia.
  destruct (Cell.isActive cell) eqn:Hact; cbn [negb].
  - destruct (Z.ltb_spec (Cell.stage cell) 6) as [Hlt|Hge].
    + destruct (Z.eqb_spec (Cell.stage cell + 1) 6) as [H6|Hn6].
      * eexists _, q. split; [reflexivity|]. simpl.
        rewrite Hroll1, Hlog1, Hq, Hqf. do 3 (split; [done|]).
        unfold cellOf. simpl. rewrite Hqc, Hl, Hstore1. simpl.
        rewrite !list_lookup_alter_eq, Hcell. simpl.
        repeat split; try done; try lia.
        all: intros; try lia; destruct cell as [s a b]; simpl in *; subst;
          unfold Cell.set_bullets, Cell.set_stage; simpl; f_equal; f_equal; lia.
      * eexists _, q. split; [reflexivity|]. simpl.
        rewrite Hroll1, Hlog1, Hq, Hqf. do 3 (split; [done|]).
        unfold cellOf. simpl. rewrite Hqc, Hl, Hstore1. simpl.
        rewrite !list_lookup_alter_eq, Hcell. simpl.
        repeat split; try done; try lia.
    + destruct (Z.eqb_spec (Cell.bullets cell) 0) as [Hb|Hb].
      * eexists _, q. split; [reflexivity|]. simpl.
        rewrite Hroll1, Hlog1, Hq, Hqf. do 3 (split; [done|]).
        unfold cellOf. simpl. rewrite Hqc, Hl, Hstore1. simpl.
        rewrite !list_lookup_alter_eq, Hcell. simpl.
        repeat split; try done; try lia.
        all: intros; try lia; destruct cell as [s a b]; simpl in *; subst;
          unfold Cell.set_bullets, Cell.set_stage; simpl; f_equal; f_equal; lia.
      * eexists _, q. split; [reflexivity|].
        rewrite Hroll1, Hlog1, Hq, Hqf. do 3 (split; [done|]).
        unfold cellOf. rewrite Hqc, Hl, Hstore1. simpl. rewrite Hcell.
        repeat split; try done; try lia.
  - unfold allocCell. cbn [GameState.cellStore].
    eexists _, _. split; [reflexivity|]. simpl.
    rewrite Hroll1, Hlog1, list_lookup_alter_eq, Hq. simpl.
    do 3 (split; [done|]).
    unfold cellOf. simpl. rewrite Hqc, JsArray_get_set by done. simpl.
    rewrite Hstore1, lookup_app_r, Nat.sub_diag by lia. simpl.
    repeat split; try done.
Qed.

(** C6: what a roll does.  [lastRoll] becomes the value rolled.  A player
    still on the first move who rolls anything but 1 only gets a [firstMove]
    log entry: no player and no cell changes, so [firstMove] stays set.
    Otherwise [firstMove] is clear afterwards and the cell [cells[value-1]]
    is activated, levelled up, given 5 bullets on reaching stage 6, reloaded
    when empty at stage 6, or left alone when it still has bullets, with the
    matching log entry or none.  In a well-formed state that cell exists
    for every value from 1 to the number of players. *)
Theorem roll_effect g data p :
  let value := ActionData.value data in
  GameState.players g !! GameState.currentPlayer g = Some p →
  (GamePlayer.firstMove p = true → value ≠ 1 →
     ∃ r, processGameAction g "roll" data = Ok r ∧
       GameState.lastRoll (ActionResult.gameState r) = Some value ∧
       GameState.players (ActionResult.gameState r) = GameState.players g ∧
       GameState.cellStore (ActionResult.gameState r) = GameState.cellStore g ∧
       GameState.gameLog (ActionResult.gameState r) =
         GameState.gameLog g ++
           [LogEntry.firstMove (GamePlayer.username p)
              (GamePlayer.username p +:+ " needs to roll a 1 to start!")]) ∧
  (GamePlayer.firstMove p = false ∨ value = 1 →
   ∀ l cell,
     JsArray.get (GamePlayer.cells p) (value - 1) = Some l →
     GameState.cellStore g !! l = Some cell →
     ∃ r p', processGameAction g "roll" data = Ok r ∧
       let g' := ActionResult.gameState r in
       GameState.lastRoll g' = Some value ∧
       GameState.players g' !! GameState.currentPlayer g = Some p' ∧
       GamePlayer.firstMove p' = false ∧
       (Cell.isActive cell = false →
          cellOf g' p' (value - 1) = Some (Cell.mk 1 true 0) ∧
          GameState.gameLog g' =
            GameState.gameLog g ++ [LogEntry.activate (GamePlayer.username p) value]) ∧
       (Cell.isActive cell = true → Cell.stage cell < 6 → Cell.stage cell + 1 ≠ 6 →
          cellOf g' p' (value - 1) = Some (Cell.set_stage (Cell.stage cell + 1) cell) ∧
          GameState.gameLog g' = GameState.gameLog g) ∧
       (Cell.isActive cell = true → Cell.stage cell + 1 = 6 →
          cellOf g' p' (value - 1) = Some (Cell.mk 6 true 5) ∧
          GameState.gameLog g' =
            GameState.gameLog g ++ [LogEntry.maxLevel (GamePlayer.username p) value]) ∧
       (Cell.isActive cell = true → Cell.stage cell = 6 → Cell.bullets cell = 0 →
          cellOf g' p' (value - 1) = Some (Cell.mk 6 true 5) ∧
          GameState.gameLog g' =
            GameState.gameLog g ++ [LogEntry.reload (GamePlayer.username p) value]) ∧
       (Cell.isActive cell = true → Cell.stage cell = 6 → Cell.bullets cell > 0 →
          cellOf g' p' (value - 1) = Some cell ∧
          GameState.gameLog g' = GameState.gameLog g ∧
          GameState.cellStore g' = GameState.cellStore g ∧
          GamePlayer.cells p' = GamePlayer.cells p)) ∧
  (wf g → 1 <= value <= Z.of_nat (length (GameState.players g)) →
   ∃ l cell, JsArray.get (GamePlayer.cells p) (value - 1) = Some l ∧
             GameState.cellStore g !! l = Some cell).
Proof.
  intros value Hp. split; [|split].
  - intros Hf Hv.
    assert (Hroll : roll g value =
              Ok (pushLog (LogEntry.firstMove (GamePlayer.username p)
                             (GamePlayer.username p +:+ " needs to roll a 1 to start!"))
                    (GameState.set_lastRoll (Some value) g))).
    { unfold roll. simpl. rewrite Hp. simpl. rewrite Hf.
      destruct (Z.eqb_spec value 1); [done|]. done. }
    destruct (processGameAction_after g "roll" data _ Hroll)
      as (r & Hr & Hps & Hlog & Hlast & Hstore).
    { simpl. by eapply nonempty_lookup. }
    exists r. rewrite Hps, Hlog, Hlast, Hstore. done.
  - intros Hgo l cell Hl Hcell.
    assert (Hfm : GamePlayer.firstMove p && negb (value =? 1) = false).
    { destruct Hgo as [->| ->]; [done|]. by rewrite andb_false_r. }
    destruct (roll_cell g value p l cell Hp Hfm Hl Hcell)
      as (g' & p' & Hroll & Hlast' & Hp' & Hfirst & Hcases).
    destruct (processGameAction_after g "roll" data g' Hroll)
      as (r & Hr & Hps & Hlog & Hlast & Hstore).
    { by eapply nonempty_lookup. }
    exists r, p'. split; [done|]. simpl.
    rewrite Hps, Hlog, Hlast, Hstore.
    rewrite (cellOf_ext g' (ActionResult.gameState r) p' p') by done.
    done.
  - intros Hwf Hv. apply wf_slot; [by eapply wf_lookup|lia].
Qed.

Lemma roll_effect_witness :
  ∃ r p', processGameAction (initializeGameState [alice; bob]) "roll" (rollData 1) = Ok r ∧
    GameState.lastRoll (ActionResult.gameState r) = Some 1 ∧
    GameState.players (ActionResult.gameState r) !! 0%nat = Some p' ∧
    GamePlayer.firstMove p' = false ∧
    cellOf (ActionResult.gameState r) p' 0 = Some (Cell.mk 1 true 0) ∧
    GameState.gameLog (ActionResult.gameState r) = [LogEntry.activate "alice" 1].
Proof.
  destruct (proj1 (proj2 (roll_effect (initializeGameState [alice; bob]) (rollData 1)
                            (initPlayer 2 0 alice) eq_refl))
              (or_intror eq_refl) 0%nat freshCell eq_refl eq_refl)
    as (r & p' & Hr & Hlast & Hp' & Hfirst & Hinactive & _).
  exists r, p'. destruct (Hinactive eq_refl) as [Hcell Hlog]. done.
Defined.

(** ** The mutations of a shot *)

Lemma lookup_updPlayer g i f j :
  GameState.players (updPlayer i f g) !! j =
    if decide (i = j) then f <$> GameState.players g !! j else GameState.players g !! j.
Proof.
  simpl. destruct (decide (i = j)) as [->|Hne].
  - apply list_lookup_alter_eq.
  - by apply list_lookup_alter_ne.
Qed.

(** The target after the shot: the slot holds the new cell, and
    [timesTargeted] went up; when the shooter is the target, it is the same
    object and [shotsFired] went up on it as well. *)
Lemma landShot_target g cur tp tc l sn tn target :
  GameState.players g !! tp = Some target →
  ∃ t1, GameState.players (landShot g cur tp tc l sn tn) !! tp = Some t1 ∧
    GamePlayer.cells t1 =
      JsArray.set (GamePlayer.cells target) tc (length (GameState.cellStore g)) ∧
    Stats.timesTargeted (GamePlayer.stats t1) =
      Stats.timesTargeted (GamePlayer.stats target) + 1 ∧
    Stats.shotsFired (GamePlayer.stats t1) =
      Stats.shotsFired (GamePlayer.stats target) + (if decide (cur = tp) then 1 else 0) ∧
    GamePlayer.eliminated t1 = GamePlayer.eliminated target ∧
    GamePlayer.username t1 = GamePlayer.username target.
Proof.
  intros Ht. unfold landShot, allocCell. simpl.
  rewrite list_lookup_alter_eq.
  destruct (decide (cur = tp)) as [->|Hne].
  - rewrite !list_lookup_alter_eq, Ht. simpl. eexists. split; [done|]. simpl.
    repeat split; lia.
  - rewrite list_lookup_alter_ne by done.
    rewrite list_lookup_alter_eq, Ht. simpl. eexists. split; [done|]. simpl.
    repeat split; lia.
Qed.

(** A shooter who is not the target: only [shotsFired] changes. *)
Lemma landShot_actor g cur tp tc l sn tn actor :
  cur ≠ tp →
  GameState.players g !! cur = Some actor →
  GameState.players (landShot g cur tp tc l sn tn) !! cur =
    Some (GamePlayer.set_stats
            (Stats.set_shotsFired (Stats.shotsFired (GamePlayer.stats actor) + 1)
               (GamePlayer.stats actor)) actor).
Proof.
  intros Hne Ha. unfold landShot, allocCell. simpl.
  rewrite list_lookup_alter_ne by done.
  rewrite list_lookup_alter_eq.
  rewrite list_lookup_alter_ne by done. by rewrite Ha.
Qed.

Lemma landShot_other g cur tp tc l sn tn j :
  j ≠ cur → j ≠ tp →
  GameState.players (landShot g cur tp tc l sn tn) !! j = GameState.players g !! j.
Proof.
  intros H1 H2. unfold landShot, allocCell. simpl.
  by rewrite !list_lookup_alter_ne.
Qed.

(** On references that are in use, [every] computes [allInactive]. *)
Lemma everyInactive_allInactive g p :
  Forall (wfSlot g) (GamePlayer.cells p) →
  everyInactive g (GamePlayer.cells p) = Ok (allInactive g p).
Proof.
  unfold allInactive. induction 1 as [|slot cs (l & -> & Hl) _ IH]; simpl; [done|].
  apply lookup_lt_is_Some_2 in Hl as [c Hc].
  unfold deref. rewrite Hc. simpl.
  destruct (Cell.isActive c); simpl; done.
Qed.

(** The state after [shoot], for a shot that lands. *)
Lemma shoot_lands g tp tc actor l c target :
  wf g →
  GameState.players g !! GameState.currentPlayer g = Some actor →
  lastRollIs g (tc + 1) = true →
  JsArray.get (GamePlayer.cells actor) tc = Some l →
  GameState.cellStore g !! l = Some c →
  Cell.bullets c > 0 →
  playerAt g tp = Some target →
  let g1 := landShot g (GameState.currentPlayer g) (Z.to_nat tp) tc l
              (GamePlayer.username actor) (GamePlayer.username target) in
  ∃ t1, GameState.players g1 !! Z.to_nat tp = Some t1 ∧
    let e := allInactive g1 t1 in
    let g2 := updPlayer (Z.to_nat tp) (GamePlayer.set_eliminated e) g1 in
    shoot g tp tc =
      Ok (if e then
            pushLog (LogEntry.eliminate (GamePlayer.username target))
              (updPlayer (GameState.currentPlayer g)
                 (fun p => GamePlayer.set_stats
                    (Stats.set_eliminations (Stats.eliminations (GamePlayer.stats p) + 1)
                       (GamePlayer.stats p)) p) g2)
          else g2).
Proof.
  intros Hwf Ha Hroll Hl Hc Hb Ht g1.
  assert (Htp : GameState.players g !! Z.to_nat tp = Some target).
  { unfold playerAt in Ht. by destruct (tp <? 0). }
  pose proof Hl as Hl'. apply JsArray_get_Some in Hl' as [Htc Hslot].
  assert (Hin : (Z.to_nat tc < length (GameState.players g))%nat).
  { destruct (wf_lookup _ _ _ Hwf Ha) as [<- _]. by eapply lookup_lt_Some. }
  assert (Hwf1 : wf g1) by (by apply landShot_wf).
  destruct (landShot_target g (GameState.currentPlayer g) (Z.to_nat tp) tc l
              (GamePlayer.username actor) (GamePlayer.username target) target Htp)
    as (t1 & Ht1 & _).
  exists t1. split; [done|]. intros e g2.
  unfold shoot. rewrite Hroll, Ha. cbn [mbind Res_bind orThrow].
  rewrite Hl. cbn [mbind Res_bind orThrow]. unfold deref at 1. rewrite Hc.
  cbn [mbind Res_bind orThrow].
  destruct (Z.gtb_spec (Cell.bullets c) 0); [|lia].
  rewrite Ht. cbn [mbind Res_bind orThrow]. rewrite Ht1.
  cbn [mbind Res_bind orThrow].
  rewrite everyInactive_allInactive by (by destruct (wf_lookup _ _ _ Hwf1 Ht1)).
  cbn [mbind Res_bind orThrow]. by destruct (allInactive _ t1).
Qed.

(** Everything the rest of the development needs to know about the state
    after a shot that lands. *)
Lemma shoot_lands_state g tp tc actor l c target :
  wf g →
  GameState.players g !! GameState.currentPlayer g = Some actor →
  lastRollIs g (tc + 1) = true →
  JsArray.get (GamePlayer.cells actor) tc = Some l →
  GameState.cellStore g !! l = Some c →
  Cell.bullets c > 0 →
  playerAt g tp = Some target →
  ∃ g' t',
    shoot g tp tc = Ok g' ∧
    GameState.cellStore g' =
      alter (fun c => Cell.set_bullets (Cell.bullets c - 1) c) l
        (GameState.cellStore g ++ [Cell.mk 0 false 0]) ∧
    GameState.lastRoll g' = GameState.lastRoll g ∧
    GameState.players g' !! Z.to_nat tp = Some t' ∧
    GamePlayer.cells t' =
      <[Z.to_nat tc := Some (length (GameState.cellStore g))]> (GamePlayer.cells target) ∧
    Stats.timesTargeted (GamePlayer.stats t') =
      Stats.timesTargeted (GamePlayer.stats target) + 1 ∧
    GamePlayer.eliminated t' = allInactive g' t' ∧
    GameState.gameLog g' =
      GameState.gameLog g ++
        LogEntry.shoot (GamePlayer.username actor) (GamePlayer.username target) (tc + 1) ::
        (if GamePlayer.eliminated t'
         then [LogEntry.eliminate (GamePlayer.username target)] else []) ∧
    (GameState.currentPlayer g = Z.to_nat tp →
       Stats.shotsFired (GamePlayer.stats t') =
         Stats.shotsFired (GamePlayer.stats target) + 1) ∧
    (∀ j q', j ≠ Z.to_nat tp → GameState.players g' !! j = Some q' →
       ∃ q, GameState.players g !! j = Some q ∧
         GamePlayer.cells q' = GamePlayer.cells q ∧
         GamePlayer.eliminated q' = GamePlayer.eliminated q ∧
         Stats.timesTargeted (GamePlayer.stats q') = Stats.timesTargeted (GamePlayer.stats q) ∧
         (j = GameState.currentPlayer g →
            Stats.shotsFired (GamePlayer.stats q') =
              Stats.shotsFired (GamePlayer.stats q) + 1)).
Proof.
  intros Hwf Ha Hroll Hl Hc Hb Ht.
  destruct (shoot_lands g tp tc actor l c target Hwf Ha Hroll Hl Hc Hb Ht)
    as (t1 & Ht1 & Hshoot).
  cbv zeta in Hshoot.
  assert (Htp : GameState.players g !! Z.to_nat tp = Some target).
  { unfold playerAt in Ht. by destruct (tp <? 0). }
  pose proof Hl as Hl'. apply JsArray_get_Some in Hl' as [Htc Hslot].
  assert (Hin : (Z.to_nat tc < length (GamePlayer.cells target))%nat).
  { destruct (wf_lookup _ _ _ Hwf Htp) as [-> _].
    destruct (wf_lookup _ _ _ Hwf Ha) as [<- _]. by eapply lookup_lt_Some. }
  set (cur := GameState.currentPlayer g) in *.
  set (g1 := landShot g cur (Z.to_nat tp) tc l
               (GamePlayer.username actor) (GamePlayer.username target)) in *.
  destruct (landShot_target g cur (Z.to_nat tp) tc l
              (GamePlayer.username actor) (GamePlayer.username target) target Htp)
    as (t1' & Ht1' & Hcells & Htimes & Hshots & Helim & Hname).
  fold g1 in Ht1'. rewrite Ht1 in Ht1'. injection Ht1' as <-.
  rewrite JsArray_set_in_range in Hcells by done.
  assert (Hactor1 : cur ≠ Z.to_nat tp → GameState.players g1 !! cur =
            Some (GamePlayer.set_stats
                    (Stats.set_shotsFired (Stats.shotsFired (GamePlayer.stats actor) + 1)
                       (GamePlayer.stats actor)) actor))
    by (intros; by apply landShot_actor).
  assert (Hother1 : ∀ j, j ≠ cur → j ≠ Z.to_nat tp →
            GameState.players g1 !! j = GameState.players g !! j)
    by (intros; by apply landShot_other).
  assert (Hstore1 : GameState.cellStore g1 =
            alter (fun c => Cell.set_bullets (Cell.bullets c - 1) c) l
              (GameState.cellStore g ++ [Cell.mk 0 false 0])) by done.
  assert (Hlog1 : GameState.gameLog g1 =
            GameState.gameLog g ++
              [LogEntry.shoot (GamePlayer.username actor) (GamePlayer.username target) (tc + 1)])
    by done.
  assert (Hlast1 : GameState.lastRoll g1 = GameState.lastRoll g) by done.
  assert (He : ∃ e, e = allInactive g1 t1) by eauto.
  destruct He as [e He]. rewrite <- He in Hshoot.
  clearbody g1 cur.
  set (bump := fun p => GamePlayer.set_stats
                 (Stats.set_eliminations (Stats.eliminations (GamePlayer.stats p) + 1)
                    (GamePlayer.stats p)) p) in *.
  assert (Hlook : ∀ j g',
            g' = (if e then pushLog (LogEntry.eliminate (GamePlayer.username target))
                              (updPlayer cur bump
                                 (updPlayer (Z.to_nat tp) (GamePlayer.set_eliminated e) g1))
                  else updPlayer (Z.to_nat tp) (GamePlayer.set_eliminated e) g1) →
            GameState.players g' !! j =
            (if decide (j = cur) then (if e then bump else (fun p => p)) else (fun p => p)) <$>
            ((if decide (j = Z.to_nat tp) then GamePlayer.set_eliminated e else (fun p => p)) <$>
             GameState.players g1 !! j)).
  { intros j g' ->. destruct e; simpl.
    all: rewrite !list_lookup_alter; repeat case_decide; try congruence; subst.
    all: match goal with |- context [GameState.players ?s !! ?i] =>
           by destruct (GameState.players s !! i) end. }
  eexists _, _. split; [exact Hshoot|].
  split; [by destruct e|]. split; [by destruct e|].
  split.
  { rewrite (Hlook _ _ eq_refl), Ht1.
    rewrite (decide_True (P := Z.to_nat tp = Z.to_nat tp)) by done. simpl. reflexivity. }
  assert (Hflag : GamePlayer.eliminated
                 ((if decide (Z.to_nat tp = cur) then if e then bump else λ p, p else λ p, p)
                    (GamePlayer.set_eliminated e t1)) = e)
    by (by destruct (decide (Z.to_nat tp = cur)), e).
  split; [by destruct (decide (Z.to_nat tp = cur)), e|].
  split; [destruct (decide (Z.to_nat tp = cur)), e; unfold bump; simpl; lia|].
  split.
  { rewrite Hflag. transitivity (allInactive g1 t1); [done|]. unfold allInactive.
    by destruct (decide (Z.to_nat tp = cur)), e. }
  split.
  { rewrite Hflag. destruct e; simpl; rewrite Hlog1, <- ?app_assoc; done. }
  split.
  { intros Heq. rewrite decide_True in Hshots by done.
    destruct (decide (Z.to_nat tp = cur)), e; unfold bump; simpl; lia. }
  intros j q' Hj Hq'. rewrite (Hlook _ _ eq_refl) in Hq'.
  rewrite (decide_False (P := j = Z.to_nat tp)) in Hq' by done.
  destruct (decide (j = cur)) as [->|Hjc].
  - rewrite Hactor1 in Hq' by done.
    exists actor. split; [done|]. destruct e; simpl in Hq'; simplify_eq; simpl;
      repeat split; try done.
  - rewrite Hother1 in Hq' by done.
    destruct (GameState.players g !! j) as [q|] eqn:Hq; [|done].
    simpl in Hq'. injection Hq' as <-. exists q. repeat split; done.
Qed.

(** ** Reachable states are well formed *)

Lemma reachable_wf g b : reachable g b → wf g.
Proof.
  induction 1 as [roster Hne|g action data r _ IH Hr].
  - by apply wf_init.
  - by eapply processGameAction_wf.
Qed.

Lemma playMoves_reachable moves : ∀ g g' b,
  reachable g false → playMoves g moves = Ok (g', b) → reachable g' b.
Proof.
  induction moves as [|[action data] rest IH]; intros g g' b Hg H; simpl in H.
  - by simplify_eq.
  - inv_bind. rename x into r, H0 into Hr.
    pose proof (reachable_action g action data r Hg Hr) as Hnext.
    destruct (ActionResult.gameEnded r) eqn:He.
    + by simplify_eq.
    + eapply IH; [|done]. done.
Qed.

Lemma cellOf_Some g p i c :
  cellOf g p i = Some c ↔
  ∃ l, JsArray.get (GamePlayer.cells p) i = Some l ∧ GameState.cellStore g !! l = Some c.
Proof.
  unfold cellOf. destruct (JsArray.get (GamePlayer.cells p) i) as [l|]; simpl.
  - split; [eauto|]. by intros (l' & [= <-] & ?).
  - split; [done|]. by intros (l' & ? & ?).
Qed.

Lemma applyAction_shoot g data :
  applyAction g "shoot" data =
    shoot g (ActionData.targetPlayer data) (ActionData.targetCell data).
Proof. done. Qed.

(** C5, as stated, does not hold when a player shoots at their own cell.
    After Alice and Bob have each rolled a 1 six times, Alice's cell 1 holds 5
    bullets and the last roll is 1.  Alice then shoots at her own cell 1: the
    shot lands, and that cell, being the target's, is reset; its bullet count
    is 0 afterwards, not 5 - 1. *)
Lemma shoot_at_own_cell_resets_it :
  ∃ g actor c r actor' c',
    loadedState = Ok (g, false) ∧
    reachable g false ∧
    GameState.players g !! GameState.currentPlayer g = Some actor ∧
    GameState.lastRoll g = Some (0 + 1) ∧
    cellOf g actor 0 = Some c ∧
    Cell.bullets c > 0 ∧
    processGameAction g "shoot" (shootData 0 0) = Ok r ∧
    GameState.players (ActionResult.gameState r) !! GameState.currentPlayer g = Some actor' ∧
    cellOf (ActionResult.gameState r) actor' 0 = Some c' ∧
    Cell.bullets c' ≠ Cell.bullets c - 1.
Proof.
  eexists _, _, _, _, _, _.
  split; [vm_compute; reflexivity|].
  split.
  { eapply (playMoves_reachable loadedMoves (initializeGameState [alice; bob])).
    - by apply reachable_init.
    - vm_compute. reflexivity. }
  split; [vm_compute; reflexivity|].
  split; [vm_compute; reflexivity|].
  split; [vm_compute; reflexivity|].
  split; [vm_compute; reflexivity|].
  split; [vm_compute; reflexivity|].
  split; [vm_compute; reflexivity|].
  split; [vm_compute; reflexivity|].
  vm_compute. discriminate.
Qed.

(** C5 (amended): on a state of the game, a shoot action with [targetCell]
    within the board changes the state only when [lastRoll] is
    [targetCell + 1] and the acting player's own cell at [targetCell] has
    bullets left; otherwise (the roll names another cell of the board, or the
    cell is there and has no bullet) players, cells, log and [lastRoll] are
    all unchanged.  When it does, the target's cell at
    [targetCell] becomes [{stage: 0, isActive: false, bullets: 0}], the
    shooter's [shotsFired] and the target's [timesTargeted] go up by 1 and a
    [shoot] entry is logged (followed by an [eliminate] entry when the target
    is eliminated); the shooter's cell at that index loses one bullet when
    the target is another player.  The state is one the engine builds
    ([wf], which holds of every reachable state); in such a state the
    shooter's cell and the target exist for all indices below the number of
    players. *)
Theorem shoot_effect g data actor :
  let tp := ActionData.targetPlayer data in
  let tc := ActionData.targetCell data in
  wf g →
  GameState.players g !! GameState.currentPlayer g = Some actor →
  (0 <= tc < Z.of_nat (length (GameState.players g)) →
   GameState.lastRoll g ≠ Some (tc + 1) →
   ∃ r, processGameAction g "shoot" data = Ok r ∧
     GameState.players (ActionResult.gameState r) = GameState.players g ∧
     GameState.cellStore (ActionResult.gameState r) = GameState.cellStore g ∧
     GameState.gameLog (ActionResult.gameState r) = GameState.gameLog g ∧
     GameState.lastRoll (ActionResult.gameState r) = GameState.lastRoll g) ∧
  ((∃ c, cellOf g actor tc = Some c ∧ Cell.bullets c <= 0) →
   ∃ r, processGameAction g "shoot" data = Ok r ∧
     GameState.players (ActionResult.gameState r) = GameState.players g ∧
     GameState.cellStore (ActionResult.gameState r) = GameState.cellStore g ∧
     GameState.gameLog (ActionResult.gameState r) = GameState.gameLog g ∧
     GameState.lastRoll (ActionResult.gameState r) = GameState.lastRoll g) ∧
  (∀ c target,
     GameState.lastRoll g = Some (tc + 1) →
     cellOf g actor tc = Some c →
     Cell.bullets c > 0 →
     playerAt g tp = Some target →
     ∃ r actor' target', processGameAction g "shoot" data = Ok r ∧
       let g' := ActionResult.gameState r in
       GameState.players g' !! GameState.currentPlayer g = Some actor' ∧
       GameState.players g' !! Z.to_nat tp = Some target' ∧
       cellOf g' target' tc = Some (Cell.mk 0 false 0) ∧
       (Z.to_nat tp ≠ GameState.currentPlayer g →
          cellOf g' actor' tc = Some (Cell.set_bullets (Cell.bullets c - 1) c)) ∧
       Stats.shotsFired (GamePlayer.stats actor') =
         Stats.shotsFired (GamePlayer.stats actor) + 1 ∧
       Stats.timesTargeted (GamePlayer.stats target') =
         Stats.timesTargeted (GamePlayer.stats target) + 1 ∧
       GameState.gameLog g' =
         GameState.gameLog g ++
           LogEntry.shoot (GamePlayer.username actor) (GamePlayer.username target) (tc + 1) ::
           (if GamePlayer.eliminated target'
            then [LogEntry.eliminate (GamePlayer.username target)] else [])) ∧
  (0 <= tc < Z.of_nat (length (GameState.players g)) → is_Some (cellOf g actor tc)) ∧
  (0 <= tp < Z.of_nat (length (GameState.players g)) → is_Some (playerAt g tp)).
Proof.
  intros tp tc Hwf Ha.
  assert (Hnoop : GameState.lastRoll g ≠ Some (tc + 1) ∨
                  (∃ c, cellOf g actor tc = Some c ∧ Cell.bullets c <= 0) →
            ∃ r, processGameAction g "shoot" data = Ok r ∧
              GameState.players (ActionResult.gameState r) = GameState.players g ∧
              GameState.cellStore (ActionResult.gameState r) = GameState.cellStore g ∧
              GameState.gameLog (ActionResult.gameState r) = GameState.gameLog g ∧
              GameState.lastRoll (ActionResult.gameState r) = GameState.lastRoll g).
  { intros Hno.
    assert (Hshoot : shoot g tp tc = Ok g).
    { unfold shoot, lastRollIs.
      destruct (GameState.lastRoll g) as [v|] eqn:Hlast; [|done].
      destruct (Z.eqb_spec v (tc + 1)) as [->|Hv]; [|done].
      destruct Hno as [Hno|(c & Hc & Hb)]; [done|].
      apply cellOf_Some in Hc as (l & Hl & Hc).
      rewrite Ha. cbn [mbind Res_bind orThrow]. rewrite Hl.
      cbn [mbind Res_bind orThrow]. unfold deref. rewrite Hc.
      cbn [mbind Res_bind orThrow].
      destruct (Z.gtb_spec (Cell.bullets c) 0); [lia|done]. }
    destruct (processGameAction_after g "shoot" data g)
      as (r & Hr & Hps & Hlog & Hlast & Hstore).
    { by rewrite applyAction_shoot. }
    { by eapply nonempty_lookup. }
    exists r. done. }
  split; [intros _ Hne; apply Hnoop; by left|].
  split; [intros Hempty; apply Hnoop; by right|].
  split; [|split].
  - intros c target Hlast Hc Hb Ht.
    apply cellOf_Some in Hc as (l & Hl & Hc).
    assert (Hroll : lastRollIs g (tc + 1) = true).
    { unfold lastRollIs. rewrite Hlast. apply Z.eqb_refl. }
    destruct (shoot_lands_state g tp tc actor l c target Hwf Ha Hroll Hl Hc Hb Ht)
      as (g' & t' & Hshoot & Hstore' & _ & Ht' & Hcells' & Htimes & _ & Hlog' & Hself & Hrest).
    pose proof (shoot_frame _ _ _ _ Hshoot) as (_ & Hlen & _).
    destruct (processGameAction_after g "shoot" data g')
      as (r & Hr & Hps & Hlog & _ & Hstore).
    { by rewrite applyAction_shoot. }
    { by eapply nonempty_lookup. }
    assert (Htp : GameState.players g !! Z.to_nat tp = Some target).
    { unfold playerAt in Ht. by destruct (tp <? 0). }
    pose proof Hl as Hl'. apply JsArray_get_Some in Hl' as [Htc Hslot].
    assert (Hin : (Z.to_nat tc < length (GamePlayer.cells target))%nat).
    { destruct (wf_lookup _ _ _ Hwf Htp) as [-> _].
      destruct (wf_lookup _ _ _ Hwf Ha) as [<- _]. by eapply lookup_lt_Some. }
    pose proof (lookup_lt_Some _ _ _ Hc) as Hlstore.
    assert (Hzero : cellOf (ActionResult.gameState r) t' tc = Some (Cell.mk 0 false 0)).
    { apply cellOf_Some. exists (length (GameState.cellStore g)). split.
      - apply JsArray_get_Some. split; [done|]. rewrite Hcells'.
        by apply list_lookup_insert_eq.
      - rewrite Hstore, Hstore'. rewrite list_lookup_alter_ne by lia.
        rewrite lookup_app_r, Nat.sub_diag by lia. done. }
    destruct (decide (Z.to_nat tp = GameState.currentPlayer g)) as [Heq|Hne].
    + exists r, t', t'. split; [done|]. cbv zeta. rewrite Hps, Hlog.
      rewrite <- Heq at 1. rewrite <- Heq in Ha. simplify_eq.
      repeat split; try done. by apply Hself.
    + assert (Hcur : is_Some (GameState.players g' !! GameState.currentPlayer g)).
      { apply lookup_lt_is_Some_2. rewrite Hlen. by eapply lookup_lt_Some. }
      destruct Hcur as [a' Ha'].
      destruct (Hrest _ _ ltac:(done) Ha') as (q & Hq & Hqc & _ & _ & Hshots).
      rewrite Ha in Hq. injection Hq as <-.
      exists r, a', t'. split; [done|]. cbv zeta. rewrite Hps, Hlog.
      repeat split; try done; [|by apply Hshots].
      intros _. apply cellOf_Some. exists l. split; [by rewrite Hqc|].
      rewrite Hstore, Hstore', list_lookup_alter_eq.
      rewrite lookup_app_l by done. by rewrite Hc.
  - intros Htc. destruct (wf_slot g actor tc (wf_lookup _ _ _ Hwf Ha) Htc)
      as (l & c & Hl & Hc).
    exists c. apply cellOf_Some. eauto.
  - intros Htp. unfold playerAt. destruct (Z.ltb_spec tp 0); [lia|].
    apply lookup_lt_is_Some_2. lia.
Qed.

Lemma shoot_effect_witness :
  (∃ r actor' target',
     processGameAction loadedGame "shoot" (shootData 1 0) = Ok r ∧
     GameState.players (ActionResult.gameState r) !! 0%nat = Some actor' ∧
     GameState.players (ActionResult.gameState r) !! 1%nat = Some target' ∧
     cellOf (ActionResult.gameState r) target' 0 = Some (Cell.mk 0 false 0) ∧
     cellOf (ActionResult.gameState r) actor' 0 = Some (Cell.mk 6 true 4) ∧
     Stats.shotsFired (GamePlayer.stats actor') = 1 ∧
     Stats.timesTargeted (GamePlayer.stats target') = 1) ∧
  (∃ r, processGameAction loadedGame "shoot" (shootData 1 1) = Ok r ∧
        GameState.players (ActionResult.gameState r) = GameState.players loadedGame ∧
        GameState.cellStore (ActionResult.gameState r) = GameState.cellStore loadedGame ∧
        GameState.gameLog (ActionResult.gameState r) = GameState.gameLog loadedGame).
Proof.
  assert (Hwf : wf loadedGame).
  { apply (reachable_wf _ false).
    apply (playMoves_reachable loadedMoves (initializeGameState [alice; bob])).
    - by apply reachable_init.
    - vm_compute. reflexivity. }
  split.
  - destruct (proj1 (proj2 (proj2 (shoot_effect loadedGame (shootData 1 0)
                       (GamePlayer.mk "s-alice" "alice" "#3B82F6" false false
                          [Some 2%nat; Some 0%nat] (Stats.mk 0 0 0))
                       Hwf ltac:(vm_compute; reflexivity))))
                (Cell.mk 6 true 5)
                (GamePlayer.mk "s-bob" "bob" "#EF4444" false false
                   [Some 3%nat; Some 1%nat] (Stats.mk 0 0 0))
                ltac:(vm_compute; reflexivity) ltac:(vm_compute; reflexivity)
                ltac:(vm_compute; reflexivity) ltac:(vm_compute; reflexivity))
      as (r & actor' & target' & Hr & Ha' & Ht' & Hzero & Hdec & Hshots & Htimes & _).
    exists r, actor', target'.
    split; [exact Hr|]. split; [exact Ha'|]. split; [exact Ht'|]. split; [exact Hzero|].
    split; [apply Hdec; vm_compute; discriminate|].
    split; [exact Hshots|exact Htimes].
  - destruct (proj1 (shoot_effect loadedGame (shootData 1 1)
                       (GamePlayer.mk "s-alice" "alice" "#3B82F6" false false
                          [Some 2%nat; Some 0%nat] (Stats.mk 0 0 0))
                       Hwf ltac:(vm_compute; reflexivity)))
      as (r & Hr & Hps & Hstore & Hlog & _).
    + vm_compute. split; [intros H; discriminate H|reflexivity].
    + vm_compute. intros H. discriminate H.
    + exists r. split; [exact Hr|]. split; [exact Hps|]. split; [exact Hstore|exact Hlog].
Defined.

(** ** Activity of cells across store updates *)

Lemma storeExt_refl s : storeExt s s.
Proof. intros l c Hc. eauto. Qed.

Lemma storeExt_trans s1 s2 s3 : storeExt s1 s2 → storeExt s2 s3 → storeExt s1 s3.
Proof.
  intros H12 H23 l c Hc. destruct (H12 l c Hc) as (c2 & Hc2 & Ha2).
  destruct (H23 l c2 Hc2) as (c3 & Hc3 & Ha3). exists c3. split; [done|congruence].
Qed.

Lemma storeExt_app s extra : storeExt s (s ++ extra).
Proof. intros l c Hc. exists c. split; [by apply lookup_app_l_Some|done]. Qed.

Lemma storeExt_alter s l f :
  (∀ c, Cell.isActive (f c) = Cell.isActive c) → storeExt s (alter f l s).
Proof.
  intros Hf l' c Hc. rewrite list_lookup_alter.
  destruct (decide (l = l')) as [->|Hne].
  - rewrite Hc. simpl. eauto.
  - eauto.
Qed.

Lemma allInactive_ext g g' p p' :
  Forall (wfSlot g) (GamePlayer.cells p) →
  storeExt (GameState.cellStore g) (GameState.cellStore g') →
  GamePlayer.cells p' = GamePlayer.cells p →
  allInactive g' p' = allInactive g p.
Proof.
  intros Hwf Hext Hcells. unfold allInactive. rewrite Hcells. clear Hcells.
  induction Hwf as [|slot cs (l & -> & Hl) _ IH]; simpl; [done|].
  apply lookup_lt_is_Some_2 in Hl as [c Hc].
  destruct (Hext l c Hc) as (c' & Hc' & Hact).
  rewrite Hc, Hc', Hact, IH. done.
Qed.

Lemma allInactive_false g p i l c :
  GamePlayer.cells p !! i = Some (Some l) →
  GameState.cellStore g !! l = Some c →
  Cell.isActive c = true →
  allInactive g p = false.
Proof.
  unfold allInactive. generalize (GamePlayer.cells p). intros cs. revert i.
  induction cs as [|slot cs IH]; intros i Hi Hc Hact; [done|].
  destruct i as [|i]; simpl in *.
  - simplify_eq. simpl. by rewrite Hc, Hact.
  - rewrite (IH i) by done. apply andb_false_r.
Qed.

(** ** Counting the players left *)

Lemma alive_alter_same f i ps :
  (∀ p, GamePlayer.eliminated (f p) = GamePlayer.eliminated p) →
  alive (alter f i ps) = alive ps.
Proof.
  intros Hf. unfold alive. revert i.
  assert (Hnf : ∀ p, notEliminated (f p) = notEliminated p)
    by (intros p; unfold notEliminated; by rewrite Hf).
  induction ps as [|p ps IH]; intros [|i]; simpl; try done.
  - rewrite Hnf. by destruct (notEliminated p).
  - specialize (IH i). unfold alter in IH. destruct (notEliminated p); simpl in *; lia.
Qed.

Lemma alive_alter_any f i ps : (alive ps ≤ S (alive (alter f i ps)))%nat.
Proof.
  unfold alive. revert i.
  induction ps as [|p ps IH]; intros [|i]; simpl; try lia.
  - destruct (notEliminated p), (notEliminated (f p)); simpl; lia.
  - specialize (IH i). unfold alter in IH. destruct (notEliminated p); simpl in *; lia.
Qed.

Lemma roll_alive g value g' :
  roll g value = Ok g' → alive (GameState.players g') = alive (GameState.players g).
Proof.
  unfold roll, allocCell. intros H.
  run_cases; rewrite ?alive_alter_same; done.
Qed.

Lemma shoot_alive g tp tc g' :
  shoot g tp tc = Ok g' →
  (alive (GameState.players g) ≤ S (alive (GameState.players g')))%nat ∧
  (GameState.lastRoll g = None → g' = g).
Proof.
  unfold shoot, lastRollIs. intros H.
  destruct (GameState.lastRoll g) as [v|]; [|simplify_eq; split; [lia|done]].
  split; [|done].
  destruct (v =? tc + 1); [|simplify_eq; lia].
  inv_bind. destruct (Cell.bullets x1 >? 0); [|simplify_eq; lia].
  inv_bind.
  set (g1 := landShot _ _ _ _ _ _ _) in *.
  assert (Hg1 : alive (GameState.players g1) = alive (GameState.players g)).
  { subst g1. unfold landShot, allocCell. simpl. by rewrite !alive_alter_same. }
  clearbody g1.
  destruct x4; simplify_eq; simpl; rewrite ?alive_alter_same by done;
    rewrite <- Hg1; apply alive_alter_any.
Qed.

Lemma applyAction_alive g action data g' :
  applyAction g action data = Ok g' →
  (alive (GameState.players g) ≤ S (alive (GameState.players g')))%nat ∧
  (GameState.lastRoll g = None →
     alive (GameState.players g') = alive (GameState.players g)).
Proof.
  unfold applyAction. intros H. repeat case_match.
  - apply roll_alive in H. rewrite H. split; [lia|done].
  - apply shoot_alive in H as [Hle Hsame]. split; [done|]. intros Hn. by rewrite Hsame.
  - apply emote_frame in H as (_ & -> & _). split; [lia|done].
  - simplify_eq. split; [lia|done].
Qed.

(** ** The players and the store after a roll *)

Lemma roll_state g value g' p :
  GameState.players g !! GameState.currentPlayer g = Some p →
  roll g value = Ok g' →
  storeExt (GameState.cellStore g) (GameState.cellStore g') ∧
  ∀ i q', GameState.players g' !! i = Some q' →
    ∃ q, GameState.players g !! i = Some q ∧
      GamePlayer.eliminated q' = GamePlayer.eliminated q ∧
      GamePlayer.stats q' = GamePlayer.stats q ∧
      (GamePlayer.cells q' = GamePlayer.cells q ∨
       (i = GameState.currentPlayer g ∧ allInactive g' q' = false)).
Proof.
  intros Hp H. unfold roll in H. simpl in H. rewrite Hp in H. simpl in H.
  destruct (GamePlayer.firstMove p && negb (value =? 1)).
  { simplify_eq. split; [apply storeExt_refl|]. intros i q' Hq'. exists q'. eauto. }
  set (cur := GameState.currentPlayer g) in *.
  set (g1 := if GamePlayer.firstMove p && (value =? 1) then _ else _) in *.
  assert (Hstore1 : GameState.cellStore g1 = GameState.cellStore g)
    by (subst g1; by destruct (GamePlayer.firstMove p && (value =? 1))).
  assert (Hps1 : ∀ i q1, GameState.players g1 !! i = Some q1 →
            ∃ q, GameState.players g !! i = Some q ∧
              GamePlayer.eliminated q1 = GamePlayer.eliminated q ∧
              GamePlayer.stats q1 = GamePlayer.stats q ∧
              GamePlayer.cells q1 = GamePlayer.cells q).
  { intros i q1 Hq1. subst g1.
    destruct (GamePlayer.firstMove p && (value =? 1)); simpl in Hq1; [|eauto].
    rewrite list_lookup_alter in Hq1.
    destruct (decide (cur = i)) as [<-|Hne]; [|eauto].
    rewrite Hp in Hq1. simpl in Hq1. simplify_eq. eauto. }
  clearbody g1. inv_bind. rename x into l, x0 into cell.
  unfold deref in H1. apply orThrow_Ok in H1. rewrite Hstore1 in H1.
  apply JsArray_get_Some in H0 as [Hv Hslot].
  destruct (Cell.isActive cell) eqn:Hact; simpl in H.
  - assert (Hplayers : GameState.players g' = GameState.players g1 ∧
              ∃ f, (∀ c, Cell.isActive (f c) = Cell.isActive c) ∧
                   GameState.cellStore g' = alter f l (GameState.cellStore g)).
    { repeat case_match; simplify_eq; simpl; rewrite ?Hstore1; split; try done.
      - exists (fun c => Cell.set_bullets 5 (Cell.set_stage (Cell.stage cell + 1) c)).
        split; [done|]. by rewrite list_alter_alter_eq.
      - exists (Cell.set_stage (Cell.stage cell + 1)). done.
      - exists (Cell.set_bullets 5). done.
      - exists (fun c => c). split; [done|]. by rewrite list_alter_id. }
    destruct Hplayers as (Hps & f & Hf & Hst).
    split; [rewrite Hst; by apply storeExt_alter|].
    intros i q' Hq'. rewrite Hps in Hq'.
    destruct (Hps1 i q' Hq') as (q & ? & ? & ? & ?). exists q. eauto.
  - unfold allocCell in H. simpl in H. simplify_eq. simpl.
    split; [rewrite Hstore1; apply storeExt_app|].
    intros i q' Hq'. rewrite list_lookup_alter in Hq'.
    destruct (decide (cur = i)) as [<-|Hne].
    + destruct (GameState.players g1 !! cur) as [q1|] eqn:Hq1; [|done].
      simpl in Hq'. simplify_eq.
      destruct (Hps1 cur q1 Hq1) as (q & Hq & He & Hs & Hc).
      exists q. repeat split; try done. right. split; [done|].
      rewrite Hp in Hq. simplify_eq.
      eapply (allInactive_false _ _ (Z.to_nat (value - 1))
                (length (GameState.cellStore g1)) (Cell.mk 1 true 0)).
      * simpl. rewrite JsArray_set_in_range; [|done|].
        -- apply list_lookup_insert_eq. rewrite Hc. by eapply lookup_lt_Some.
        -- rewrite Hc. by eapply lookup_lt_Some.
      * simpl. by rewrite lookup_app_r, Nat.sub_diag by lia.
      * done.
    + destruct (Hps1 i q' Hq') as (q & ? & ? & ? & ?). exists q. eauto.
Qed.

(** ** The invariant of the game *)

Lemma playerInv_transfer g g' q q' :
  Forall (wfSlot g) (GamePlayer.cells q) →
  storeExt (GameState.cellStore g) (GameState.cellStore g') →
  GamePlayer.cells q' = GamePlayer.cells q →
  GamePlayer.eliminated q' = GamePlayer.eliminated q →
  Stats.timesTargeted (GamePlayer.stats q') = Stats.timesTargeted (GamePlayer.stats q) →
  playerInv g q → playerInv g' q'.
Proof.
  intros Hwf Hext Hc He Ht [H0 Hq]. unfold playerInv.
  rewrite He, Ht, (allInactive_ext g g' q q') by done. done.
Qed.

Lemma applyAction_playerInv g action data g' :
  wf g →
  (∀ i p, GameState.players g !! i = Some p → playerInv g p) →
  (∃ p, GameState.players g !! GameState.currentPlayer g = Some p ∧
        GamePlayer.eliminated p = false) →
  applyAction g action data = Ok g' →
  ∀ i p', GameState.players g' !! i = Some p' → playerInv g' p'.
Proof.
  intros Hwf Hinv (actor & Ha & Hae) H. unfold applyAction in H.
  assert (Hslots : ∀ i q, GameState.players g !! i = Some q →
            Forall (wfSlot g) (GamePlayer.cells q)).
  { intros i q Hq. by destruct (wf_lookup _ _ _ Hwf Hq). }
  repeat case_match.
  - (* roll *)
    destruct (roll_state _ _ _ _ Ha H) as [Hext Hps].
    intros i p' Hp'. destruct (Hps i p' Hp') as (q & Hq & He & Hs & Hcells).
    destruct Hcells as [Hc|[-> Hfalse]].
    + eapply (playerInv_transfer g g' q); eauto. by rewrite Hs.
    + rewrite Ha in Hq. simplify_eq. destruct (Hinv _ _ Ha) as [Hnn _].
      split; [by rewrite Hs|]. by rewrite He, Hae, Hfalse.
  - (* shoot *)
    set (tp := ActionData.targetPlayer data) in *.
    set (tc := ActionData.targetCell data) in *.
    pose proof H as Hshoot. unfold shoot in H.
    destruct (lastRollIs g (tc + 1)) eqn:Hroll; [|simplify_eq; by eauto].
    rewrite Ha in H. cbn [mbind Res_bind orThrow] in H.
    destruct (JsArray.get (GamePlayer.cells actor) tc) as [l|] eqn:Hl; [|done].
    cbn [mbind Res_bind orThrow] in H. unfold deref at 1 in H.
    destruct (GameState.cellStore g !! l) as [c|] eqn:Hc; [|done].
    cbn [mbind Res_bind orThrow] in H.
    destruct (Z.gtb_spec (Cell.bullets c) 0) as [Hb|Hb]; [|simplify_eq; by eauto].
    destruct (playerAt g tp) as [target|] eqn:Ht; [|done].
    clear H.
    destruct (shoot_lands_state g tp tc actor l c target Hwf Ha Hroll Hl Hc
                ltac:(lia) Ht)
      as (g'' & t' & Hshoot' & Hstore & _ & Ht' & _ & Htimes & Helim & _ & _ & Hrest).
    rewrite Hshoot in Hshoot'. injection Hshoot' as <-.
    assert (Htp : GameState.players g !! Z.to_nat tp = Some target).
    { unfold playerAt in Ht. by destruct (tp <? 0). }
    assert (Hext : storeExt (GameState.cellStore g) (GameState.cellStore g')).
    { rewrite Hstore. eapply storeExt_trans; [apply storeExt_app|].
      by apply storeExt_alter. }
    intros i p' Hp'. destruct (decide (i = Z.to_nat tp)) as [->|Hne].
    + rewrite Ht' in Hp'. injection Hp' as <-.
      destruct (Hinv _ _ Htp) as [Hnn _]. split; [lia|].
      rewrite Helim. destruct (Z.ltb_spec 0 (Stats.timesTargeted (GamePlayer.stats t')));
        [by rewrite andb_true_r|lia].
    + destruct (Hrest i p' Hne Hp') as (q & Hq & Hcq & Heq & Htq & _).
      eapply (playerInv_transfer g g' q); eauto.
  - (* emote *)
    unfold emote in H. inv_bind. subst g'. intros i p' Hp'. simpl in Hp'.
    eapply (playerInv_transfer g _ p'); eauto using storeExt_refl.
  - simplify_eq. eauto.
Qed.

Lemma alive_member ps i p :
  ps !! i = Some p → GamePlayer.eliminated p = false → (1 ≤ alive ps)%nat.
Proof.
  intros Hp He. apply alive_pos, existsb_notEliminated. eauto.
Qed.

Lemma reachable_inv g b :
  reachable g b →
  (∀ i p, GameState.players g !! i = Some p → playerInv g p) ∧
  (b = false → turnInv g).
Proof.
  induction 1 as [roster Hne|g action data r Hreach [IHp IHt] Hr].
  - split.
    + intros i p Hp. simpl in Hp. rewrite list_lookup_imap in Hp.
      destruct (roster !! i); simplify_eq/=. split; simpl; [done|].
      by rewrite andb_false_r.
    + intros _. split; [|by right]. simpl. rewrite list_lookup_imap.
      destruct roster as [|lp roster]; [done|]. simpl. eauto.
  - specialize (IHt eq_refl). destruct IHt as [Hcur Htwo].
    pose proof (reachable_wf _ _ Hreach) as Hwf.
    unfold processGameAction in Hr. inv_bind. rename x into g', H into Happ.
    pose proof (applyAction_playerInv _ _ _ _ Hwf IHp Hcur Happ) as Hinv'.
    pose proof (applyAction_alive _ _ _ _ Happ) as [Hle Hsame].
    apply endOfAction_spec in Hr as (Hps & _ & _ & Hstore & Hend & _ & Hnext).
    split.
    + intros i p Hp. rewrite Hps in Hp.
      destruct (Hinv' i p Hp) as [H0 He]. split; [done|].
      rewrite He. unfold allInactive. by rewrite Hstore.
    + intros Hb. specialize (Hnext Hb).
      assert (Hn1 : alive (GameState.players g') ≠ 1%nat).
      { intros H1. apply Hend in H1. congruence. }
      assert (Hge : (2 ≤ alive (GameState.players g'))%nat).
      { destruct Hcur as (p & Hp & Hpe). pose proof (alive_member _ _ _ Hp Hpe).
        destruct Htwo as [Htwo|Hnone]; [lia|]. rewrite <- Hsame in H by done. lia. }
      destruct Hnext as (k & _ & _ & _ & q & Hq & Hqe).
      split; [|left; by rewrite Hps].
      exists q. rewrite Hps. split; [done|].
      destruct (GamePlayer.eliminated q); [|done].
      destruct Hqe as [Hz _]; [done|]. lia.
Qed.

(** C4, as stated, does not hold at the start of a game: every cell of a
    freshly created player is inactive, and the player is not eliminated. *)
Lemma fresh_player_is_not_eliminated :
  reachable (initializeGameState [alice; bob]) false ∧
  ¬ ∀ i p, GameState.players (initializeGameState [alice; bob]) !! i = Some p →
           GamePlayer.eliminated p = allInactive (initializeGameState [alice; bob]) p.
Proof.
  split; [by apply reachable_init|].
  intros H. specialize (H 0%nat (initPlayer 2 0 alice) eq_refl). vm_compute in H. done.
Qed.

(** C4 (amended): in every state of a game, from the freshly initialized one
    up to the one in which the game ends, each player has one cell per player,
    and a player's [eliminated] flag is true exactly when all of the player's
    cells are inactive and at least one shot has been aimed at the player
    ([timesTargeted > 0]).  So an eliminated player has no active cell, and
    a player who has never been shot at is not eliminated, active cells or
    not. *)
Theorem eliminated_iff_inactive_and_targeted g ended i p :
  reachable g ended →
  GameState.players g !! i = Some p →
  length (GamePlayer.cells p) = length (GameState.players g) ∧
  (∀ k, (k < length (GameState.players g))%nat →
     is_Some (cellOf g p (Z.of_nat k))) ∧
  GamePlayer.eliminated p =
    allInactive g p && (0 <? Stats.timesTargeted (GamePlayer.stats p)).
Proof.
  intros Hreach Hp.
  pose proof (reachable_wf _ _ Hreach) as Hwf.
  pose proof (wf_lookup _ _ _ Hwf Hp) as Hwp.
  split; [by destruct Hwp|]. split.
  - intros k Hk. destruct (wf_slot g p (Z.of_nat k) Hwp ltac:(lia)) as (l & c & Hl & Hc).
    exists c. apply cellOf_Some. eauto.
  - by destruct (proj1 (reachable_inv _ _ Hreach) i p Hp).
Qed.

Lemma eliminated_iff_inactive_and_targeted_witness :
  GamePlayer.eliminated (initPlayer 2 1 bob) =
    allInactive (initializeGameState [alice; bob]) (initPlayer 2 1 bob) &&
    (0 <? Stats.timesTargeted (GamePlayer.stats (initPlayer 2 1 bob))).
Proof.
  apply (eliminated_iff_inactive_and_targeted
           (initializeGameState [alice; bob]) false 1%nat (initPlayer 2 1 bob)).
  - apply reachable_init. discriminate.
  - reflexivity.
Defined.

(** C7: an action that is processed returns [gameEnded = true] exactly when
    one player is left with [eliminated = false]; in that case
    [currentPlayer] is the one the action started with; otherwise
    [currentPlayer] has moved cyclically past eliminated players to the next
    one that is not eliminated, and so stands on a non-eliminated player
    whenever at least two remain, which in a game is whenever the game has
    not ended.  On a well-formed state every action with a payload in range
    is processed. *)
Theorem game_end_and_turn_advance g action data :
  (wf g → validAction g action data → ∃ r, processGameAction g action data = Ok r) ∧
  ∀ r, processGameAction g action data = Ok r →
    let ps := GameState.players (ActionResult.gameState r) in
    (ActionResult.gameEnded r = true ↔ alive ps = 1%nat) ∧
    (ActionResult.gameEnded r = true →
       GameState.currentPlayer (ActionResult.gameState r) = GameState.currentPlayer g) ∧
    (ActionResult.gameEnded r = false →
       nextInTurn ps (GameState.currentPlayer g)
         (GameState.currentPlayer (ActionResult.gameState r))) ∧
    (ActionResult.gameEnded r = false → (2 ≤ alive ps)%nat →
       ∃ q, ps !! GameState.currentPlayer (ActionResult.gameState r) = Some q ∧
            GamePlayer.eliminated q = false) ∧
    (reachable g false → ActionResult.gameEnded r = false → (2 ≤ alive ps)%nat).
Proof.
  split; [apply processGameAction_total|].
  intros r Hr ps. pose proof Hr as H.
  unfold processGameAction in H. inv_bind. rename x into g'.
  apply applyAction_frame in H0 as [Hcur _].
  apply endOfAction_spec in H as (Hps & _ & _ & _ & Hend & Hsame & Hnext).
  subst ps. rewrite Hps, <- Hcur.
  split; [exact Hend|].
  split; [intros He; by rewrite Hsame|].
  split; [done|].
  split.
  - intros He Htwo. destruct (Hnext He) as (k & _ & _ & _ & q & Hq & Hqe).
    exists q. split; [done|]. destruct (GamePlayer.eliminated q); [|done].
    destruct Hqe as [Hz _]; [done|]. lia.
  - intros Hreach He.
    pose proof (reachable_action g action data r Hreach Hr) as Hreach'.
    rewrite He in Hreach'.
    destruct (proj2 (reachable_inv _ _ Hreach') eq_refl) as [(q & Hq & Hqe) _].
    pose proof (alive_member _ _ _ Hq Hqe) as Hone. rewrite Hps in Hone.
    assert (alive (GameState.players g') ≠ 1%nat).
    { intros H1. apply Hend in H1. congruence. }
    lia.
Qed.

Lemma game_end_and_turn_advance_witness :
  ∃ r, processGameAction (initializeGameState [alice; bob]) "roll" (rollData 1) = Ok r ∧
       (ActionResult.gameEnded r = true ↔
          alive (GameState.players (ActionResult.gameState r)) = 1%nat) ∧
       ∃ q, GameState.players (ActionResult.gameState r)
              !! GameState.currentPlayer (ActionResult.gameState r) = Some q ∧
            GamePlayer.eliminated q = false.
Proof.
  eexists. split; [vm_compute; reflexivity|].
  destruct (proj2 (game_end_and_turn_advance (initializeGameState [alice; bob])
                     "roll" (rollData 1)) _ ltac:(vm_compute; reflexivity))
    as (Hend & _ & _ & Hlands & Htwo).
  split; [exact Hend|].
  apply Hlands; [vm_compute; reflexivity|].
  apply Htwo; [apply reachable_init; discriminate|vm_compute; reflexivity].
Defined.

(** ** The history record *)

(** Whatever the game, no entry of [history.eliminations] names an
    eliminator: the entries are built from the [eliminate] log entries, and
    those have no [shooter] property. *)
Lemma history_eliminator_undefined g action data r h e :
  processGameAction g action data = Ok r →
  ActionResult.history r = Some h →
  e ∈ History.eliminations h →
  Elimination.eliminator e = None.
Proof.
  intros Hr Hh He. unfold processGameAction in Hr. inv_bind.
  apply endOfAction_inv in Hr as [(_ & _ & _ & w & _ & Hw)|(_ & _ & Hnone & _)];
    [|congruence].
  rewrite Hw in Hh. injection Hh as <-. simpl in He.
  apply list_elem_of_fmap in He as (log & -> & Hlog).
  apply list_elem_of_filter in Hlog as [Htype _].
  by destruct log.
Qed.

(** C3 at a concrete game: Alice has loaded her cell 1, Bob has no active
    cell, the last roll is 1.  Alice shoots Bob's cell 1; Bob is eliminated
    and the game ends with Alice as winner.  The history names Bob as
    eliminated, but its [eliminator] is undefined instead of "alice". *)
Lemma history_lacks_the_eliminator :
  ∃ g r h,
    duelState = Ok (g, false) ∧
    processGameAction g "shoot" (shootData 1 0) = Ok r ∧
    ActionResult.gameEnded r = true ∧
    ActionResult.history r = Some h ∧
    History.winner h = "alice" ∧
    History.eliminations h = [Elimination.mk None (Some "bob")] ∧
    History.playerStats h !! "alice" = Some (Stats.mk 1 1 0) ∧
    History.playerStats h !! "bob" = Some (Stats.mk 0 0 1) ∧
    last (GameState.gameLog (ActionResult.gameState r)) = Some (LogEntry.eliminate "bob") ∧
    GameState.gameLog (ActionResult.gameState r) !! 8%nat = Some (LogEntry.shoot "alice" "bob" 1).
Proof.
  eexists _, _, _.
  split; [vm_compute; reflexivity|].
  split; [vm_compute; reflexivity|].
  split; [reflexivity|].
  split; [reflexivity|].
  repeat split; vm_compute; reflexivity.
Qed.

(** ** The room directory *)

Lemma mapGet_mapSet_eq k v m : mapGet k (mapSet k v m) = Some v.
Proof.
  unfold mapGet. induction m as [|[k' v'] m IH]; simpl.
  - by rewrite String.eqb_refl.
  - destruct (String.eqb_spec k' k) as [->|Hne]; simpl.
    + by rewrite String.eqb_refl.
    + apply String.eqb_neq in Hne. by rewrite Hne.
Qed.

Lemma mapGet_elem k m r : mapGet k m = Some r → (k, r) ∈ m.
Proof.
  unfold mapGet. induction m as [|[k' v'] m IH]; simpl; [done|].
  destruct (String.eqb_spec k' k) as [->|Hne]; simpl.
  - intros [= ->]. apply list_elem_of_here.
  - intros H. apply list_elem_of_further. by apply IH.
Qed.

Lemma roomsInv_elem rooms k r : roomsInv rooms → (k, r) ∈ rooms → quickHasNoPassword r.
Proof. unfold roomsInv. rewrite Forall_forall. intros H Hin. by apply (H (k, r)). Qed.

Lemma roomsInv_mapSet k v rooms :
  quickHasNoPassword v → roomsInv rooms → roomsInv (mapSet k v rooms).
Proof.
  intros Hv. unfold roomsInv. induction 1 as [|[k' v'] m Hx Hm IH]; simpl.
  - by repeat constructor.
  - destruct (String.eqb k' k); constructor; done.
Qed.

Lemma roomsInv_mapDelete k rooms : roomsInv rooms → roomsInv (mapDelete k rooms).
Proof.
  unfold roomsInv, mapDelete. induction 1 as [|[k' v'] m Hx Hm IH]; simpl; [done|].
  destruct (negb (String.eqb k' k)); [constructor|]; done.
Qed.

(** ** joinRoom *)

(** C8: a join request fails with [RoomNotFound] when no room has the code;
    with [InvalidPassword] when the room has a password set and the supplied
    one differs; with [RoomFull] when the roster has reached [maxPlayers];
    with [GameAlreadyStarted] when the room has started.  The checks are made
    in this order.  A failure is one [error] push to the requester and leaves
    the directory as it was.  Otherwise the requester is appended to the
    roster, neither leader nor ready, and the room, without its password, is
    broadcast to the room. *)
Theorem joinRoom_outcomes socketId roomId password username rooms :
  (mapGet roomId rooms = None →
     onJoinRoom socketId roomId password username rooms =
       joinFails socketId RoomNotFound rooms) ∧
  (∀ room, mapGet roomId rooms = Some room →
     let wrongPassword := truthy (Room.password room) = true ∧ Room.password room ≠ password in
     let full := Z.of_nat (length (Room.players room)) >= Room.maxPlayers room in
     (wrongPassword →
        onJoinRoom socketId roomId password username rooms =
          joinFails socketId InvalidPassword rooms) ∧
     (¬ wrongPassword → full →
        onJoinRoom socketId roomId password username rooms =
          joinFails socketId RoomFull rooms) ∧
     (¬ wrongPassword → ¬ full → Room.started room = true →
        onJoinRoom socketId roomId password username rooms =
          joinFails socketId GameAlreadyStarted rooms) ∧
     (¬ wrongPassword → ¬ full → Room.started room = false →
        let room' := Room.set_players
                       (Room.players room ++ [joiner socketId username room]) room in
        onJoinRoom socketId roomId password username rooms =
          (mapSet roomId room' rooms,
           [SocketJoin socketId roomId;
            Broadcast roomId (playerJoined (stripPassword room'))]) ∧
        mapGet roomId (mapSet roomId room' rooms) = Some room' ∧
        LobbyPlayer.isLeader (joiner socketId username room) = false ∧
        LobbyPlayer.ready (joiner socketId username room) = false)).
Proof.
  split.
  - intros Hnone. unfold onJoinRoom. by rewrite Hnone.
  - intros room Hroom wrongPassword full. unfold onJoinRoom. rewrite Hroom.
    assert (Hpw : truthy (Room.password room) &&
                  negb (bool_decide (Room.password room = password)) = true ↔ wrongPassword).
    { subst wrongPassword. rewrite andb_true_iff, negb_true_iff, bool_decide_eq_false. done. }
    assert (Hfull : (Z.of_nat (length (Room.players room)) >=? Room.maxPlayers room) = true
                    ↔ full).
    { subst full. rewrite Z.geb_le. lia. }
    destruct (truthy (Room.password room) &&
              negb (bool_decide (Room.password room = password))).
    { split; [done|].
      split; [intros Hn; destruct Hn; by apply Hpw|].
      split; intros Hn; destruct Hn; by apply Hpw. }
    assert (Hok : wrongPassword → False) by (intros Hw; by apply Hpw in Hw).
    destruct (Z.of_nat (length (Room.players room)) >=? Room.maxPlayers room).
    { split; [intros Hw; by destruct (Hok Hw)|].
      split; [done|].
      split; intros _ Hn; destruct Hn; by apply Hfull. }
    assert (Hroomy : full → False) by (intros Hf; by apply Hfull in Hf).
    destruct (Room.started room).
    { split; [intros Hw; by destruct (Hok Hw)|].
      split; [intros _ Hf; by destruct (Hroomy Hf)|].
      split; [done|]. intros _ _ Hs. discriminate. }
    split; [intros Hw; by destruct (Hok Hw)|].
    split; [intros _ Hf; by destruct (Hroomy Hf)|].
    split; [intros _ _ Hs; discriminate|].
    intros _ _ _. cbv zeta.
    split; [done|]. split; [apply mapGet_mapSet_eq|done].
Qed.

Lemma joinRoom_outcomes_witness :
  onJoinRoom "s-bob" "123456" (PwString "secret") "bob" aliceAlone =
    (mapSet "123456"
       (Room.mk "123456" "s-alice" (PwString "secret") 4 false
          [LobbyPlayer.mk "s-alice" "alice" true true "#3B82F6";
           LobbyPlayer.mk "s-bob" "bob" false false "#EF4444"] None false)
       aliceAlone,
     [SocketJoin "s-bob" "123456";
      Broadcast "123456"
        (playerJoined
           (Room.mk "123456" "s-alice" PwUndefined 4 false
              [LobbyPlayer.mk "s-alice" "alice" true true "#3B82F6";
               LobbyPlayer.mk "s-bob" "bob" false false "#EF4444"] None false))]) ∧
  onJoinRoom "s-bob" "123456" (PwString "guess") "bob" aliceAlone =
    joinFails "s-bob" InvalidPassword aliceAlone ∧
  onJoinRoom "s-bob" "654321" PwUndefined "bob" aliceAlone =
    joinFails "s-bob" RoomNotFound aliceAlone.
Proof.
  split; [|split].
  - destruct (proj2 (joinRoom_outcomes "s-bob" "123456" (PwString "secret") "bob" aliceAlone)
                _ eq_refl) as (_ & _ & _ & Hjoin).
    destruct Hjoin as [Hjoin _].
    + intros [_ Hne]. by apply Hne.
    + vm_compute. by intros H.
    + reflexivity.
    + exact Hjoin.
  - destruct (proj2 (joinRoom_outcomes "s-bob" "123456" (PwString "guess") "bob" aliceAlone)
                _ eq_refl) as (Hwrong & _).
    apply Hwrong. split; [reflexivity|discriminate].
  - apply (proj1 (joinRoom_outcomes "s-bob" "654321" PwUndefined "bob" aliceAlone)).
    reflexivity.
Defined.

(** ** createRoom and startGame *)

(** C10: the room that [createRoom] makes holds one player, the creator, who
    is leader and already ready; a [startGame] from the creator, alone in the
    room, therefore starts the game at once.  A player added by [joinRoom]
    starts with [ready = false]: a join that passes the checks of the room is
    admitted, appends the joiner with [ready = false], and a [startGame] from
    the leader then does nothing. *)
Theorem creator_starts_alone draws rooms socketId maxPlayers password username roomId :
  generateRoomId draws rooms = Ok roomId →
  ∃ rooms1 room,
    onCreateRoom draws socketId maxPlayers password username rooms =
      Ok (rooms1, [SocketJoin socketId roomId;
                   SocketEmit socketId (roomCreated (stripPassword room))]) ∧
    mapGet roomId rooms1 = Some room ∧
    Room.players room = [LobbyPlayer.mk socketId username true true (playerColor 0)] ∧
    Room.leader room = socketId ∧
    Room.started room = false ∧
    (let gs := initializeGameState (Room.players room) in
     let started := Room.set_gameState (Some gs) (Room.set_started true room) in
     onStartGame socketId roomId rooms1 =
       (mapSet roomId started rooms1, [Broadcast roomId (gameStarted gs)]) ∧
     mapGet roomId (mapSet roomId started rooms1) = Some started ∧
     Room.started started = true) ∧
    (∀ socketId' password' username' rooms2 room2,
       mapGet roomId rooms2 = Some room2 →
       SocketJoin socketId' roomId ∈
         (onJoinRoom socketId' roomId password' username' rooms2).2 →
       ∃ room3 p,
         mapGet roomId (onJoinRoom socketId' roomId password' username' rooms2).1 = Some room3 ∧
         Room.players room3 = Room.players room2 ++ [p] ∧
         LobbyPlayer.id p = socketId' ∧
         LobbyPlayer.ready p = false) ∧
    (∀ socketId' password' username' rooms2 room2,
       mapGet roomId rooms2 = Some room2 →
       ¬ (truthy (Room.password room2) = true ∧ Room.password room2 ≠ password') →
       Z.of_nat (length (Room.players room2)) < Room.maxPlayers room2 →
       Room.started room2 = false →
       ∃ room3 p,
         onJoinRoom socketId' roomId password' username' rooms2 =
           (mapSet roomId room3 rooms2,
            [SocketJoin socketId' roomId;
             Broadcast roomId (playerJoined (stripPassword room3))]) ∧
         mapGet roomId (mapSet roomId room3 rooms2) = Some room3 ∧
         Room.players room3 = Room.players room2 ++ [p] ∧
         LobbyPlayer.id p = socketId' ∧
         LobbyPlayer.username p = username' ∧
         LobbyPlayer.ready p = false ∧
         onStartGame (Room.leader room3) roomId (mapSet roomId room3 rooms2) =
           (mapSet roomId room3 rooms2, [])).
Proof.
  intros Hid. unfold onCreateRoom. rewrite Hid. simpl.
  eexists _, _. split; [reflexivity|].
  split; [apply mapGet_mapSet_eq|].
  do 3 (split; [reflexivity|]).
  split.
  - unfold onStartGame. rewrite mapGet_mapSet_eq. simpl.
    rewrite String.eqb_refl. simpl.
    split; [reflexivity|]. split; [apply mapGet_mapSet_eq|reflexivity].
  - split.
    + intros socketId' password' username' rooms2 room2 Hroom2.
      unfold onJoinRoom. rewrite Hroom2.
      repeat case_match; simpl; intros Hin.
      1-3: apply list_elem_of_singleton in Hin; discriminate.
      eexists _, _. split; [apply mapGet_mapSet_eq|]. simpl. done.
    + intros socketId' password' username' rooms2 room2 Hroom2 Hpw Hspace Hns.
      unfold onJoinRoom. rewrite Hroom2.
      assert (truthy (Room.password room2) &&
              negb (bool_decide (Room.password room2 = password')) = false) as ->.
      { destruct (truthy (Room.password room2)) eqn:Ht; [|done]. simpl.
        destruct (decide (Room.password room2 = password')) as [Heq|Hne].
        - by rewrite bool_decide_eq_true_2.
        - exfalso. by apply Hpw. }
      destruct (Z.geb_spec (Z.of_nat (length (Room.players room2))) (Room.maxPlayers room2))
        as [|_]; [lia|].
      rewrite Hns.
      eexists _, _. split; [reflexivity|].
      split; [apply mapGet_mapSet_eq|].
      split; [reflexivity|]. split; [reflexivity|]. split; [reflexivity|].
      split; [reflexivity|].
      unfold onStartGame. rewrite mapGet_mapSet_eq. simpl.
      rewrite String.eqb_refl. simpl.
      rewrite forallb_app. simpl. by rewrite andb_false_r.
Qed.

Lemma creator_starts_alone_witness :
  ∃ rooms1 room room3 p,
    onCreateRoom ["123456"] "s-alice" 4 (PwString "secret") "alice" [] =
      Ok (rooms1, [SocketJoin "s-alice" "123456";
                   SocketEmit "s-alice" (roomCreated (stripPassword room))]) ∧
    mapGet "123456" rooms1 = Some room ∧
    Room.players room = [LobbyPlayer.mk "s-alice" "alice" true true "#3B82F6"] ∧
    (onStartGame "s-alice" "123456" rooms1).2 =
      [Broadcast "123456" (gameStarted (initializeGameState (Room.players room)))] ∧
    onJoinRoom "s-bob" "123456" (PwString "secret") "bob" rooms1 =
      (mapSet "123456" room3 rooms1,
       [SocketJoin "s-bob" "123456";
        Broadcast "123456" (playerJoined (stripPassword room3))]) ∧
    Room.players room3 = Room.players room ++ [p] ∧
    LobbyPlayer.id p = "s-bob" ∧
    LobbyPlayer.ready p = false ∧
    onStartGame "s-alice" "123456" (mapSet "123456" room3 rooms1) =
      (mapSet "123456" room3 rooms1, []).
Proof.
  destruct (creator_starts_alone ["123456"] [] "s-alice" 4 (PwString "secret") "alice" "123456"
              eq_refl)
    as (rooms1 & room & Hcreate & Hget & Hplayers & Hleader & Hns & Hstart & _ & Hjoin).
  assert (Hrooms1 : rooms1 = aliceAlone).
  { vm_compute in Hcreate. injection Hcreate as Hcreate _. rewrite <- Hcreate.
    vm_compute. reflexivity. }
  assert (Hroom : Room.password room = PwString "secret" ∧ Room.maxPlayers room = 4).
  { rewrite Hrooms1 in Hget. vm_compute in Hget. injection Hget as <-.
    split; reflexivity. }
  destruct Hroom as [Hpw Hmax].
  destruct (Hjoin "s-bob" (PwString "secret") "bob" rooms1 room Hget)
    as (room3 & p & Hj & Hget3 & Hps3 & Hid & _ & Hready & Hrefused).
  - rewrite Hpw. intros [_ Hne]. by apply Hne.
  - rewrite Hplayers, Hmax. simpl. lia.
  - exact Hns.
  - exists rooms1, room, room3, p. destruct Hstart as [Hstart _].
    split; [exact Hcreate|]. split; [exact Hget|]. split; [exact Hplayers|].
    split; [rewrite Hstart; reflexivity|].
    split; [exact Hj|]. split; [exact Hps3|]. split; [exact Hid|].
    split; [exact Hready|].
    assert (Room.leader room3 = "s-alice") as Hl3.
    { unfold onJoinRoom in Hj. rewrite Hget in Hj.
      repeat case_match; try discriminate Hj.
      injection Hj as Hj. apply (f_equal (mapGet "123456")) in Hj.
      rewrite !mapGet_mapSet_eq in Hj. injection Hj as <-. exact Hleader. }
    rewrite <- Hl3. exact Hrefused.
Defined.

(** ** disconnect *)

(** C2 on the code: the [disconnect] handler only emits an event named
    [leaveRoom] on the closing socket; the directory is what it was.  With
    Alice alone in her room, [leaveRoom] deletes the room and broadcasts
    [playerLeft], whereas [disconnect] leaves the room, with Alice in its
    roster, in the directory. *)
Lemma disconnect_keeps_the_roster :
  (∀ draws socketId rooms,
     handle draws socketId disconnect rooms =
       Ok (rooms, [SocketEmit socketId leaveRoomMsg])) ∧
  handle [] "s-alice" leaveRoom aliceAlone =
    Ok ([], [SocketLeave "s-alice" "123456";
             Broadcast "123456"
               (playerLeft
                  (Room.mk "123456" "s-alice" PwUndefined 4 false [] None false)
                  "alice")]) ∧
  handle [] "s-alice" disconnect aliceAlone =
    Ok (aliceAlone, [SocketEmit "s-alice" leaveRoomMsg]).
Proof. repeat split. Qed.

(** ** Passwords never leave the server *)

Lemma omitsPassword_no_room e :
  (∀ m, effectMsg e = Some m → roomPayload m = None) → omitsPassword e.
Proof. intros H m r Hm Hr. rewrite (H m Hm) in Hr. done. Qed.

Lemma list_find_elem {A} (P : A → Prop) `{∀ x, Decision (P x)} (l : list A) i x :
  list_find P l = Some (i, x) → x ∈ l ∧ P x.
Proof.
  intros Hf. apply list_find_Some in Hf as (Hi & Hx & _).
  split; [by eapply list_elem_of_lookup_2|done].
Qed.

(** A room that was changed in place, or just made, is still without a
    password if it is a quick-match room. *)
Ltac keep_quick :=
  unfold quickHasNoPassword in *; simpl in *;
  first [ done | by auto | intros; discriminate ].

(** Closes a goal [omitsPassword e]: the call carries no message, or a
    message without a room, or a stripped room, or a room known to have no
    password. *)
Ltac omits :=
  first [ apply omitsPassword_no_room; by intros ? [= <-]
        | by apply omitsPassword_no_room
        | by intros ? ? [= <-] [= <-] ].

(** One pass of the [leaveRoom] loop keeps the invariant and only adds
    stripped payloads. *)
Lemma leaveStep_inv socketId rooms effects entry :
  quickHasNoPassword entry.2 →
  roomsInv rooms → Forall omitsPassword effects →
  roomsInv (leaveStep socketId (rooms, effects) entry).1 ∧
  Forall omitsPassword (leaveStep socketId (rooms, effects) entry).2.
Proof.
  intros Hentry Hrooms Heffects. destruct entry as [roomId room]. simpl in *.
  destruct (list_find (hasId socketId) (Room.players room)) as [[i player]|]; [|done].
  destruct (delete i (Room.players room)) as [|first others] eqn:Hdel; simpl.
  - split; [by apply roomsInv_mapDelete|].
    apply Forall_app. split; [done|].
    repeat constructor; omits.
  - destruct (String.eqb (Room.leader room) socketId); simpl.
    + split; [apply roomsInv_mapSet; [keep_quick|done]|].
      apply Forall_app. split; [done|]. repeat constructor; omits.
    + split; [apply roomsInv_mapSet; [keep_quick|done]|].
      apply Forall_app. split; [done|]. repeat constructor; omits.
Qed.

Lemma leaveRoom_inv socketId entries : ∀ rooms effects,
  Forall (fun e => quickHasNoPassword e.2) entries →
  roomsInv rooms → Forall omitsPassword effects →
  roomsInv (foldl (leaveStep socketId) (rooms, effects) entries).1 ∧
  Forall omitsPassword (foldl (leaveStep socketId) (rooms, effects) entries).2.
Proof.
  induction entries as [|entry entries IH]; intros rooms effects Hentries Hrooms Heffects;
    cbn [foldl]; [done|].
  apply Forall_cons in Hentries as [Hentry Hentries].
  destruct (leaveStep_inv socketId rooms effects entry Hentry Hrooms Heffects) as [H1 H2].
  destruct (leaveStep socketId (rooms, effects) entry) as [rooms1 effects1].
  by apply IH.
Qed.

(** Every handler keeps the invariant of the directory, and none of its
    calls carries a room with a password. *)
Lemma handle_inv draws socketId ev rooms rooms' effects :
  roomsInv rooms →
  handle draws socketId ev rooms = Ok (rooms', effects) →
  roomsInv rooms' ∧ Forall omitsPassword effects.
Proof.
  intros Hinv H. destruct ev; simpl in H.
  - (* quickMatch *)
    unfold findOrCreateQuickMatch in H.
    destruct (list_find quickMatchOpen rooms) as [[i [roomId room]]|] eqn:Hfind.
    + apply list_find_elem in Hfind as [Hin Hopen].
      pose proof (roomsInv_elem _ _ _ Hinv Hin) as Hq.
      destruct Hopen as (Hquick & _ & _). simpl in Hquick. specialize (Hq Hquick).
      case_match; simplify_eq;
        (split; [apply roomsInv_mapSet; [keep_quick|done]|]);
        repeat constructor; omits.
    + inv_bind. simplify_eq.
      split; [apply roomsInv_mapSet; [keep_quick|done]|].
      repeat constructor; omits.
  - (* createRoom *)
    unfold onCreateRoom in H. inv_bind. simplify_eq.
    split; [apply roomsInv_mapSet; [keep_quick|done]|].
    repeat constructor; omits.
  - (* joinRoom *)
    unfold onJoinRoom in H.
    destruct (mapGet roomId rooms) as [room|] eqn:Hroom.
    + pose proof (roomsInv_elem _ _ _ Hinv (mapGet_elem _ _ _ Hroom)) as Hq.
      repeat case_match; simplify_eq;
        (split; [first [done | apply roomsInv_mapSet; [keep_quick|done]]|]);
        repeat constructor; omits.
    + simplify_eq. split; [done|]. repeat constructor; omits.
  - (* toggleReady *)
    unfold onToggleReady in H.
    destruct (mapGet roomId rooms) as [room|] eqn:Hroom; [|by simplify_eq].
    pose proof (roomsInv_elem _ _ _ Hinv (mapGet_elem _ _ _ Hroom)) as Hq.
    destruct (list_find _ _) as [[i player]|]; simplify_eq; [|done].
    split; [apply roomsInv_mapSet; [keep_quick|done]|].
    repeat constructor; omits.
  - (* startGame *)
    unfold onStartGame in H.
    destruct (mapGet roomId rooms) as [room|] eqn:Hroom; [|by simplify_eq].
    pose proof (roomsInv_elem _ _ _ Hinv (mapGet_elem _ _ _ Hroom)) as Hq.
    repeat case_match; simplify_eq; try done.
    split; [apply roomsInv_mapSet; [keep_quick|done]|].
    repeat constructor; omits.
  - (* gameAction *)
    unfold onGameAction in H.
    destruct (mapGet roomId rooms) as [room|] eqn:Hroom; [|by simplify_eq].
    pose proof (roomsInv_elem _ _ _ Hinv (mapGet_elem _ _ _ Hroom)) as Hq.
    destruct (negb (Room.started room)); [by simplify_eq|].
    inv_bind. destruct (negb (String.eqb (GamePlayer.id x0) socketId)); [by simplify_eq|].
    inv_bind. simplify_eq.
    split; [apply roomsInv_mapSet; [keep_quick|done]|].
    destruct (ActionResult.gameEnded x1); repeat constructor; omits.
  - (* sendEmote *)
    unfold onSendEmote in H.
    destruct (mapGet roomId rooms) as [room|]; [|by simplify_eq].
    destruct (list_find _ _) as [[i player]|]; simplify_eq; [|done].
    split; [done|]. repeat constructor; omits.
  - (* leaveRoom *)
    injection H as Hleave. unfold onLeaveRoom in Hleave.
    destruct (leaveRoom_inv socketId rooms rooms [] Hinv Hinv ltac:(constructor)) as [H2 H3].
    by rewrite Hleave in H2, H3.
  - (* disconnect *)
    simplify_eq. split; [done|]. repeat constructor; omits.
Qed.

Lemma reachableRooms_inv rooms : reachableRooms rooms → roomsInv rooms.
Proof.
  induction 1 as [|rooms draws socketId ev rooms' effects _ IH H].
  - constructor.
  - by destruct (handle_inv _ _ _ _ _ _ IH H).
Qed.

(** C9: whatever state the server has reached and whatever event it
    handles, a push that carries a room carries it without a password.  This
    includes the [playerJoined] and [roomCreated] pushes of quick match, which
    send the room object as it is: a quick-match room never has a password. *)
Theorem room_payloads_omit_password rooms draws socketId ev rooms' effects e m r :
  reachableRooms rooms →
  handle draws socketId ev rooms = Ok (rooms', effects) →
  e ∈ effects →
  effectMsg e = Some m →
  roomPayload m = Some r →
  Room.password r = PwUndefined.
Proof.
  intros Hreach H Hin Hm Hr.
  destruct (handle_inv _ _ _ _ _ _ (reachableRooms_inv _ Hreach) H) as [_ Hall].
  rewrite Forall_forall in Hall. by apply (Hall e Hin m r).
Qed.

Lemma room_payloads_omit_password_witness :
  reachableRooms aliceAlone ∧
  ∃ rooms' r,
    handle [] "s-bob" (joinRoom "123456" (PwString "secret") "bob") aliceAlone =
      Ok (rooms', [SocketJoin "s-bob" "123456"; Broadcast "123456" (playerJoined r)]) ∧
    Room.players r = [LobbyPlayer.mk "s-alice" "alice" true true "#3B82F6";
                      LobbyPlayer.mk "s-bob" "bob" false false "#EF4444"] ∧
    Room.password r = PwUndefined.
Proof.
  assert (Hreach : reachableRooms aliceAlone).
  { eapply (reachable_handle [] ["123456"] "s-alice"
              (createRoom 4 (PwString "secret") "alice"));
      [apply reachable_start|reflexivity]. }
  split; [exact Hreach|].
  eexists _, _. split; [reflexivity|]. split; [reflexivity|].
  eapply (room_payloads_omit_password aliceAlone [] "s-bob"
            (joinRoom "123456" (PwString "secret") "bob")).
  - exact Hreach.
  - reflexivity.
  - apply list_elem_of_further, list_elem_of_here.
  - reflexivity.
  - reflexivity.
Defined.

(** * Further properties of the engine *)

(** ** Relations that every update of a player keeps

    The engine changes a player only through a handful of field updates.  A
    reflexive and transitive relation that each of these updates keeps
    therefore holds between the players before and after an action. *)

Section PlayerRelations.
Variable R : GamePlayer.t → GamePlayer.t → Prop.
Hypothesis R_refl : ∀ p, R p p.
Hypothesis R_trans : ∀ p q r, R p q → R q r → R p r.

Lemma rel_refl_list ps : Forall2 R ps ps.
Proof. induction ps; constructor; auto. Qed.

Lemma rel_alter ps0 ps f i :
  Forall2 R ps0 ps → (∀ p, R p (f p)) → Forall2 R ps0 (alter f i ps).
Proof.
  intros H Hf. revert i. induction H as [|p0 p ps0 ps Hp Hps IH]; intros i; [constructor|].
  destruct i as [|i]; simpl; constructor; try done.
  - eapply R_trans; [exact Hp|apply Hf].
  - apply IH.
Qed.

Hypothesis R_firstMove : ∀ p, R p (GamePlayer.set_firstMove false p).
Hypothesis R_cells : ∀ p c, R p (GamePlayer.set_cells c p).

(** A roll only clears [firstMove] and stores cells. *)
Lemma roll_rel g value g' :
  roll g value = Ok g' → Forall2 R (GameState.players g) (GameState.players g').
Proof.
  unfold roll, allocCell. intros H.
  run_cases; repeat (apply rel_alter; [|by auto]); apply rel_refl_list.
Qed.

Hypothesis R_stats : ∀ p s,
    Stats.shotsFired (GamePlayer.stats p) <= Stats.shotsFired s →
    Stats.eliminations (GamePlayer.stats p) <= Stats.eliminations s →
    Stats.timesTargeted (GamePlayer.stats p) <= Stats.timesTargeted s →
    R p (GamePlayer.set_stats s p).
Hypothesis R_eliminated : ∀ p e, R p (GamePlayer.set_eliminated e p).

(** A shot stores a cell, raises counters and recomputes [eliminated]. *)
Lemma shoot_rel g tp tc g' :
  shoot g tp tc = Ok g' → Forall2 R (GameState.players g) (GameState.players g').
Proof.
  unfold shoot, landShot, allocCell. intros H.
  run_cases;
    repeat (apply rel_alter;
            [|first [ by auto | intros; apply R_stats; simpl; lia ]]);
    apply rel_refl_list.
Qed.

Lemma processGameAction_rel g action data r :
  processGameAction g action data = Ok r →
  Forall2 R (GameState.players g) (GameState.players (ActionResult.gameState r)).
Proof.
  intros H. unfold processGameAction in H. inv_bind. rename x into g', H0 into Happ.
  apply endOfAction_spec in H as (-> & _).
  unfold applyAction in Happ. repeat case_match.
  - by eapply roll_rel.
  - by eapply shoot_rel.
  - apply emote_frame in Happ as (_ & -> & _). apply rel_refl_list.
  - simplify_eq. apply rel_refl_list.
Qed.

End PlayerRelations.

(** ** What an action can do to the log *)

Lemma roll_log g value g' :
  roll g value = Ok g' →
  GameState.gameLog g' = GameState.gameLog g ∨
  ∃ e, GameState.gameLog g' = GameState.gameLog g ++ [e] ∧
       LogEntry.type e ≠ "eliminate" ∧ LogEntry.type e ≠ "shoot".
Proof.
  unfold roll, allocCell. intros H.
  run_cases; first [ by left | right; eexists; split; [reflexivity|done] ].
Qed.

Lemma shoot_log g tp tc g' :
  shoot g tp tc = Ok g' →
  GameState.gameLog g' = GameState.gameLog g ∨
  ∃ s t c,
    GameState.gameLog g' = GameState.gameLog g ++ [LogEntry.shoot s t c] ∨
    GameState.gameLog g' =
      GameState.gameLog g ++ [LogEntry.shoot s t c; LogEntry.eliminate t].
Proof.
  unfold shoot, landShot, allocCell. intros H.
  run_cases; first [ by left | right; eexists _, _, _ ];
    first [ by left | right; by rewrite <- app_assoc ].
Qed.

Lemma processGameAction_log g action data r :
  processGameAction g action data = Ok r →
  let log := GameState.gameLog g in
  let log' := GameState.gameLog (ActionResult.gameState r) in
  log' = log ∨
  (∃ e, log' = log ++ [e] ∧ LogEntry.type e ≠ "eliminate") ∨
  (∃ s t c, log' = log ++ [LogEntry.shoot s t c; LogEntry.eliminate t]).
Proof.
  intros H. unfold processGameAction in H. inv_bind. rename x into g', H0 into Happ.
  apply endOfAction_spec in H as (_ & Hlog & _). cbv zeta. rewrite Hlog.
  unfold applyAction in Happ. repeat case_match.
  - apply roll_log in Happ as [->|(e & -> & He & _)]; [by left|]. right. left. eauto.
  - apply shoot_log in Happ as [->|(s & t & c & [->| ->])]; [by left| |].
    + right. left. eexists. split; [reflexivity|simpl; discriminate].
    + right. right. eauto.
  - unfold emote in Happ. inv_bind. subst g'. right. left.
    eexists. split; [reflexivity|simpl; discriminate].
  - simplify_eq. by left.
Qed.

(** X1: the log only grows, by at most two entries per action; nothing that
    was logged is changed or removed. *)
Theorem log_is_append_only g action data r :
  processGameAction g action data = Ok r →
  ∃ new, GameState.gameLog (ActionResult.gameState r) = GameState.gameLog g ++ new ∧
         (length new ≤ 2)%nat.
Proof.
  intros H. apply processGameAction_log in H. cbv zeta in H.
  destruct H as [->|[(e & -> & _)|(s & t & c & ->)]].
  - exists []. split; [by rewrite app_nil_r|simpl; lia].
  - eexists. split; [reflexivity|simpl; lia].
  - eexists. split; [reflexivity|simpl; lia].
Qed.

Lemma log_is_append_only_witness :
  ∃ r new,
    processGameAction loadedGame "shoot" (shootData 0 0) = Ok r ∧
    GameState.gameLog (ActionResult.gameState r) = GameState.gameLog loadedGame ++ new ∧
    (length new ≤ 2)%nat.
Proof.
  assert (Hr : ∃ r, processGameAction loadedGame "shoot" (shootData 0 0) = Ok r)
    by (eexists; vm_compute; reflexivity).
  destruct Hr as [r Hr].
  destruct (log_is_append_only loadedGame "shoot" (shootData 0 0) r Hr)
    as (new & Hnew & Hlen).
  exists r, new. split; [exact Hr|]. split; [exact Hnew|exact Hlen].
Defined.

Lemma logPaired_app log new :
  logPaired log →
  (∀ name, LogEntry.eliminate name ∉ new) ∨
  (∃ s t c, new = [LogEntry.shoot s t c; LogEntry.eliminate t]) →
  logPaired (log ++ new).
Proof.
  intros Hlog Hnew k name Hk.
  apply lookup_app_Some in Hk as [Hk|[Hge Hk]].
  - destruct (Hlog k name Hk) as (k' & s & c & -> & Hk').
    exists k', s, c. split; [done|]. by apply lookup_app_l_Some.
  - destruct Hnew as [Hnone|(s & t & c & ->)].
    + exfalso. apply (Hnone name). by eapply list_elem_of_lookup_2.
    + destruct (k - length log)%nat as [|[|n]] eqn:Hn; simplify_eq/=.
      exists (length log), s, c. split; [lia|].
      by rewrite lookup_app_r, Nat.sub_diag by lia.
Qed.

(** X2: in the log of a game, every [eliminate] entry comes directly after a
    [shoot] entry aimed at the player it names (the entry that holds the name
    of the shooter). *)
Theorem eliminations_follow_their_shot g ended k name :
  reachable g ended →
  GameState.gameLog g !! k = Some (LogEntry.eliminate name) →
  ∃ k' shooter cell,
    k = S k' ∧
    GameState.gameLog g !! k' = Some (LogEntry.shoot shooter name cell).
Proof.
  intros Hreach. revert k name.
  change (logPaired (GameState.gameLog g)).
  induction Hreach as [roster Hne|g action data r _ IH Hr].
  - intros k name Hk. done.
  - apply processGameAction_log in Hr. cbv zeta in Hr.
    destruct Hr as [->|[(e & -> & He)|(s & t & c & ->)]]; [done| |].
    + apply logPaired_app; [done|]. left. intros name Hin.
      apply list_elem_of_singleton in Hin. subst e. done.
    + apply logPaired_app; [done|]. right. eauto.
Qed.

Lemma eliminations_follow_their_shot_witness :
  ∃ r k' shooter cell,
    processGameAction duelGame "shoot" (shootData 1 0) = Ok r ∧
    GameState.gameLog (ActionResult.gameState r) !! 9%nat = Some (LogEntry.eliminate "bob") ∧
    9%nat = S k' ∧
    GameState.gameLog (ActionResult.gameState r) !! k' =
      Some (LogEntry.shoot shooter "bob" cell).
Proof.
  assert (Hr : ∃ r, processGameAction duelGame "shoot" (shootData 1 0) = Ok r ∧
                    GameState.gameLog (ActionResult.gameState r) !! 9%nat =
                      Some (LogEntry.eliminate "bob")).
  { eexists. split; vm_compute; reflexivity. }
  destruct Hr as (r & Hr & Hk).
  assert (Hreach : reachable (ActionResult.gameState r) (ActionResult.gameEnded r)).
  { eapply reachable_action; [|exact Hr].
    apply (playMoves_reachable duelMoves (initializeGameState [alice; bob]));
      [by apply reachable_init|vm_compute; reflexivity]. }
  destruct (eliminations_follow_their_shot _ _ 9%nat "bob" Hreach Hk)
    as (k' & shooter & cell & Hk' & Hshot).
  exists r, k', shooter, cell.
  split; [exact Hr|]. split; [exact Hk|]. split; [exact Hk'|exact Hshot].
Defined.

(** ** What an action never changes *)

Lemma rel_lookup (R : GamePlayer.t → GamePlayer.t → Prop) ps ps' :
  Forall2 R ps ps' →
  length ps' = length ps ∧
  ∀ i p, ps !! i = Some p → ∃ p', ps' !! i = Some p' ∧ R p p'.
Proof.
  intros H. split; [symmetry; by eapply Forall2_length|].
  intros i p Hp. by eapply Forall2_lookup_l.
Qed.

(** X3: the players of a game state are fixed: an action changes neither
    their number, nor their order, nor the connection id, username or colour
    of any of them. *)
Theorem players_keep_their_identity g action data r :
  processGameAction g action data = Ok r →
  length (GameState.players (ActionResult.gameState r)) = length (GameState.players g) ∧
  ∀ i p, GameState.players g !! i = Some p →
    ∃ p', GameState.players (ActionResult.gameState r) !! i = Some p' ∧ sameIdentity p p'.
Proof.
  intros H. apply rel_lookup.
  apply (processGameAction_rel sameIdentity) with (action := action) (data := data);
    unfold sameIdentity; try done.
  intros p q r' (? & ? & ?) (? & ? & ?). repeat split; congruence.
Qed.

Lemma players_keep_their_identity_witness :
  ∃ r p',
    processGameAction loadedGame "shoot" (shootData 1 0) = Ok r ∧
    GameState.players (ActionResult.gameState r) !! 1%nat = Some p' ∧
    GamePlayer.id p' = "s-bob" ∧ GamePlayer.username p' = "bob".
Proof.
  assert (Hr : ∃ r, processGameAction loadedGame "shoot" (shootData 1 0) = Ok r)
    by (eexists; vm_compute; reflexivity).
  destruct Hr as [r Hr].
  destruct (proj2 (players_keep_their_identity loadedGame "shoot" (shootData 1 0) r Hr)
              1%nat
              (GamePlayer.mk "s-bob" "bob" "#EF4444" false false
                 [Some 3%nat; Some 1%nat] (Stats.mk 0 0 0))
              ltac:(vm_compute; reflexivity))
    as (p' & Hp' & Hid & Hname & _).
  exists r, p'. split; [exact Hr|]. split; [exact Hp'|]. split; [exact Hid|exact Hname].
Defined.

(** X4: no counter of a player's stats ever goes down. *)
Theorem stats_never_decrease g action data r i p :
  processGameAction g action data = Ok r →
  GameState.players g !! i = Some p →
  ∃ p', GameState.players (ActionResult.gameState r) !! i = Some p' ∧ statsGrow p p'.
Proof.
  intros H Hp.
  assert (HR : Forall2 statsGrow (GameState.players g)
                 (GameState.players (ActionResult.gameState r))).
  { apply (processGameAction_rel statsGrow) with (action := action) (data := data);
      unfold statsGrow; simpl; try done; intros; lia. }
  by apply (proj2 (rel_lookup _ _ _ HR)).
Qed.

Lemma stats_never_decrease_witness :
  ∃ r p',
    processGameAction loadedGame "shoot" (shootData 1 0) = Ok r ∧
    GameState.players (ActionResult.gameState r) !! 0%nat = Some p' ∧
    0 <= Stats.shotsFired (GamePlayer.stats p').
Proof.
  assert (Hr : ∃ r, processGameAction loadedGame "shoot" (shootData 1 0) = Ok r)
    by (eexists; vm_compute; reflexivity).
  destruct Hr as [r Hr].
  destruct (stats_never_decrease loadedGame "shoot" (shootData 1 0) r 0%nat
              (GamePlayer.mk "s-alice" "alice" "#3B82F6" false false
                 [Some 2%nat; Some 0%nat] (Stats.mk 0 0 0))
              Hr ltac:(vm_compute; reflexivity))
    as (p' & Hp' & Hshots & _).
  exists r, p'. split; [exact Hr|]. split; [exact Hp'|exact Hshots].
Defined.

Lemma applyAction_lastRoll g action data g' :
  applyAction g action data = Ok g' →
  (action = "roll" → GameState.lastRoll g' = Some (ActionData.value data)) ∧
  (action ≠ "roll" → GameState.lastRoll g' = GameState.lastRoll g).
Proof.
  unfold applyAction. intros H.
  destruct (String.eqb_spec action "roll") as [->|Hne].
  { apply roll_frame in H as (_ & _ & ->). done. }
  split; [done|]. intros _. repeat case_match.
  - by apply shoot_frame in H as (_ & _ & ->).
  - by apply emote_frame in H as (_ & _ & -> & _).
  - by simplify_eq.
Qed.

(** X5: only a shot changes who is eliminated and what the stats are, and
    only a roll changes [lastRoll]: after any other action each player has
    the [eliminated] flag and the stats it had, respectively [lastRoll] is
    what it was; after a roll, [lastRoll] is the value rolled, whatever it
    is. *)
Theorem what_only_shots_and_rolls_change g action data r :
  processGameAction g action data = Ok r →
  (action ≠ "shoot" →
     ∀ i p, GameState.players g !! i = Some p →
       ∃ p', GameState.players (ActionResult.gameState r) !! i = Some p' ∧
             sameStanding p p') ∧
  (action ≠ "roll" →
     GameState.lastRoll (ActionResult.gameState r) = GameState.lastRoll g) ∧
  (action = "roll" →
     GameState.lastRoll (ActionResult.gameState r) = Some (ActionData.value data)).
Proof.
  intros H. unfold processGameAction in H. inv_bind. rename x into g', H0 into Happ.
  apply endOfAction_spec in H as (Hps & _ & Hlast & _). rewrite Hps, Hlast.
  destruct (applyAction_lastRoll _ _ _ _ Happ) as [Hroll Hother].
  split; [|done].
  intros Hne. apply rel_lookup.
  unfold applyAction in Happ.
  destruct (String.eqb_spec action "roll") as [->|_].
  { apply (roll_rel sameStanding) with (value := ActionData.value data);
      unfold sameStanding; try done.
    intros p q r' [? ?] [? ?]. split; congruence. }
  apply String.eqb_neq in Hne. rewrite Hne in Happ.
  assert (Hsame : GameState.players g' = GameState.players g).
  { case_match; [by apply emote_frame in Happ as (_ & -> & _)|by simplify_eq]. }
  rewrite Hsame. by apply rel_refl_list.
Qed.

Lemma what_only_shots_and_rolls_change_witness :
  ∃ r p',
    processGameAction loadedGame "roll" (rollData 2) = Ok r ∧
    GameState.players (ActionResult.gameState r) !! 1%nat = Some p' ∧
    GamePlayer.eliminated p' = false ∧
    GameState.lastRoll (ActionResult.gameState r) = Some 2.
Proof.
  assert (Hr : ∃ r, processGameAction loadedGame "roll" (rollData 2) = Ok r)
    by (eexists; vm_compute; reflexivity).
  destruct Hr as [r Hr].
  destruct (what_only_shots_and_rolls_change loadedGame "roll" (rollData 2) r Hr)
    as (Hstand & _ & Hroll).
  destruct (Hstand ltac:(discriminate) 1%nat
              (GamePlayer.mk "s-bob" "bob" "#EF4444" false false
                 [Some 3%nat; Some 1%nat] (Stats.mk 0 0 0))
              ltac:(vm_compute; reflexivity))
    as (p' & Hp' & He & _).
  exists r, p'. split; [exact Hr|]. split; [exact Hp'|]. split; [exact He|].
  exact (Hroll eq_refl).
Defined.

(** ** Bounds of the cells *)

Lemma cellOk_alter store l c f :
  Forall cellOk store →
  store !! l = Some c →
  cellOk (f c) →
  Forall cellOk (alter f l store).
Proof.
  intros Hall Hc Hf. apply Forall_alter; [done|].
  intros x Hx _. by simplify_eq.
Qed.

Lemma roll_cellOk g value g' :
  Forall cellOk (GameState.cellStore g) →
  roll g value = Ok g' →
  Forall cellOk (GameState.cellStore g').
Proof.
  intros Hall H. unfold roll in H. inv_bind. rename x into p.
  destruct (GamePlayer.firstMove p && negb (value =? 1)); [by simplify_eq|].
  set (g1 := if GamePlayer.firstMove p && (value =? 1) then _ else _) in *.
  assert (Hstore1 : GameState.cellStore g1 = GameState.cellStore g)
    by (subst g1; by destruct (GamePlayer.firstMove p && (value =? 1))).
  clearbody g1. inv_bind. rename x into l, x0 into cell.
  unfold deref in H2. apply orThrow_Ok in H2. rewrite Hstore1 in H2.
  assert (Hcell : cellOk cell).
  { rewrite Forall_forall in Hall. apply Hall. by eapply list_elem_of_lookup_2. }
  destruct Hcell as (Hs & Hb & Ha & Hsb).
  destruct (Cell.isActive cell) eqn:Hact; simpl in H.
  - assert (H1s : 1 <= Cell.stage cell) by (by apply Ha).
    destruct (Z.ltb_spec (Cell.stage cell) 6) as [Hlt|Hge].
    + assert (Hstep : Forall cellOk
                (alter (Cell.set_stage (Cell.stage cell + 1)) l (GameState.cellStore g))).
      { eapply cellOk_alter; [done|done|].
        unfold cellOk. simpl. rewrite Hact. repeat split; try lia; done. }
      destruct (Z.eqb_spec (Cell.stage cell + 1) 6) as [H6|Hn6]; simplify_eq; simpl;
        rewrite Hstore1; [|done].
      eapply cellOk_alter; [done|by rewrite list_lookup_alter_eq, H2|].
      unfold cellOk. simpl. rewrite Hact. repeat split; try lia; done.
    + destruct (Z.eqb_spec (Cell.bullets cell) 0) as [Hb0|Hb0]; simplify_eq; simpl;
        rewrite ?Hstore1; [|done].
      eapply cellOk_alter; [done|done|].
      unfold cellOk. simpl. rewrite Hact. repeat split; try lia; done.
  - unfold allocCell in H. simpl in H. simplify_eq. simpl. rewrite Hstore1.
    apply Forall_app. split; [done|]. repeat constructor; simpl; try lia; done.
Qed.

Lemma shoot_cellOk g tp tc g' :
  Forall cellOk (GameState.cellStore g) →
  shoot g tp tc = Ok g' →
  Forall cellOk (GameState.cellStore g').
Proof.
  intros Hall H. unfold shoot in H.
  destruct (lastRollIs g (tc + 1)); [|by simplify_eq].
  inv_bind. rename x into actor, x0 into l, x1 into c.
  unfold deref in H2. apply orThrow_Ok in H2.
  destruct (Z.gtb_spec (Cell.bullets c) 0) as [Hb|Hb]; [|by simplify_eq].
  inv_bind.
  assert (Hc : cellOk c).
  { rewrite Forall_forall in Hall. apply Hall. by eapply list_elem_of_lookup_2. }
  destruct Hc as (Hs & Hbb & Ha & Hsb).
  assert (Hstore : Forall cellOk
            (GameState.cellStore
               (landShot g (GameState.currentPlayer g) (Z.to_nat tp) tc l
                  (GamePlayer.username actor) (GamePlayer.username x)))).
  { unfold landShot, allocCell. simpl.
    eapply (cellOk_alter _ l c).
    - apply Forall_app. split; [done|]. repeat constructor; simpl; try lia; done.
    - by apply lookup_app_l_Some.
    - unfold cellOk. simpl. repeat split; try lia; by apply Ha. }
  destruct x1; simplify_eq; done.
Qed.

Lemma reachable_cellOk g ended :
  reachable g ended → Forall cellOk (GameState.cellStore g).
Proof.
  induction 1 as [roster Hne|g action data r _ IH Hr].
  - simpl. apply Forall_replicate. repeat split; simpl; try lia; done.
  - unfold processGameAction in Hr. inv_bind. rename x into g', H into Happ.
    apply endOfAction_spec in Hr as (_ & _ & _ & -> & _).
    unfold applyAction in Happ. repeat case_match.
    + by eapply roll_cellOk.
    + by eapply shoot_cellOk.
    + by apply emote_frame in Happ as (_ & _ & _ & ->).
    + by simplify_eq.
Qed.

(** X6: in every state of a game, every cell of every player has a stage from
    0 to 6 and from 0 to 5 bullets, is active exactly when its stage is at
    least 1, and holds bullets only at stage 6. *)
Theorem cells_stay_in_bounds g ended i p k c :
  reachable g ended →
  GameState.players g !! i = Some p →
  cellOf g p k = Some c →
  0 <= Cell.stage c <= 6 ∧
  0 <= Cell.bullets c <= 5 ∧
  (Cell.isActive c = true ↔ 1 <= Cell.stage c) ∧
  (0 < Cell.bullets c → Cell.stage c = 6).
Proof.
  intros Hreach _ Hc. apply cellOf_Some in Hc as (l & _ & Hc).
  pose proof (reachable_cellOk _ _ Hreach) as Hall.
  rewrite Forall_forall in Hall. apply (Hall c). by eapply list_elem_of_lookup_2.
Qed.

Lemma cells_stay_in_bounds_witness :
  0 <= Cell.stage (Cell.mk 6 true 5) <= 6 ∧
  0 <= Cell.bullets (Cell.mk 6 true 5) <= 5 ∧
  (Cell.isActive (Cell.mk 6 true 5) = true ↔ 1 <= Cell.stage (Cell.mk 6 true 5)) ∧
  (0 < Cell.bullets (Cell.mk 6 true 5) → Cell.stage (Cell.mk 6 true 5) = 6).
Proof.
  apply (cells_stay_in_bounds loadedGame false 0%nat
           (GamePlayer.mk "s-alice" "alice" "#3B82F6" false false
              [Some 2%nat; Some 0%nat] (Stats.mk 0 0 0)) 0).
  - apply (playMoves_reachable loadedMoves (initializeGameState [alice; bob]));
      [by apply reachable_init|vm_compute; reflexivity].
  - vm_compute. reflexivity.
  - vm_compute. reflexivity.
Defined.

(** ** Players without an active cell *)

Lemma allInactive_true g p :
  allInactive g p = true ↔
  ∀ k l c, GamePlayer.cells p !! k = Some (Some l) →
           GameState.cellStore g !! l = Some c → Cell.isActive c = false.
Proof.
  unfold allInactive. induction (GamePlayer.cells p) as [|slot cs IH]; simpl.
  - split; [intros _ k l c Hk; done|done].
  - rewrite andb_true_iff, IH. split.
    + intros [Hs Hcs] [|k] l c Hk Hc; simpl in Hk.
      * simplify_eq. simpl in Hs. rewrite Hc in Hs. by destruct (Cell.isActive c).
      * eauto.
    + intros H. split.
      * destruct slot as [l|]; simpl; [|done].
        destruct (GameState.cellStore g !! l) as [c|] eqn:Hc; [|done].
        by rewrite (H 0%nat l c).
      * intros k l c Hk Hc. by apply (H (S k) l c).
Qed.

(** A roll leaves the cells of the players who did not roll as they are. *)
Lemma roll_keeps_inactive g value g' actor i q q' :
  wf g →
  GameState.players g !! GameState.currentPlayer g = Some actor →
  roll g value = Ok g' →
  i ≠ GameState.currentPlayer g →
  GameState.players g !! i = Some q →
  GameState.players g' !! i = Some q' →
  allInactive g' q' = allInactive g q.
Proof.
  intros Hwf Ha H Hne Hq Hq'.
  destruct (roll_state _ _ _ _ Ha H) as [Hext Hps].
  destruct (Hps i q' Hq') as (q0 & Hq0 & _ & _ & Hcells). simplify_eq.
  destruct Hcells as [Hc|[? _]]; [|done].
  apply allInactive_ext; [|done|done]. by destruct (wf_lookup _ _ _ Hwf Hq).
Qed.

(** A roll that leaves [firstMove] set has changed neither players nor
    cells. *)
Lemma roll_firstMove g value g' p p' :
  GameState.players g !! GameState.currentPlayer g = Some p →
  roll g value = Ok g' →
  GameState.players g' !! GameState.currentPlayer g = Some p' →
  GamePlayer.firstMove p' = true →
  GameState.players g' = GameState.players g ∧
  GameState.cellStore g' = GameState.cellStore g.
Proof.
  intros Hp H Hp' Hfm. pose proof H as Hroll.
  unfold roll in H. simpl in H. rewrite Hp in H. simpl in H.
  destruct (GamePlayer.firstMove p && negb (value =? 1)) eqn:Hcond; [by simplify_eq|].
  set (g1 := if GamePlayer.firstMove p && (value =? 1) then _ else _) in *.
  assert (Hstore1 : GameState.cellStore g1 = GameState.cellStore g)
    by (subst g1; by destruct (GamePlayer.firstMove p && (value =? 1))).
  clearbody g1. inv_bind. rename x into l, x0 into cell.
  unfold deref in H1. apply orThrow_Ok in H1. rewrite Hstore1 in H1.
  destruct (roll_cell g value p l cell Hp Hcond H0 H1) as (g'' & p'' & Hr & _ & Hp'' & Hf & _).
  rewrite Hroll in Hr. simplify_eq. congruence.
Qed.

(** A shot never makes a cell active. *)
Lemma shoot_keeps_inactive g tp tc g' i q q' :
  wf g →
  shoot g tp tc = Ok g' →
  GameState.players g !! i = Some q →
  GameState.players g' !! i = Some q' →
  allInactive g q = true →
  allInactive g' q' = true.
Proof.
  intros Hwf H Hq Hq' Hin. pose proof H as Hshoot. unfold shoot in H.
  destruct (lastRollIs g (tc + 1)) eqn:Hroll; [|by simplify_eq].
  destruct (GameState.players g !! GameState.currentPlayer g) as [actor|] eqn:Ha; [|done].
  cbn [mbind Res_bind orThrow] in H.
  destruct (JsArray.get (GamePlayer.cells actor) tc) as [l|] eqn:Hl; [|done].
  cbn [mbind Res_bind orThrow] in H. unfold deref at 1 in H.
  destruct (GameState.cellStore g !! l) as [c|] eqn:Hc; [|done].
  cbn [mbind Res_bind orThrow] in H.
  destruct (Z.gtb_spec (Cell.bullets c) 0) as [Hb|Hb]; [|by simplify_eq].
  destruct (playerAt g tp) as [target|] eqn:Ht; [|done].
  clear H.
  destruct (shoot_lands_state g tp tc actor l c target Hwf Ha Hroll Hl Hc
              ltac:(lia) Ht)
    as (g'' & t' & Hshoot' & Hstore & _ & Ht' & Hcells & _ & _ & _ & _ & Hrest).
  rewrite Hshoot in Hshoot'. injection Hshoot' as <-.
  assert (Htp : GameState.players g !! Z.to_nat tp = Some target).
  { unfold playerAt in Ht. by destruct (tp <? 0). }
  assert (Hext : storeExt (GameState.cellStore g) (GameState.cellStore g')).
  { rewrite Hstore. eapply storeExt_trans; [apply storeExt_app|].
    by apply storeExt_alter. }
  destruct (wf_lookup _ _ _ Hwf Hq) as [_ Hslots].
  destruct (decide (i = Z.to_nat tp)) as [->|Hne].
  - assert (target = q) as -> by congruence.
    assert (t' = q') as -> by congruence.
    apply allInactive_true. intros k l' c' Hk Hc'.
    rewrite Hcells in Hk.
    destruct (decide (Z.to_nat tc = k)) as [<-|Hk'].
    + assert (Hlt : (Z.to_nat tc < length (GamePlayer.cells q))%nat).
      { apply lookup_lt_Some in Hk. by rewrite length_insert in Hk. }
      rewrite list_lookup_insert_eq in Hk by done. simplify_eq.
      rewrite Hstore in Hc'.
      rewrite list_lookup_alter_ne in Hc' by (apply lookup_lt_Some in Hc; lia).
      rewrite lookup_app_r in Hc' by lia. rewrite Nat.sub_diag in Hc'. simpl in Hc'. by simplify_eq.
    + rewrite list_lookup_insert_ne in Hk by done.
      rewrite Forall_forall in Hslots.
      destruct (Hslots (Some l')) as (l0 & Hl0 & Hlt); [by eapply list_elem_of_lookup_2|].
      simplify_eq.
      destruct (lookup_lt_is_Some_2 _ _ Hlt) as [c0 Hc0].
      destruct (Hext _ _ Hc0) as (c1 & Hc1 & Hact). simplify_eq.
      rewrite Hact. by eapply (proj1 (allInactive_true g q)).
  - destruct (Hrest i q' Hne Hq') as (q0 & Hq0 & Hcq & _). simplify_eq.
    by rewrite (allInactive_ext g g' q q').
Qed.

Lemma firstMove_never_set_again g action data r i p p' :
  processGameAction g action data = Ok r →
  GameState.players g !! i = Some p →
  GameState.players (ActionResult.gameState r) !! i = Some p' →
  GamePlayer.firstMove p' = true → GamePlayer.firstMove p = true.
Proof.
  intros Hr Hp Hp'.
  assert (HR : Forall2 (fun p p' => GamePlayer.firstMove p' = true →
                                    GamePlayer.firstMove p = true)
                 (GameState.players g) (GameState.players (ActionResult.gameState r))).
  { eapply (processGameAction_rel
              (fun p p' => GamePlayer.firstMove p' = true → GamePlayer.firstMove p = true));
      [..|exact Hr]; simpl; auto; congruence. }
  rewrite Forall2_lookup in HR. specialize (HR i). rewrite Hp, Hp' in HR.
  by inversion HR.
Qed.

Lemma reachable_unstarted g ended :
  reachable g ended →
  ∀ i p, GameState.players g !! i = Some p →
         GamePlayer.firstMove p = true → allInactive g p = true.
Proof.
  induction 1 as [roster Hne|g action data r Hreach IH Hr].
  - intros i p Hp _. simpl in Hp. rewrite list_lookup_imap in Hp.
    destruct (roster !! i) as [lp|] eqn:Hlp; simplify_eq/=.
    apply allInactive_true. intros k l c Hk Hc. simpl in *.
    unfold JsArray.fill in Hk. apply lookup_replicate in Hk as [? _]. simplify_eq.
    apply lookup_replicate in Hc as [-> _]. done.
  - intros i p' Hp' Hfm.
    pose proof (reachable_wf _ _ Hreach) as Hwf.
    assert (∃ p, GameState.players g !! i = Some p) as [p Hp].
    { pose proof (processGameAction_rel (fun _ _ => True) ltac:(done) ltac:(done)
                    ltac:(done) ltac:(done) ltac:(done) ltac:(done) _ _ _ _ Hr) as HR.
      apply Forall2_length in HR. apply lookup_lt_is_Some.
      rewrite HR. by eapply lookup_lt_Some. }
    pose proof (firstMove_never_set_again _ _ _ _ _ _ _ Hr Hp Hp' Hfm) as Hfm0.
    pose proof (IH i p Hp Hfm0) as Hin.
    unfold processGameAction in Hr. inv_bind. rename x into g', H into Happ.
    apply endOfAction_spec in Hr as (Hps & _ & _ & Hstore & _).
    rewrite Hps in Hp'.
    assert (allInactive g' p' = true) as Hgoal;
      [|unfold allInactive in *; by rewrite Hstore].
    destruct (reachable_inv _ _ Hreach) as [_ Hturn].
    destruct (Hturn eq_refl) as [(actor & Ha & _) _].
    unfold applyAction in Happ. repeat case_match.
    + destruct (decide (i = GameState.currentPlayer g)) as [->|Hne].
      * destruct (roll_firstMove _ _ _ _ _ Ha Happ Hp' Hfm) as [Hsame Hst].
        rewrite Hsame in Hp'. simplify_eq.
        unfold allInactive in *. by rewrite Hst.
      * by rewrite (roll_keeps_inactive _ _ _ _ _ _ _ Hwf Ha Happ Hne Hp Hp').
    + exact (shoot_keeps_inactive _ _ _ _ _ _ _ Hwf Happ Hp Hp' Hin).
    + apply emote_frame in Happ as (_ & Hsame & _ & Hst).
      rewrite Hsame in Hp'. simplify_eq. unfold allInactive in *. by rewrite Hst.
    + by simplify_eq.
Qed.

(** X7: a player who has not yet made the first move (has not rolled the 1
    that clears [firstMove]) has no active cell, in every state of a game. *)
Theorem unstarted_player_has_no_active_cell g ended i p k c :
  reachable g ended →
  GameState.players g !! i = Some p →
  GamePlayer.firstMove p = true →
  cellOf g p k = Some c →
  Cell.isActive c = false.
Proof.
  intros Hreach Hp Hfm Hc.
  apply cellOf_Some in Hc as (l & Hl & Hc).
  apply JsArray_get_Some in Hl as [_ Hl].
  eapply (proj1 (allInactive_true g p)); [|exact Hl|exact Hc].
  by eapply reachable_unstarted.
Qed.

Lemma unstarted_player_has_no_active_cell_witness :
  Cell.isActive (Cell.mk 0 false 0) = false.
Proof.
  apply (unstarted_player_has_no_active_cell duelGame false 1%nat
           (GamePlayer.mk "s-bob" "bob" "#EF4444" false true
              [Some 1%nat; Some 1%nat] (Stats.mk 0 0 0)) 1 (Cell.mk 0 false 0)).
  - apply (playMoves_reachable duelMoves (initializeGameState [alice; bob]));
      [by apply reachable_init|vm_compute; reflexivity].
  - vm_compute. reflexivity.
  - reflexivity.
  - vm_compute. reflexivity.
Defined.

(** X8: a shot that lands on a player who has not yet made the first move
    eliminates that player at once, whatever cell it is aimed at. *)
Theorem shot_at_unstarted_player_eliminates g data actor c target :
  let tp := ActionData.targetPlayer data in
  let tc := ActionData.targetCell data in
  reachable g false →
  GameState.players g !! GameState.currentPlayer g = Some actor →
  GameState.lastRoll g = Some (tc + 1) →
  cellOf g actor tc = Some c →
  Cell.bullets c > 0 →
  playerAt g tp = Some target →
  GamePlayer.firstMove target = true →
  ∃ r target',
    processGameAction g "shoot" data = Ok r ∧
    GameState.players (ActionResult.gameState r) !! Z.to_nat tp = Some target' ∧
    GamePlayer.eliminated target' = true ∧
    last (GameState.gameLog (ActionResult.gameState r)) =
      Some (LogEntry.eliminate (GamePlayer.username target)).
Proof.
  intros tp tc Hreach Ha Hroll Hc Hb Ht Hfm.
  pose proof (reachable_wf _ _ Hreach) as Hwf.
  apply cellOf_Some in Hc as (l & Hl & Hc).
  assert (Hlr : lastRollIs g (tc + 1) = true).
  { unfold lastRollIs. rewrite Hroll. apply Z.eqb_refl. }
  destruct (shoot_lands_state g tp tc actor l c target Hwf Ha Hlr Hl Hc Hb Ht)
    as (g' & t' & Hshoot & _ & _ & Ht' & _ & _ & Helim & Hlog & _).
  assert (Htp : GameState.players g !! Z.to_nat tp = Some target).
  { unfold playerAt in Ht. by destruct (tp <? 0). }
  assert (He : GamePlayer.eliminated t' = true).
  { rewrite Helim. eapply shoot_keeps_inactive; eauto.
    by eapply reachable_unstarted. }
  destruct (processGameAction_after g "shoot" data g') as (r & Hr & Hps & Hlg & _).
  { by rewrite applyAction_shoot. }
  { by eapply nonempty_lookup. }
  exists r, t'. split; [done|]. rewrite Hps, Hlg, Hlog, He.
  split; [done|]. split; [done|].
  rewrite cons_middle, app_assoc. apply last_snoc.
Qed.

Lemma shot_at_unstarted_player_eliminates_witness :
  ∃ r target',
    processGameAction duelGame "shoot" (shootData 1 0) = Ok r ∧
    GameState.players (ActionResult.gameState r) !! 1%nat = Some target' ∧
    GamePlayer.eliminated target' = true.
Proof.
  destruct (shot_at_unstarted_player_eliminates duelGame (shootData 1 0)
              (GamePlayer.mk "s-alice" "alice" "#3B82F6" false false
                 [Some 2%nat; Some 0%nat] (Stats.mk 0 0 0))
              (Cell.mk 6 true 5)
              (GamePlayer.mk "s-bob" "bob" "#EF4444" false true
                 [Some 1%nat; Some 1%nat] (Stats.mk 0 0 0)))
    as (r & t' & Hr & Ht' & He & _).
  - apply (playMoves_reachable duelMoves (initializeGameState [alice; bob]));
      [by apply reachable_init|vm_compute; reflexivity].
  - vm_compute. reflexivity.
  - vm_compute. reflexivity.
  - vm_compute. reflexivity.
  - simpl. lia.
  - vm_compute. reflexivity.
  - reflexivity.
  - exists r, t'. split; [exact Hr|]. split; [exact Ht'|exact He].
Defined.

(** X9: once eliminated, a player stays eliminated for the rest of the
    game. *)
Theorem elimination_is_permanent g action data r i p :
  reachable g false →
  processGameAction g action data = Ok r →
  GameState.players g !! i = Some p →
  GamePlayer.eliminated p = true →
  ∃ p', GameState.players (ActionResult.gameState r) !! i = Some p' ∧
        GamePlayer.eliminated p' = true.
Proof.
  intros Hreach Hr Hp He.
  pose proof (reachable_wf _ _ Hreach) as Hwf.
  destruct (reachable_inv _ _ Hreach) as [Hinv Hturn].
  destruct (Hturn eq_refl) as [(actor & Ha & Hae) _].
  destruct (Hinv i p Hp) as [_ Hpe]. rewrite He in Hpe.
  symmetry in Hpe. apply andb_true_iff in Hpe as [Hin Htt].
  pose proof (processGameAction_rel statsGrow) as HR.
  specialize (HR ltac:(intros ?; unfold statsGrow; lia)
                 ltac:(unfold statsGrow; intros; lia)
                 ltac:(intros ?; unfold statsGrow; simpl; lia)
                 ltac:(intros ? ?; unfold statsGrow; simpl; lia)
                 ltac:(intros ? ? ? ? ?; unfold statsGrow; simpl; lia)
                 ltac:(intros ? ?; unfold statsGrow; simpl; lia) _ _ _ _ Hr).
  rewrite Forall2_lookup in HR. specialize (HR i). rewrite Hp in HR.
  inversion HR as [q0 p' Hgrow Heq1 Heq2|]. subst q0. symmetry in Heq2.
  exists p'. split; [done|].
  pose proof (reachable_action _ _ _ _ Hreach Hr) as Hreach'.
  destruct (reachable_inv _ _ Hreach') as [Hinv' _].
  destruct (Hinv' i p' Heq2) as [_ ->].
  assert (i ≠ GameState.currentPlayer g) as Hne by (intros ->; congruence).
  destruct Hgrow as (_ & _ & Hgrow).
  apply andb_true_iff. split; [|apply Z.ltb_lt in Htt; apply Z.ltb_lt; lia].
  unfold processGameAction in Hr. inv_bind. rename x into g', H into Happ.
  apply endOfAction_spec in Hr as (Hps & _ & _ & Hstore & _).
  rewrite Hps in Heq2.
  assert (allInactive g' p' = true) as Hgoal;
    [|unfold allInactive in *; by rewrite Hstore].
  unfold applyAction in Happ. repeat case_match.
  - by rewrite (roll_keeps_inactive _ _ _ _ _ _ _ Hwf Ha Happ Hne Hp Heq2).
  - exact (shoot_keeps_inactive _ _ _ _ _ _ _ Hwf Happ Hp Heq2 Hin).
  - apply emote_frame in Happ as (_ & Hsame & _ & Hst).
    rewrite Hsame in Heq2. simplify_eq. unfold allInactive in *. by rewrite Hst.
  - by simplify_eq.
Qed.

Lemma elimination_is_permanent_witness :
  ∃ r p', processGameAction trioGame "roll" (rollData 1) = Ok r ∧
          GameState.players (ActionResult.gameState r) !! 1%nat = Some p' ∧
          GamePlayer.eliminated p' = true.
Proof.
  assert (Hr : ∃ r, processGameAction trioGame "roll" (rollData 1) = Ok r)
    by (eexists; vm_compute; reflexivity).
  destruct Hr as [r Hr].
  assert (Hp : ∃ p, GameState.players trioGame !! 1%nat = Some p ∧
                    GamePlayer.eliminated p = true)
    by (eexists; vm_compute; split; reflexivity).
  destruct Hp as (p & Hp & He).
  destruct (elimination_is_permanent trioGame "roll" (rollData 1) r 1%nat p)
    as (p' & Hp' & He').
  - apply (playMoves_reachable trioMoves (initializeGameState [alice; bob; carol]));
      [by apply reachable_init|vm_compute; reflexivity].
  - exact Hr.
  - exact Hp.
  - exact He.
  - exists r, p'. split; [exact Hr|]. split; [exact Hp'|exact He'].
Defined.

(** ** Payloads outside the board *)

Lemma JsArray_get_out {A} (a : list (option A)) (i : Z) :
  i < 0 ∨ Z.of_nat (length a) <= i → JsArray.get a i = None.
Proof.
  intros Hi. unfold JsArray.get.
  destruct (Z.ltb_spec i 0) as [|Hge]; [done|].
  rewrite lookup_ge_None_2 by lia. done.
Qed.

Lemma wf_cells_length g i p :
  wf g → GameState.players g !! i = Some p →
  length (GamePlayer.cells p) = length (GameState.players g).
Proof. intros Hwf Hp. by destruct (wf_lookup _ _ _ Hwf Hp). Qed.

(** X10: the engine does not check the die value.  Once the player to move
    is past the first move, a roll below 1 or above the number of players
    reads a cell that does not exist, and the action throws a TypeError
    instead of returning a result. *)
Theorem roll_out_of_range_throws g data p :
  let value := ActionData.value data in
  wf g →
  GameState.players g !! GameState.currentPlayer g = Some p →
  GamePlayer.firstMove p = false →
  value < 1 ∨ Z.of_nat (length (GameState.players g)) < value →
  processGameAction g "roll" data = Throw TypeError.
Proof.
  intros value Hwf Hp Hfm Hv.
  unfold processGameAction, applyAction. simpl.
  unfold roll. simpl. rewrite Hp. simpl. rewrite Hfm. simpl.
  rewrite JsArray_get_out; [done|].
  rewrite (wf_cells_length _ _ _ Hwf Hp). fold value. lia.
Qed.

Lemma roll_out_of_range_throws_witness :
  processGameAction loadedGame "roll" (rollData 3) = Throw TypeError.
Proof.
  apply (roll_out_of_range_throws loadedGame (rollData 3)
           (GamePlayer.mk "s-alice" "alice" "#3B82F6" false false
              [Some 2%nat; Some 0%nat] (Stats.mk 0 0 0))).
  - apply (reachable_wf loadedGame false).
    apply (playMoves_reachable loadedMoves (initializeGameState [alice; bob]));
      [by apply reachable_init|vm_compute; reflexivity].
  - vm_compute. reflexivity.
  - reflexivity.
  - right. vm_compute. reflexivity.
Defined.

(** X11: the engine does not check the target of a shot either.  When the
    last roll names the cell, a cell index outside the shooter's cells
    throws a TypeError; so does a player index outside the player list, once
    the shooter's cell has a bullet to fire. *)
Theorem shoot_out_of_range_throws g data actor :
  let tp := ActionData.targetPlayer data in
  let tc := ActionData.targetCell data in
  let n := Z.of_nat (length (GameState.players g)) in
  wf g →
  GameState.players g !! GameState.currentPlayer g = Some actor →
  GameState.lastRoll g = Some (tc + 1) →
  (tc < 0 ∨ n <= tc → processGameAction g "shoot" data = Throw TypeError) ∧
  (∀ c, cellOf g actor tc = Some c → Cell.bullets c > 0 →
        tp < 0 ∨ n <= tp →
        processGameAction g "shoot" data = Throw TypeError).
Proof.
  intros tp tc n Hwf Ha Hroll.
  assert (Hlr : lastRollIs g (tc + 1) = true).
  { unfold lastRollIs. rewrite Hroll. apply Z.eqb_refl. }
  split.
  - intros Htc. unfold processGameAction, applyAction. simpl.
    unfold shoot. fold tc. rewrite Hlr, Ha. simpl.
    rewrite JsArray_get_out; [done|].
    rewrite (wf_cells_length _ _ _ Hwf Ha). fold n. lia.
  - intros c Hc Hb Htp. apply cellOf_Some in Hc as (l & Hl & Hc).
    unfold processGameAction, applyAction. simpl.
    unfold shoot. fold tc tp. rewrite Hlr, Ha. cbn [mbind Res_bind orThrow].
    rewrite Hl. cbn [mbind Res_bind orThrow]. unfold deref at 1. rewrite Hc.
    cbn [mbind Res_bind orThrow].
    destruct (Z.gtb_spec (Cell.bullets c) 0) as [_|]; [|lia].
    assert (playerAt g tp = None) as ->; [|done].
    unfold playerAt. destruct (Z.ltb_spec tp 0); [done|].
    apply lookup_ge_None_2. lia.
Qed.

Lemma shoot_out_of_range_throws_witness :
  processGameAction loadedGame "shoot" (shootData 2 0) = Throw TypeError.
Proof.
  refine (proj2 (shoot_out_of_range_throws loadedGame (shootData 2 0)
           (GamePlayer.mk "s-alice" "alice" "#3B82F6" false false
              [Some 2%nat; Some 0%nat] (Stats.mk 0 0 0)) _ _ _)
           (Cell.mk 6 true 5) _ _ _).
  - apply (reachable_wf loadedGame false).
    apply (playMoves_reachable loadedMoves (initializeGameState [alice; bob]));
      [by apply reachable_init|vm_compute; reflexivity].
  - vm_compute. reflexivity.
  - vm_compute. reflexivity.
  - vm_compute. reflexivity.
  - simpl. lia.
  - right. vm_compute. intros H. discriminate H.
Defined.

(** ** Sharing of cell objects

    [Array(n).fill(cell)] makes the [n] slots of a new player refer to one
    object.  The engine updates cells in place, so it matters which slots
    share an object. *)

(** What a roll does to the slots and to the store. *)
Lemma roll_shape g value g' p :
  GameState.players g !! GameState.currentPlayer g = Some p →
  roll g value = Ok g' →
  (GameState.players g' = GameState.players g ∧
   GameState.cellStore g' = GameState.cellStore g) ∨
  ∃ l cell,
    JsArray.get (GamePlayer.cells p) (value - 1) = Some l ∧
    GameState.cellStore g !! l = Some cell ∧
    ((Cell.isActive cell = false ∧
      GameState.cellStore g' = GameState.cellStore g ++ [Cell.mk 1 true 0] ∧
      ∀ i q', GameState.players g' !! i = Some q' →
        ∃ q, GameState.players g !! i = Some q ∧
          GamePlayer.cells q' =
            if decide (i = GameState.currentPlayer g)
            then <[Z.to_nat (value - 1) := Some (length (GameState.cellStore g))]>
                   (GamePlayer.cells q)
            else GamePlayer.cells q)
     ∨
     (Cell.isActive cell = true ∧
      (∃ f, (∀ c, Cell.isActive (f c) = Cell.isActive c) ∧
            GameState.cellStore g' = alter f l (GameState.cellStore g)) ∧
      ∀ i q', GameState.players g' !! i = Some q' →
        ∃ q, GameState.players g !! i = Some q ∧
             GamePlayer.cells q' = GamePlayer.cells q)).
Proof.
  intros Hp H. unfold roll in H. simpl in H. rewrite Hp in H. simpl in H.
  destruct (GamePlayer.firstMove p && negb (value =? 1)); [left; by simplify_eq|].
  right.
  set (cur := GameState.currentPlayer g) in *.
  set (g1 := if GamePlayer.firstMove p && (value =? 1) then _ else _) in *.
  assert (Hstore1 : GameState.cellStore g1 = GameState.cellStore g)
    by (subst g1; by destruct (GamePlayer.firstMove p && (value =? 1))).
  assert (Hps1 : ∀ i q1, GameState.players g1 !! i = Some q1 →
            ∃ q, GameState.players g !! i = Some q ∧
              GamePlayer.cells q1 = GamePlayer.cells q).
  { intros i q1 Hq1. subst g1.
    destruct (GamePlayer.firstMove p && (value =? 1)); simpl in Hq1; [|eauto].
    rewrite list_lookup_alter in Hq1.
    destruct (decide (cur = i)) as [<-|Hne]; [|eauto].
    rewrite Hp in Hq1. simpl in Hq1. simplify_eq. eauto. }
  clearbody g1. inv_bind. rename x into l, x0 into cell.
  unfold deref in H1. apply orThrow_Ok in H1. rewrite Hstore1 in H1.
  exists l, cell. split; [done|]. split; [done|].
  apply JsArray_get_Some in H0 as [Hv Hslot].
  destruct (Cell.isActive cell) eqn:Hact; simpl in H.
  - right. split; [done|].
    assert (Hplayers : GameState.players g' = GameState.players g1 ∧
              ∃ f, (∀ c, Cell.isActive (f c) = Cell.isActive c) ∧
                   GameState.cellStore g' = alter f l (GameState.cellStore g)).
    { repeat case_match; simplify_eq; simpl; rewrite ?Hstore1; split; try done.
      - exists (fun c => Cell.set_bullets 5 (Cell.set_stage (Cell.stage cell + 1) c)).
        split; [done|]. by rewrite list_alter_alter_eq.
      - exists (Cell.set_stage (Cell.stage cell + 1)). done.
      - exists (Cell.set_bullets 5). done.
      - exists (fun c => c). split; [done|]. by rewrite list_alter_id. }
    destruct Hplayers as (Hps & Hf). split; [done|].
    intros i q' Hq'. rewrite Hps in Hq'. eauto.
  - left. split; [done|].
    unfold allocCell in H. simpl in H. simplify_eq. simpl.
    split; [by rewrite Hstore1|].
    intros i q' Hq'. rewrite list_lookup_alter in Hq'.
    destruct (decide (cur = i)) as [<-|Hne].
    + destruct (GameState.players g1 !! cur) as [q1|] eqn:Hq1; [|done].
      simpl in Hq'. simplify_eq.
      destruct (Hps1 cur q1 Hq1) as (q & Hq & Hc).
      exists q. split; [done|]. rewrite decide_True by done. simpl.
      rewrite Hp in Hq. simplify_eq.
      rewrite JsArray_set_in_range, Hc, Hstore1; [done|done|].
      rewrite Hc. by eapply lookup_lt_Some.
    + destruct (Hps1 i q' Hq') as (q & ? & ?). exists q.
      rewrite decide_False by done. done.
Qed.

(** What a shot does to the slots and to the store. *)
Lemma shoot_shape g tp tc g' :
  wf g →
  shoot g tp tc = Ok g' →
  g' = g ∨
  ∃ actor l c,
    GameState.players g !! GameState.currentPlayer g = Some actor ∧
    JsArray.get (GamePlayer.cells actor) tc = Some l ∧
    GameState.cellStore g !! l = Some c ∧
    Cell.bullets c > 0 ∧
    GameState.cellStore g' =
      alter (fun c => Cell.set_bullets (Cell.bullets c - 1) c) l
        (GameState.cellStore g ++ [Cell.mk 0 false 0]) ∧
    ∀ i q', GameState.players g' !! i = Some q' →
      ∃ q, GameState.players g !! i = Some q ∧
        GamePlayer.cells q' =
          if decide (i = Z.to_nat tp)
          then <[Z.to_nat tc := Some (length (GameState.cellStore g))]> (GamePlayer.cells q)
          else GamePlayer.cells q.
Proof.
  intros Hwf H. pose proof H as Hshoot. unfold shoot in H.
  destruct (lastRollIs g (tc + 1)) eqn:Hroll; [|left; by simplify_eq].
  destruct (GameState.players g !! GameState.currentPlayer g) as [actor|] eqn:Ha; [|done].
  cbn [mbind Res_bind orThrow] in H.
  destruct (JsArray.get (GamePlayer.cells actor) tc) as [l|] eqn:Hl; [|done].
  cbn [mbind Res_bind orThrow] in H. unfold deref at 1 in H.
  destruct (GameState.cellStore g !! l) as [c|] eqn:Hc; [|done].
  cbn [mbind Res_bind orThrow] in H.
  destruct (Z.gtb_spec (Cell.bullets c) 0) as [Hb|Hb]; [|left; by simplify_eq].
  destruct (playerAt g tp) as [target|] eqn:Ht; [|done].
  clear H. right.
  destruct (shoot_lands_state g tp tc actor l c target Hwf Ha Hroll Hl Hc
              ltac:(lia) Ht)
    as (g'' & t' & Hshoot' & Hstore & _ & Ht' & Hcells & _ & _ & _ & _ & Hrest).
  rewrite Hshoot in Hshoot'. injection Hshoot' as <-.
  assert (Htp : GameState.players g !! Z.to_nat tp = Some target).
  { unfold playerAt in Ht. by destruct (tp <? 0). }
  exists actor, l, c. repeat (split; [done || lia|]).
  intros i q' Hq'. destruct (decide (i = Z.to_nat tp)) as [->|Hne].
  - exists target. split; [done|]. congruence.
  - destruct (Hrest i q' Hne Hq') as (q & Hq & Hcq & _). eauto.
Qed.

Lemma unshared_same g g' :
  GameState.players g' = GameState.players g →
  GameState.cellStore g' = GameState.cellStore g →
  unshared g → unshared g'.
Proof. unfold unshared, slotRef. intros -> ->. done. Qed.

(** An update of cells in place that keeps each of them as active as it was. *)
Lemma unshared_in_place g g' :
  (∀ i q', GameState.players g' !! i = Some q' →
     ∃ q, GameState.players g !! i = Some q ∧ GamePlayer.cells q' = GamePlayer.cells q) →
  (∀ l c', GameState.cellStore g' !! l = Some c' → Cell.isActive c' = true →
     ∃ c, GameState.cellStore g !! l = Some c ∧ Cell.isActive c = true) →
  unshared g → unshared g'.
Proof.
  intros Hps Hst Hun i k j m l c' (q1' & Hq1 & Hk) (q2' & Hq2 & Hm) Hc' Hact.
  destruct (Hps _ _ Hq1) as (q1 & Hq1g & Hc1). rewrite Hc1 in Hk.
  destruct (Hps _ _ Hq2) as (q2 & Hq2g & Hc2). rewrite Hc2 in Hm.
  destruct (Hst _ _ Hc' Hact) as (c & Hc & Hactc).
  apply (Hun i k j m l c); unfold slotRef; eauto.
Qed.

(** A new object stored in one slot. *)
Lemma unshared_alloc g g' i0 k0 :
  wf g →
  (∀ i q', GameState.players g' !! i = Some q' →
     ∃ q, GameState.players g !! i = Some q ∧
       GamePlayer.cells q' =
         if decide (i = i0)
         then <[k0 := Some (length (GameState.cellStore g))]> (GamePlayer.cells q)
         else GamePlayer.cells q) →
  (∀ l c', GameState.cellStore g' !! l = Some c' → Cell.isActive c' = true →
     l = length (GameState.cellStore g) ∨
     ∃ c, GameState.cellStore g !! l = Some c ∧ Cell.isActive c = true) →
  unshared g → unshared g'.
Proof.
  intros Hwf Hps Hst Hun.
  assert (Href : ∀ i k l, slotRef g' i k l →
            (i = i0 ∧ k = k0 ∧ l = length (GameState.cellStore g)) ∨
            (slotRef g i k l ∧ (l < length (GameState.cellStore g))%nat)).
  { intros i k l (q' & Hq' & Hk).
    destruct (Hps _ _ Hq') as (q & Hq & Hc). rewrite Hc in Hk.
    destruct (wf_lookup _ _ _ Hwf Hq) as [_ Hslots].
    assert (Hold : GamePlayer.cells q !! k = Some (Some l) →
              slotRef g i k l ∧ (l < length (GameState.cellStore g))%nat).
    { intros Hk0. split; [by exists q|].
      rewrite Forall_forall in Hslots.
      destruct (Hslots (Some l)) as (l0 & Hl0 & Hlt); [by eapply list_elem_of_lookup_2|].
      by simplify_eq. }
    destruct (decide (i = i0)) as [->|Hi]; [|by right; auto].
    destruct (decide (k0 = k)) as [->|Hkk].
    - left. pose proof (lookup_lt_Some _ _ _ Hk) as Hlt.
      rewrite length_insert in Hlt.
      rewrite list_lookup_insert_eq in Hk by done. by simplify_eq.
    - rewrite list_lookup_insert_ne in Hk by done. right; auto. }
  intros i k j m l c' Hr1 Hr2 Hc' Hact.
  destruct (Href _ _ _ Hr1) as [(-> & -> & ->)|[Hr1g Hlt1]];
    destruct (Href _ _ _ Hr2) as [(-> & -> & Heq)|[Hr2g Hlt2]]; try done; try lia.
  destruct (Hst _ _ Hc' Hact) as [->|(c & Hc & Hactc)]; [lia|].
  by apply (Hun i k j m l c).
Qed.

Lemma roll_unshared g value g' :
  wf g →
  roll g value = Ok g' → unshared g → unshared g'.
Proof.
  intros Hwf H Hun.
  destruct (GameState.players g !! GameState.currentPlayer g) as [p|] eqn:Hp.
  2: { unfold roll in H. simpl in H. by rewrite Hp in H. }
  destruct (roll_shape _ _ _ _ Hp H)
    as [[Hps Hst]|(l & cell & Hl & Hcell & [(Hact & Hst & Hps)|(Hact & (f & Hf & Hst) & Hps)])].
  - by apply (unshared_same g).
  - apply (unshared_alloc g g' (GameState.currentPlayer g) (Z.to_nat (value - 1)));
      [done|done| |done].
    intros l0 c' Hc' Hact'. rewrite Hst in Hc'.
    destruct (decide (l0 < length (GameState.cellStore g))%nat) as [Hlt|Hge].
    + right. rewrite lookup_app_l in Hc' by done. eauto.
    + left. apply lookup_lt_Some in Hc'. rewrite length_app in Hc'. simpl in Hc'. lia.
  - apply (unshared_in_place g); [done| |done].
    intros l0 c' Hc' Hact'. rewrite Hst in Hc'.
    rewrite list_lookup_alter in Hc'.
    destruct (decide (l = l0)) as [<-|Hne]; [|eauto].
    rewrite Hcell in Hc'. simpl in Hc'. simplify_eq.
    exists cell. split; [done|]. by rewrite <- Hf.
Qed.

Lemma shoot_unshared g tp tc g' :
  wf g →
  shoot g tp tc = Ok g' → unshared g → unshared g'.
Proof.
  intros Hwf H Hun.
  destruct (shoot_shape _ _ _ _ Hwf H)
    as [->|(actor & l & c & Ha & Hl & Hc & Hb & Hst & Hps)]; [done|].
  apply (unshared_alloc g g' (Z.to_nat tp) (Z.to_nat tc)); [done|done| |done].
  intros l0 c' Hc' Hact'. rewrite Hst in Hc'.
  destruct (decide (l0 < length (GameState.cellStore g))%nat) as [Hlt|Hge].
  - right. destruct (lookup_lt_is_Some_2 _ _ Hlt) as [c0 Hc0].
    exists c0. split; [done|].
    destruct (decide (l = l0)) as [<-|Hne].
    + rewrite list_lookup_alter_eq, lookup_app_l, Hc0 in Hc' by done.
      simpl in Hc'. by simplify_eq.
    + rewrite list_lookup_alter_ne, lookup_app_l, Hc0 in Hc' by done.
      by simplify_eq.
  - left. apply lookup_lt_Some in Hc'.
    rewrite length_alter, length_app in Hc'. simpl in Hc'. lia.
Qed.

Lemma reachable_unshared g ended : reachable g ended → unshared g.
Proof.
  induction 1 as [roster Hne|g action data r Hreach IH Hr].
  - intros i k j m l c _ _ Hc Hact. simpl in Hc.
    apply lookup_replicate in Hc as [-> _]. done.
  - pose proof (reachable_wf _ _ Hreach) as Hwf.
    unfold processGameAction in Hr. inv_bind. rename x into g', H into Happ.
    apply endOfAction_spec in Hr as (Hps & _ & _ & Hstore & _).
    apply (unshared_same g'); [done|done|].
    unfold applyAction in Happ. repeat case_match.
    + by eapply roll_unshared.
    + by eapply shoot_unshared.
    + apply emote_frame in Happ as (_ & Hsame & _ & Hst). by apply (unshared_same g).
    + by simplify_eq.
Qed.

(** X12: the slots that [Array(n).fill] makes share one object never share an
    object that gets updated: in every state of a game, an active cell object
    is referred to from exactly one slot of one player. *)
Theorem active_cells_are_not_shared g ended i p k j q m l c :
  reachable g ended →
  GameState.players g !! i = Some p →
  GamePlayer.cells p !! k = Some (Some l) →
  GameState.players g !! j = Some q →
  GamePlayer.cells q !! m = Some (Some l) →
  GameState.cellStore g !! l = Some c →
  Cell.isActive c = true →
  i = j ∧ k = m.
Proof.
  intros Hreach Hp Hk Hq Hm Hc Hact.
  apply (reachable_unshared _ _ Hreach i k j m l c); unfold slotRef; eauto.
Qed.

Lemma active_cells_are_not_shared_witness : 0%nat = 0%nat ∧ 0%nat = 0%nat.
Proof.
  apply (active_cells_are_not_shared loadedGame false
           0%nat (GamePlayer.mk "s-alice" "alice" "#3B82F6" false false
                    [Some 2%nat; Some 0%nat] (Stats.mk 0 0 0)) 0%nat
           0%nat (GamePlayer.mk "s-alice" "alice" "#3B82F6" false false
                    [Some 2%nat; Some 0%nat] (Stats.mk 0 0 0)) 0%nat
           2%nat (Cell.mk 6 true 5)).
  - apply (playMoves_reachable loadedMoves (initializeGameState [alice; bob]));
      [by apply reachable_init|vm_compute; reflexivity].
  - vm_compute. reflexivity.
  - reflexivity.
  - vm_compute. reflexivity.
  - reflexivity.
  - vm_compute. reflexivity.
  - reflexivity.
Defined.

Lemma cellOf_same_slot g g' p p' k :
  wfPlayer g p →
  (∀ l c, (l < length (GameState.cellStore g))%nat →
     JsArray.get (GamePlayer.cells p) k = Some l →
     GameState.cellStore g !! l = Some c →
     GameState.cellStore g' !! l = Some c) →
  JsArray.get (GamePlayer.cells p') k = JsArray.get (GamePlayer.cells p) k →
  cellOf g' p' k = cellOf g p k.
Proof.
  intros [_ Hslots] Hst Hget. unfold cellOf. rewrite Hget.
  destruct (JsArray.get (GamePlayer.cells p) k) as [l|] eqn:Hl; [|done]. simpl.
  apply JsArray_get_Some in Hl as Hl'. destruct Hl' as [_ Hl'].
  rewrite Forall_forall in Hslots.
  destruct (Hslots (Some l)) as (l0 & Hl0 & Hlt); [by eapply list_elem_of_lookup_2|].
  simplify_eq. destruct (lookup_lt_is_Some_2 _ _ Hlt) as [c Hc].
  rewrite Hc. by eapply Hst.
Qed.

Lemma JsArray_get_insert_ne {A} (a : list (option A)) (n : nat) (v : option A) (k : Z) :
  k ≠ Z.of_nat n → JsArray.get (<[n := v]> a) k = JsArray.get a k.
Proof.
  intros Hne. unfold JsArray.get. destruct (Z.ltb_spec k 0); [done|].
  rewrite list_lookup_insert_ne by lia. done.
Qed.

(** X13: an action touches no cell but its own.  A roll can change only the
    cell of the player to move that the die names; a shot only the target's
    cell and the shooter's cell at the index aimed at; every other cell of
    every player reads the same afterwards, although slots share objects. *)
Theorem action_touches_only_its_cells g action data r i p p' k :
  reachable g false →
  processGameAction g action data = Ok r →
  GameState.players g !! i = Some p →
  GameState.players (ActionResult.gameState r) !! i = Some p' →
  (action = "roll" →
     ¬ (i = GameState.currentPlayer g ∧ k = ActionData.value data - 1)) →
  (action = "shoot" →
     ¬ (k = ActionData.targetCell data ∧
        (i = GameState.currentPlayer g ∨ i = Z.to_nat (ActionData.targetPlayer data)))) →
  cellOf (ActionResult.gameState r) p' k = cellOf g p k.
Proof.
  intros Hreach Hr Hp Hp' Hroll Hshoot.
  pose proof (reachable_wf _ _ Hreach) as Hwf.
  pose proof (reachable_unshared _ _ Hreach) as Hun.
  pose proof (reachable_cellOk _ _ Hreach) as Hok.
  pose proof (wf_lookup _ _ _ Hwf Hp) as Hwfp.
  unfold processGameAction in Hr. inv_bind. rename x into g', H into Happ.
  apply endOfAction_spec in Hr as (Hps & _ & _ & Hstore & _).
  rewrite Hps in Hp'.
  rewrite (cellOf_ext g' (ActionResult.gameState r) p' p' k) by done.
  clear Hps Hstore r.
  unfold applyAction in Happ. repeat case_match.
  - (* roll *)
    apply String.eqb_eq in H as ->. specialize (Hroll eq_refl).
    destruct (GameState.players g !! GameState.currentPlayer g) as [actor|] eqn:Ha.
    2: { unfold roll in Happ. simpl in Happ. by rewrite Ha in Happ. }
    destruct (roll_shape _ _ _ _ Ha Happ)
      as [[Hps Hst]|(l & cell & Hl & Hcell &
                     [(Hact & Hst & Hps)|(Hact & (f & Hf & Hst) & Hps)])].
    + rewrite Hps in Hp'. simplify_eq. by apply cellOf_ext.
    + destruct (Hps _ _ Hp') as (q & Hq & Hc). simplify_eq.
      apply cellOf_same_slot; [done| |].
      * intros l0 c Hlt _ Hc0. rewrite Hst. by apply lookup_app_l_Some.
      * rewrite Hc. destruct (decide (i = GameState.currentPlayer g)) as [->|]; [|done].
        apply JsArray_get_Some in Hl as [Hv _].
        apply JsArray_get_insert_ne. rewrite Z2Nat.id by done. intros ->. by apply Hroll.
    + destruct (Hps _ _ Hp') as (q & Hq & Hc). simplify_eq.
      apply cellOf_same_slot; [done| |by rewrite Hc].
      intros l0 c Hlt Hl0 Hc0. rewrite Hst.
      rewrite list_lookup_alter_ne; [done|]. intros <-.
      apply JsArray_get_Some in Hl as [Hv Hl].
      apply JsArray_get_Some in Hl0 as [Hk Hl0].
      destruct (Hun (GameState.currentPlayer g) (Z.to_nat (ActionData.value data - 1))
                  i (Z.to_nat k) l cell) as [Heq1 Heq2]; unfold slotRef; eauto.
      apply Hroll. split; [done|]. lia.
  - (* shoot *)
    apply String.eqb_eq in H0 as ->. specialize (Hshoot eq_refl).
    destruct (shoot_shape _ _ _ _ Hwf Happ)
      as [->|(actor & l & c & Ha & Hl & Hc & Hb & Hst & Hps)].
    { simplify_eq. done. }
    destruct (Hps _ _ Hp') as (q & Hq & Hcq). simplify_eq.
    apply JsArray_get_Some in Hl as [Htc Hl].
    apply cellOf_same_slot; [done| |].
    + intros l0 c0 Hlt Hl0 Hc0. rewrite Hst.
      rewrite list_lookup_alter_ne; [by apply lookup_app_l_Some|]. intros <-.
      apply JsArray_get_Some in Hl0 as [Hk Hl0].
      assert (Hact : Cell.isActive c = true).
      { rewrite Forall_forall in Hok.
        destruct (Hok c) as (_ & _ & Hact & Hsix); [by eapply list_elem_of_lookup_2|].
        apply Hact. rewrite Hsix; lia. }
      destruct (Hun (GameState.currentPlayer g) (Z.to_nat (ActionData.targetCell data))
                  i (Z.to_nat k) l c) as [Heq1 Heq2]; unfold slotRef; eauto.
      apply Hshoot. split; [lia|by left].
    + rewrite Hcq.
      destruct (decide (i = Z.to_nat (ActionData.targetPlayer data))) as [->|]; [|done].
      apply JsArray_get_insert_ne. rewrite Z2Nat.id by done. intros ->.
      apply Hshoot. split; [done|by right].
  - apply emote_frame in Happ as (_ & Hsame & _ & Hst).
    rewrite Hsame in Hp'. simplify_eq. by apply cellOf_ext.
  - by simplify_eq.
Qed.

Lemma action_touches_only_its_cells_witness :
  ∃ r p',
    processGameAction loadedGame "shoot" (shootData 1 0) = Ok r ∧
    GameState.players (ActionResult.gameState r) !! 1%nat = Some p' ∧
    cellOf (ActionResult.gameState r) p' 1 = Some (Cell.mk 0 false 0).
Proof.
  assert (Hr : ∃ r p', processGameAction loadedGame "shoot" (shootData 1 0) = Ok r ∧
                       GameState.players (ActionResult.gameState r) !! 1%nat = Some p')
    by (eexists _, _; split; vm_compute; reflexivity).
  destruct Hr as (r & p' & Hr & Hp').
  exists r, p'. split; [exact Hr|]. split; [exact Hp'|].
  rewrite (action_touches_only_its_cells loadedGame "shoot" (shootData 1 0) r 1%nat
             (GamePlayer.mk "s-bob" "bob" "#EF4444" false false
                [Some 3%nat; Some 1%nat] (Stats.mk 0 0 0)) p' 1).
  - vm_compute. reflexivity.
  - apply (playMoves_reachable loadedMoves (initializeGameState [alice; bob]));
      [by apply reachable_init|vm_compute; reflexivity].
  - exact Hr.
  - vm_compute. reflexivity.
  - exact Hp'.
  - intros H. discriminate H.
  - intros _ [H _]. discriminate H.
Defined.

(** * Further properties of the server *)

(** ** The directory as a map *)

Lemma mapGet_None k m : mapGet k m = None ↔ k ∉ m.*1.
Proof.
  unfold mapGet. induction m as [|[k' v'] m IH]; simpl.
  - split; [intros _; apply not_elem_of_nil|done].
  - rewrite not_elem_of_cons. destruct (String.eqb_spec k' k) as [->|Hne]; simpl.
    + split; [done|]. intros [? _]. done.
    + rewrite IH. split; [intros ?; split; [congruence|done]|by intros [_ ?]].
Qed.

Lemma mapGet_Some_key k m r : mapGet k m = Some r → k ∈ m.*1.
Proof.
  intros H. apply mapGet_elem in H.
  apply list_elem_of_fmap. by exists (k, r).
Qed.

Lemma mapSet_absent k v m : mapGet k m = None → mapSet k v m = m ++ [(k, v)].
Proof.
  unfold mapGet. induction m as [|[k' v'] m IH]; simpl; [done|].
  destruct (String.eqb k' k); simpl; [done|]. intros H. by rewrite IH.
Qed.

Lemma mapSet_keys k v m : k ∈ m.*1 → (mapSet k v m).*1 = m.*1.
Proof.
  induction m as [|[k' v'] m IH]; simpl.
  - by intros ?%elem_of_nil.
  - destruct (String.eqb_spec k' k) as [->|Hne]; simpl; [done|].
    intros [?|Hin]%elem_of_cons; [congruence|]. f_equal. by apply IH.
Qed.

Lemma mapSet_NoDup k v m : NoDup m.*1 → NoDup (mapSet k v m).*1.
Proof.
  intros Hnd. destruct (mapGet k m) as [r|] eqn:Hget.
  - rewrite mapSet_keys; [done|]. by eapply mapGet_Some_key.
  - rewrite mapSet_absent by done. rewrite fmap_app. simpl.
    apply NoDup_app. split; [done|]. split; [|apply NoDup_singleton].
    intros x Hx ->%list_elem_of_singleton. by apply mapGet_None in Hget.
Qed.

Lemma mapDelete_keys k m x : x ∈ (mapDelete k m).*1 → x ∈ m.*1 ∧ x ≠ k.
Proof.
  unfold mapDelete. induction m as [|[k' v'] m IH]; simpl; [by intros ?%elem_of_nil|].
  destruct (String.eqb_spec k' k) as [->|Hne]; simpl.
  - intros [? ?]%IH. split; [by apply list_elem_of_further|done].
  - intros [->|Hin]%elem_of_cons.
    + split; [apply list_elem_of_here|done].
    + destruct (IH Hin). split; [by apply list_elem_of_further|done].
Qed.

Lemma mapDelete_NoDup k m : NoDup m.*1 → NoDup (mapDelete k m).*1.
Proof.
  unfold mapDelete. induction m as [|[k' v'] m IH]; simpl; [done|].
  intros [Hnotin Hnd]%NoDup_cons.
  destruct (String.eqb k' k); simpl; [by apply IH|].
  apply NoDup_cons. split; [|by apply IH].
  intros Hin. by apply (mapDelete_keys k m k') in Hin as [? _].
Qed.

Lemma Forall_mapSet (P : string * Room.t → Prop) k v m :
  P (k, v) → Forall P m → Forall P (mapSet k v m).
Proof.
  intros Hv. induction 1 as [|[k' v'] m Hx Hm IH]; simpl.
  - by repeat constructor.
  - destruct (String.eqb k' k); constructor; done.
Qed.

Lemma Forall_mapDelete (P : string * Room.t → Prop) k m :
  Forall P m → Forall P (mapDelete k m).
Proof.
  unfold mapDelete. induction 1 as [|[k' v'] m Hx Hm IH]; simpl; [done|].
  destruct (negb (String.eqb k' k)); [constructor|]; done.
Qed.

Lemma mapGet_mapSet_ne k k' v m : k ≠ k' → mapGet k (mapSet k' v m) = mapGet k m.
Proof.
  intros Hne. unfold mapGet. induction m as [|[k0 v0] m IH]; simpl.
  - apply String.eqb_neq in Hne. rewrite String.eqb_sym in Hne. by rewrite Hne.
  - destruct (String.eqb_spec k0 k') as [->|Hne0]; simpl.
    + destruct (String.eqb_spec k' k) as [->|_]; [done|]. done.
    + destruct (String.eqb k0 k); [done|]. apply IH.
Qed.

Lemma mapGet_mapDelete_ne k k' m : k ≠ k' → mapGet k (mapDelete k' m) = mapGet k m.
Proof.
  intros Hne. unfold mapGet, mapDelete. induction m as [|[k0 v0] m IH]; simpl; [done|].
  destruct (String.eqb_spec k0 k') as [->|Hne0]; simpl.
  - destruct (String.eqb_spec k' k) as [->|_]; [done|]. apply IH.
  - destruct (String.eqb k0 k); [done|]. apply IH.
Qed.

Lemma mapGet_mapDelete_eq k m : mapGet k (mapDelete k m) = None.
Proof.
  apply mapGet_None. intros Hin. by apply mapDelete_keys in Hin as [_ ?].
Qed.

Lemma mapGet_NoDup_elem k r m : NoDup m.*1 → (k, r) ∈ m → mapGet k m = Some r.
Proof.
  unfold mapGet. induction m as [|[k' v'] m IH]; simpl; [by intros _ ?%elem_of_nil|].
  intros [Hnotin Hnd]%NoDup_cons [Heq|Hin]%elem_of_cons.
  - simplify_eq. by rewrite String.eqb_refl.
  - destruct (String.eqb_spec k' k) as [->|Hne]; simpl; [|by apply IH].
    exfalso. apply Hnotin. apply list_elem_of_fmap. by exists (k, r).
Qed.

Lemma mapSet_same k r m : mapGet k m = Some r → mapSet k r m = m.
Proof.
  unfold mapGet. induction m as [|[k' v'] m IH]; simpl; [done|].
  destruct (String.eqb_spec k' k) as [->|Hne]; simpl.
  - by intros [= ->].
  - intros H. by rewrite IH.
Qed.

Lemma mapSet_mapSet k v v' m : mapSet k v (mapSet k v' m) = mapSet k v m.
Proof.
  induction m as [|[k0 v0] m IH]; simpl.
  - by rewrite String.eqb_refl.
  - destruct (String.eqb_spec k0 k) as [->|Hne]; simpl.
    + by rewrite String.eqb_refl.
    + apply String.eqb_neq in Hne. by rewrite Hne, IH.
Qed.

(** [generateRoomId] returns a drawn code that no room has. *)
Lemma generateRoomId_fresh draws rooms roomId :
  generateRoomId draws rooms = Ok roomId →
  roomId ∈ draws ∧ mapGet roomId rooms = None.
Proof.
  induction draws as [|d draws IH]; simpl; [done|].
  unfold mapHas. destruct (mapGet d rooms) as [r|] eqn:Hd.
  - rewrite bool_decide_eq_true_2 by eauto.
    intros [? ?]%IH. split; [by apply list_elem_of_further|done].
  - rewrite bool_decide_eq_false_2 by (by intros [? ?]).
    intros [= <-]. split; [apply list_elem_of_here|done].
Qed.

(** ** The invariant of the directory *)

Lemma dirOk_mapSet k v rooms :
  Room.id v = k → roomOk v → dirOk rooms → dirOk (mapSet k v rooms).
Proof.
  intros Hid Hv [Hnd Hall]. split; [by apply mapSet_NoDup|].
  by apply Forall_mapSet.
Qed.

Lemma dirOk_mapDelete k rooms : dirOk rooms → dirOk (mapDelete k rooms).
Proof.
  intros [Hnd Hall]. split; [by apply mapDelete_NoDup|by apply Forall_mapDelete].
Qed.

Lemma dirOk_get rooms k r :
  dirOk rooms → mapGet k rooms = Some r → Room.id r = k ∧ roomOk r.
Proof.
  intros [_ Hall] Hget. apply mapGet_elem in Hget.
  rewrite Forall_forall in Hall. apply (Hall (k, r) Hget).
Qed.

Lemma rosterOk_nonempty leader players : rosterOk leader players → players ≠ [].
Proof. intros (first & others & -> & _). done. Qed.

Lemma rosterOk_snoc leader players p :
  LobbyPlayer.isLeader p = false →
  rosterOk leader players → rosterOk leader (players ++ [p]).
Proof.
  intros Hp (first & others & -> & Hid & Hl & Hrest).
  exists first, (others ++ [p]). repeat split; try done.
  apply Forall_app. split; [done|]. by constructor.
Qed.

Lemma rosterOk_alter leader players f i :
  (∀ p, LobbyPlayer.id (f p) = LobbyPlayer.id p ∧
        LobbyPlayer.isLeader (f p) = LobbyPlayer.isLeader p) →
  rosterOk leader players → rosterOk leader (alter f i players).
Proof.
  intros Hf (first & others & -> & Hid & Hl & Hrest).
  destruct i as [|i]; simpl.
  - exists (f first), others. destruct (Hf first) as [-> ->]. done.
  - exists first, (alter f i others). repeat split; try done.
    apply Forall_alter; [done|]. intros p _ Hp. by destruct (Hf p) as [_ ->].
Qed.

(** The roster after a player has left, when somebody is left. *)
Lemma rosterOk_leave socketId leader players i player first others :
  rosterOk leader players →
  list_find (hasId socketId) players = Some (i, player) →
  delete i players = first :: others →
  (leader = socketId →
     rosterOk (LobbyPlayer.id first) (LobbyPlayer.set_isLeader true first :: others)) ∧
  (leader ≠ socketId → rosterOk leader (first :: others)).
Proof.
  intros (head & rest & -> & Hid & Hl & Hrest) Hfind Hdel.
  apply list_find_Some in Hfind as (Hi & Hp & Hmin).
  split.
  - intros ->. destruct i as [|i].
    + simpl in Hdel. subst rest. apply Forall_cons in Hrest as [_ Hrest].
      exists (LobbyPlayer.set_isLeader true first), others. done.
    + exfalso. apply (Hmin 0%nat head); [done|lia|done].
  - intros Hne. destruct i as [|i].
    + simpl in Hi. by simplify_eq.
    + simpl in Hdel. simplify_eq.
      exists first, (delete i rest). repeat split; try done.
      by apply Forall_delete.
Qed.

Lemma roomOk_started_game r :
  roomOk r → Room.started r = true →
  ∃ gs cp, Room.gameState r = Some gs ∧
           GameState.players gs !! GameState.currentPlayer gs = Some cp ∧ wf gs.
Proof.
  intros (_ & _ & Hst & Hwf & _) Hs. apply Hst in Hs as [gs Hgs].
  pose proof (Hwf gs Hgs) as Hw. destruct Hw as [Hcur Hps].
  destruct (lookup_lt_is_Some_2 _ _ Hcur) as [cp Hcp].
  exists gs, cp. repeat split; done.
Qed.

(** Splits [roomOk] of a room into its five parts. *)
Ltac split_roomOk :=
  unfold roomOk; simpl; split; [|split; [|split; [|split]]].

(** A room whose game is (re)started from its roster. *)
Lemma roomOk_start r :
  roomOk r →
  roomOk (Room.set_gameState (Some (initializeGameState (Room.players r)))
            (Room.set_started true r)).
Proof.
  intros (Hro & Hsz & Hst & Hwf & Hq). split_roomOk; try done.
  intros gs [= <-]. apply wf_init. by eapply rosterOk_nonempty.
Qed.

Lemma leaveStep_dirOk socketId rooms effects entry :
  entryOk entry → dirOk rooms →
  dirOk (leaveStep socketId (rooms, effects) entry).1.
Proof.
  intros [Hid (Hro & Hsz & Hst & Hwf & Hq)] Hrooms.
  destruct entry as [roomId room]. simpl in *.
  destruct (list_find (hasId socketId) (Room.players room)) as [[i player]|] eqn:Hfind;
    [|done].
  destruct (delete i (Room.players room)) as [|first others] eqn:Hdel; simpl.
  - by apply dirOk_mapDelete.
  - destruct (rosterOk_leave _ _ _ _ _ _ _ Hro Hfind Hdel) as [Hlead Hother].
    assert (Hlen : Z.of_nat (length (first :: others)) <= Z.max 1 (Room.maxPlayers room)).
    { rewrite <- Hdel. pose proof (length_delete (Room.players room) i) as Hld.
      apply list_find_Some in Hfind as (Hi & _).
      rewrite Hld by eauto. lia. }
    destruct (String.eqb_spec (Room.leader room) socketId) as [Heq|Hne]; simpl;
      apply dirOk_mapSet; try done; split_roomOk; auto.
Qed.

Lemma leaveRoom_dirOk socketId entries : ∀ rooms effects,
  Forall entryOk entries → dirOk rooms →
  dirOk (foldl (leaveStep socketId) (rooms, effects) entries).1.
Proof.
  induction entries as [|entry entries IH]; intros rooms effects Hentries Hrooms;
    cbn [foldl]; [done|].
  apply Forall_cons in Hentries as [Hentry Hentries].
  pose proof (leaveStep_dirOk socketId rooms effects entry Hentry Hrooms) as H1.
  destruct (leaveStep socketId (rooms, effects) entry) as [rooms1 effects1].
  by apply IH.
Qed.

(** Every handler keeps the invariant. *)
Lemma handle_dirOk draws socketId ev rooms rooms' effects :
  dirOk rooms →
  handle draws socketId ev rooms = Ok (rooms', effects) →
  dirOk rooms'.
Proof.
  intros Hinv H. destruct ev; simpl in H.
  - (* quickMatch *)
    unfold findOrCreateQuickMatch in H.
    destruct (list_find quickMatchOpen rooms) as [[i [roomId room]]|] eqn:Hfind.
    + apply list_find_elem in Hfind as [Hin Hopen].
      destruct Hinv as [Hnd Hall].
      pose proof (proj1 (Forall_forall _ _) Hall _ Hin) as [Hid Hroom].
      simpl in Hid, Hroom.
      destruct Hopen as (Hquick & Hns & Hlt). simpl in Hquick, Hns, Hlt.
      set (room1 := Room.set_players _ room) in *.
      assert (Hroom1 : roomOk room1).
      { destruct Hroom as (Hro & Hsz & Hst & Hwf & Hq). unfold room1.
        split_roomOk; auto.
        - by apply rosterOk_snoc.
        - rewrite length_app. simpl. lia. }
      destruct (_ =? _); simplify_eq.
      * apply dirOk_mapSet; [done| |done]. by apply roomOk_start.
      * by apply dirOk_mapSet.
    + inv_bind. simplify_eq.
      apply dirOk_mapSet; [done| |done].
      split_roomOk; try done.
      by eexists _, [].
  - (* createRoom *)
    unfold onCreateRoom in H. inv_bind. simplify_eq.
    apply dirOk_mapSet; [done| |done].
    split_roomOk; try done.
    + by eexists _, [].
    + lia.
  - (* joinRoom *)
    unfold onJoinRoom in H.
    destruct (mapGet roomId rooms) as [room|] eqn:Hroom; [|by simplify_eq].
    destruct (dirOk_get _ _ _ Hinv Hroom) as [Hid (Hro & Hsz & Hst & Hwf & Hq)].
    destruct (_ && _); [by simplify_eq|].
    destruct (Z.geb_spec (Z.of_nat (length (Room.players room))) (Room.maxPlayers room));
      [by simplify_eq|].
    destruct (Room.started room) eqn:Hs; simplify_eq; [done|].
    apply dirOk_mapSet; [done| |done].
    split_roomOk; auto.
    + by apply rosterOk_snoc.
    + rewrite length_app. simpl. lia.
    + by rewrite Hs.
  - (* toggleReady *)
    unfold onToggleReady in H.
    destruct (mapGet roomId rooms) as [room|] eqn:Hroom; [|by simplify_eq].
    destruct (dirOk_get _ _ _ Hinv Hroom) as [Hid (Hro & Hsz & Hst & Hwf & Hq)].
    destruct (list_find _ _) as [[i player]|]; simplify_eq; [|done].
    apply dirOk_mapSet; [done| |done].
    split_roomOk; auto.
    + by apply rosterOk_alter.
    + by rewrite length_alter.
  - (* startGame *)
    unfold onStartGame in H.
    destruct (mapGet roomId rooms) as [room|] eqn:Hroom; [|by simplify_eq].
    destruct (dirOk_get _ _ _ Hinv Hroom) as [Hid Hok].
    repeat case_match; simplify_eq; try done.
    apply dirOk_mapSet; [done| |done]. by apply roomOk_start.
  - (* gameAction *)
    unfold onGameAction in H.
    destruct (mapGet roomId rooms) as [room|] eqn:Hroom; [|by simplify_eq].
    destruct (dirOk_get _ _ _ Hinv Hroom) as [Hid (Hro & Hsz & Hst & Hwf & Hq)].
    destruct (negb (Room.started room)); [by simplify_eq|].
    inv_bind. destruct (negb (String.eqb (GamePlayer.id x0) socketId)); [by simplify_eq|].
    inv_bind. simplify_eq.
    apply dirOk_mapSet; [done| |done].
    split_roomOk; auto.
    + split; [intros _; by eexists|]. intros _. apply Hst. by eexists.
    + intros gs [= <-]. eapply processGameAction_wf; [|done]. by apply Hwf.
  - (* sendEmote *)
    unfold onSendEmote in H.
    destruct (mapGet roomId rooms) as [room|]; [|by simplify_eq].
    destruct (list_find _ _) as [[i player]|]; by simplify_eq.
  - (* leaveRoom *)
    injection H as Hleave. unfold onLeaveRoom in Hleave.
    pose proof (leaveRoom_dirOk socketId rooms rooms [] (proj2 Hinv) Hinv) as H2.
    by rewrite Hleave in H2.
  - (* disconnect *)
    by simplify_eq.
Qed.

Lemma reachableRooms_dirOk rooms : reachableRooms rooms → dirOk rooms.
Proof.
  induction 1 as [|rooms draws socketId ev rooms' effects _ IH H].
  - split; [apply NoDup_nil_2|constructor].
  - by eapply handle_dirOk.
Qed.

(** ** What holds of every room *)

Lemma aliceAlone_reachable : reachableRooms aliceAlone.
Proof.
  eapply (reachable_handle [] ["123456"] "s-alice"
            (createRoom 4 (PwString "secret") "alice"));
    [apply reachable_start|reflexivity].
Qed.

Lemma aliceStarted_reachable : reachableRooms aliceStarted.
Proof.
  eapply (reachable_handle aliceAlone [] "s-alice" (startGame "123456"));
    [apply aliceAlone_reachable|reflexivity].
Qed.

(** X14: every room of the directory is filed under its own code: the entry
    for a code holds the room whose [id] is that code, and looking the code
    up yields that room. *)
Theorem rooms_are_filed_under_their_code rooms k r :
  reachableRooms rooms →
  (k, r) ∈ rooms →
  Room.id r = k ∧ mapGet k rooms = Some r.
Proof.
  intros Hreach Hin. destruct (reachableRooms_dirOk _ Hreach) as [Hnd Hall].
  split; [|by apply mapGet_NoDup_elem].
  rewrite Forall_forall in Hall. by destruct (Hall _ Hin) as [Hid _].
Qed.

Lemma rooms_are_filed_under_their_code_witness :
  mapGet "123456" aliceAlone =
    Some (Room.mk "123456" "s-alice" (PwString "secret") 4 false
            [LobbyPlayer.mk "s-alice" "alice" true true "#3B82F6"] None false).
Proof.
  apply (rooms_are_filed_under_their_code aliceAlone "123456").
  - apply aliceAlone_reachable.
  - apply list_elem_of_here.
Defined.

(** X15: in every room the leader is the first player of the roster: the
    first entry has the leader's connection id and is flagged [isLeader], no
    other entry is flagged.  In particular a room in the directory is never
    empty. *)
Theorem leader_heads_the_roster rooms k r :
  reachableRooms rooms →
  mapGet k rooms = Some r →
  ∃ first others,
    Room.players r = first :: others ∧
    LobbyPlayer.id first = Room.leader r ∧
    LobbyPlayer.isLeader first = true ∧
    Forall (fun p => LobbyPlayer.isLeader p = false) others.
Proof.
  intros Hreach Hget.
  destruct (dirOk_get _ _ _ (reachableRooms_dirOk _ Hreach) Hget) as [_ [Hro _]].
  exact Hro.
Qed.

Lemma leader_heads_the_roster_witness :
  ∃ first others,
    [LobbyPlayer.mk "s-alice" "alice" true true "#3B82F6"] = first :: others ∧
    LobbyPlayer.id first = "s-alice" ∧
    LobbyPlayer.isLeader first = true ∧
    Forall (fun p => LobbyPlayer.isLeader p = false) others.
Proof.
  apply (leader_heads_the_roster aliceAlone "123456"
           (Room.mk "123456" "s-alice" (PwString "secret") 4 false
              [LobbyPlayer.mk "s-alice" "alice" true true "#3B82F6"] None false)).
  - apply aliceAlone_reachable.
  - reflexivity.
Defined.

(** X16: a roster never outgrows its room: it has at most [maxPlayers]
    entries, or one entry when the room was created with [maxPlayers] below
    1; a quick-match room has at most four players. *)
Theorem roster_within_capacity rooms k r :
  reachableRooms rooms →
  mapGet k rooms = Some r →
  Z.of_nat (length (Room.players r)) <= Z.max 1 (Room.maxPlayers r) ∧
  (Room.isQuickMatch r = true → (length (Room.players r) ≤ 4)%nat).
Proof.
  intros Hreach Hget.
  destruct (dirOk_get _ _ _ (reachableRooms_dirOk _ Hreach) Hget)
    as [_ (_ & Hsz & _ & _ & Hq)].
  split; [done|]. intros Hquick. rewrite (Hq Hquick) in Hsz. lia.
Qed.

Lemma roster_within_capacity_witness :
  Z.of_nat 1 <= Z.max 1 4 ∧ (false = true → (1 ≤ 4)%nat).
Proof.
  apply (roster_within_capacity aliceAlone "123456"
           (Room.mk "123456" "s-alice" (PwString "secret") 4 false
              [LobbyPlayer.mk "s-alice" "alice" true true "#3B82F6"] None false)).
  - apply aliceAlone_reachable.
  - reflexivity.
Defined.

(** X17: a room has a game state exactly when it has started, and the index
    [currentPlayer] of that state names one of its players: the read
    [room.gameState.players[room.gameState.currentPlayer].id] of the
    [gameAction] handler always finds a player. *)
Theorem started_rooms_have_a_game rooms k r :
  reachableRooms rooms →
  mapGet k rooms = Some r →
  (Room.started r = true ↔ is_Some (Room.gameState r)) ∧
  ∀ gs, Room.gameState r = Some gs →
    is_Some (GameState.players gs !! GameState.currentPlayer gs).
Proof.
  intros Hreach Hget.
  destruct (dirOk_get _ _ _ (reachableRooms_dirOk _ Hreach) Hget)
    as [_ (_ & _ & Hst & Hwf & _)].
  split; [done|]. intros gs Hgs. destruct (Hwf gs Hgs) as [Hcur _].
  by apply lookup_lt_is_Some_2.
Qed.

Lemma started_rooms_have_a_game_witness :
  ∃ r, mapGet "123456" aliceStarted = Some r ∧
       (Room.started r = true ↔ is_Some (Room.gameState r)).
Proof.
  assert (Hr : ∃ r, mapGet "123456" aliceStarted = Some r)
    by (eexists; vm_compute; reflexivity).
  destruct Hr as [r Hr]. exists r. split; [exact Hr|].
  apply (started_rooms_have_a_game aliceStarted "123456" r).
  - apply aliceStarted_reachable.
  - exact Hr.
Defined.

(** X18: the [gameAction] handler does not throw on a payload within the
    ranges of the game: whatever state the server has reached, whoever sends
    the event and whether or not the addressed room exists or has started,
    the handler returns. *)
Theorem gameAction_returns_on_valid_payload rooms socketId roomId action data :
  reachableRooms rooms →
  (∀ room gs, mapGet roomId rooms = Some room → Room.gameState room = Some gs →
     validAction gs action data) →
  ∃ rooms' effects,
    onGameAction socketId roomId action data rooms = Ok (rooms', effects).
Proof.
  intros Hreach Hvalid. unfold onGameAction.
  destruct (mapGet roomId rooms) as [room|] eqn:Hroom; [|by eauto].
  destruct (dirOk_get _ _ _ (reachableRooms_dirOk _ Hreach) Hroom) as [_ Hok].
  destruct (Room.started room) eqn:Hs; simpl; [|by eauto].
  destruct (roomOk_started_game _ Hok Hs) as (gs & cp & Hgs & Hcp & Hwf).
  rewrite Hgs. simpl. rewrite Hcp. simpl.
  destruct (negb (String.eqb (GamePlayer.id cp) socketId)); [by eauto|].
  destruct (processGameAction_total gs action data Hwf (Hvalid _ _ eq_refl Hgs)) as [r Hr].
  rewrite Hr. simpl. eauto.
Qed.

Lemma gameAction_returns_on_valid_payload_witness :
  ∃ rooms' effects,
    onGameAction "s-alice" "123456" "roll" (rollData 1) aliceStarted = Ok (rooms', effects).
Proof.
  apply (gameAction_returns_on_valid_payload aliceStarted "s-alice" "123456"
           "roll" (rollData 1)).
  - apply aliceStarted_reachable.
  - intros room gs Hroom Hgs. vm_compute in Hroom. injection Hroom as <-.
    vm_compute in Hgs. injection Hgs as <-.
    split; [intros _; vm_compute; split; intros H; discriminate H|intros H; discriminate H].
Defined.

(** ** createRoom and joinRoom *)

(** X19: [createRoom] never replaces a room: the new room gets a drawn code
    that was not in use and is added to the directory, every other code
    still leads to the room it led to.  The room stores the password sent,
    or [null] when none or the empty string was sent. *)
Theorem createRoom_adds_a_fresh_room draws socketId maxPlayers password username
  rooms rooms' effects :
  onCreateRoom draws socketId maxPlayers password username rooms = Ok (rooms', effects) →
  ∃ roomId room,
    roomId ∈ draws ∧
    mapGet roomId rooms = None ∧
    rooms' = rooms ++ [(roomId, room)] ∧
    mapGet roomId rooms' = Some room ∧
    (∀ k, k ≠ roomId → mapGet k rooms' = mapGet k rooms) ∧
    Room.id room = roomId ∧
    Room.maxPlayers room = maxPlayers ∧
    Room.password room = (if truthy password then password else PwNull).
Proof.
  intros H. unfold onCreateRoom in H. inv_bind. rename x into roomId.
  destruct (generateRoomId_fresh _ _ _ H0) as [Hin Hfresh].
  eexists roomId, _. split; [done|]. split; [done|].
  split; [rewrite <- H; by apply mapSet_absent|].
  rewrite <- H. split; [apply mapGet_mapSet_eq|].
  split; [intros k Hk; by apply mapGet_mapSet_ne|]. done.
Qed.

Lemma createRoom_adds_a_fresh_room_witness :
  ∃ roomId room,
    roomId ∈ ["123456"; "222222"] ∧
    mapGet roomId aliceAlone = None ∧
    mapGet "123456" (aliceAlone ++ [(roomId, room)]) = mapGet "123456" aliceAlone ∧
    Room.password room = PwNull.
Proof.
  destruct (createRoom_adds_a_fresh_room ["123456"; "222222"] "s-bob" 2 (PwString "") "bob"
              aliceAlone
              (aliceAlone ++
                 [("222222", Room.mk "222222" "s-bob" PwNull 2 false
                               [LobbyPlayer.mk "s-bob" "bob" true true "#3B82F6"] None false)])
              [SocketJoin "s-bob" "222222";
               SocketEmit "s-bob"
                 (roomCreated (Room.mk "222222" "s-bob" PwUndefined 2 false
                                 [LobbyPlayer.mk "s-bob" "bob" true true "#3B82F6"]
                                 None false))])
    as (roomId & room & Hin & Hfresh & Heq & Hget & Hothers & _ & _ & Hpw).
  - vm_compute. reflexivity.
  - exists roomId, room. split; [exact Hin|]. split; [exact Hfresh|].
    split; [|exact Hpw].
    apply app_inv_head in Heq. injection Heq as <- <-. reflexivity.
Defined.

(** X20: the password of a room decides who can join it.  After [createRoom]
    with a non-empty password, a join with that password succeeds and a join
    with any other password is refused; after [createRoom] with no password,
    [null] or the empty string, a join succeeds whatever password the joiner
    sends.  (The room has space for a second player: [maxPlayers] is at least
    2.) *)
Theorem password_round_trip draws socketId maxPlayers password username rooms rooms1 effects
  roomId socketId' password' username' :
  generateRoomId draws rooms = Ok roomId →
  onCreateRoom draws socketId maxPlayers password username rooms = Ok (rooms1, effects) →
  2 <= maxPlayers →
  (truthy password = false ∨ password' = password →
     ∃ rooms2 room2,
       onJoinRoom socketId' roomId password' username' rooms1 =
         (rooms2, [SocketJoin socketId' roomId;
                   Broadcast roomId (playerJoined (stripPassword room2))]) ∧
       mapGet roomId rooms2 = Some room2 ∧
       Room.players room2 =
         [LobbyPlayer.mk socketId username true true (playerColor 0);
          LobbyPlayer.mk socketId' username' false false (playerColor 1)]) ∧
  (truthy password = true → password' ≠ password →
     onJoinRoom socketId' roomId password' username' rooms1 =
       joinFails socketId' InvalidPassword rooms1).
Proof.
  intros Hid H Hmax. unfold onCreateRoom in H. rewrite Hid in H. simpl in H.
  injection H as <- <-.
  unfold onJoinRoom. rewrite mapGet_mapSet_eq. simpl.
  destruct (Z.geb_spec (Z.of_nat 1) maxPlayers) as [|_]; [lia|].
  split.
  - intros Hpw. eexists _, _.
    assert (truthy (if truthy password then password else PwNull) &&
            negb (bool_decide ((if truthy password then password else PwNull) = password'))
            = false) as ->.
    { destruct (truthy password) eqn:Ht; [|done].
      destruct Hpw as [Hf| ->]; [done|]. rewrite Ht. by rewrite bool_decide_eq_true_2. }
    split; [reflexivity|]. split; [apply mapGet_mapSet_eq|done].
  - intros Ht Hne. rewrite Ht. simpl. rewrite Ht. simpl.
    rewrite bool_decide_eq_false_2 by congruence. done.
Qed.

Lemma password_round_trip_witness :
  onJoinRoom "s-bob" "123456" (PwString "guess") "bob" aliceAlone =
    joinFails "s-bob" InvalidPassword aliceAlone.
Proof.
  refine (proj2 (password_round_trip ["123456"] "s-alice" 4 (PwString "secret") "alice" []
                   aliceAlone
                   [SocketJoin "s-alice" "123456";
                    SocketEmit "s-alice"
                      (roomCreated (Room.mk "123456" "s-alice" PwUndefined 4 false
                                      [LobbyPlayer.mk "s-alice" "alice" true true "#3B82F6"]
                                      None false))]
                   "123456" "s-bob" (PwString "guess") "bob" _ _ _) _ _).
  - reflexivity.
  - reflexivity.
  - lia.
  - reflexivity.
  - intros H. discriminate H.
Defined.

(** ** toggleReady *)

Lemma list_find_alter_same {A} (P : A → Prop) `{∀ x, Decision (P x)} (f : A → A) l i x :
  (∀ y, P (f y) ↔ P y) →
  list_find P l = Some (i, x) →
  list_find P (alter f i l) = Some (i, f x).
Proof.
  intros Hf (Hi & Hx & Hmin)%list_find_Some. apply list_find_Some.
  split; [by rewrite list_lookup_alter_eq, Hi|].
  split; [by apply Hf|].
  intros j y Hj Hlt. rewrite list_lookup_alter_ne in Hj by lia. by eapply Hmin.
Qed.

(** X21: [toggleReady] is its own inverse: when the same connection sends it
    twice for the same room, the directory is what it was. *)
Theorem toggleReady_twice_restores socketId roomId rooms :
  (onToggleReady socketId roomId (onToggleReady socketId roomId rooms).1).1 = rooms.
Proof.
  unfold onToggleReady at 2.
  destruct (mapGet roomId rooms) as [room|] eqn:Hroom; simpl.
  2: { unfold onToggleReady. by rewrite Hroom. }
  destruct (list_find (hasId socketId) (Room.players room)) as [[i p]|] eqn:Hfind; simpl.
  2: { unfold onToggleReady. by rewrite Hroom, Hfind. }
  unfold onToggleReady. rewrite mapGet_mapSet_eq. simpl.
  rewrite (list_find_alter_same _ _ _ i p); [|done|done]. simpl.
  rewrite mapSet_mapSet. apply mapSet_same. rewrite Hroom. f_equal.
  destruct room as [id leader pw maxP quick players gs started]. simpl.
  unfold Room.set_players. simpl. f_equal.
  rewrite list_alter_alter_eq. symmetry. apply list_alter_id.
  intros [pid pname pready plead pcolor]. unfold LobbyPlayer.set_ready. simpl.
  by rewrite negb_involutive.
Qed.

(** ** leaveRoom *)

Lemma set_isLeader_true p :
  LobbyPlayer.isLeader p = true → LobbyPlayer.set_isLeader true p = p.
Proof. destruct p. simpl. by intros ->. Qed.

(** One pass of the loop, seen from the code of the room it visits. *)
Lemma leaveStep_get socketId rooms effects k r :
  rosterOk (Room.leader r) (Room.players r) →
  let res := mapGet k (leaveStep socketId (rooms, effects) (k, r)).1 in
  (list_find (hasId socketId) (Room.players r) = None → res = mapGet k rooms) ∧
  (∀ i p, list_find (hasId socketId) (Room.players r) = Some (i, p) →
     delete i (Room.players r) = [] → res = None) ∧
  (∀ i p first others,
     list_find (hasId socketId) (Room.players r) = Some (i, p) →
     delete i (Room.players r) = first :: others →
     res = Some (Room.set_players (LobbyPlayer.set_isLeader true first :: others)
                   (Room.set_leader (LobbyPlayer.id first) r))).
Proof.
  intros Hro res. subst res. simpl.
  destruct (list_find (hasId socketId) (Room.players r)) as [[i p]|] eqn:Hfind.
  2: { split; [done|]. split; intros; done. }
  split; [done|]. split.
  - intros i' p' [= <- <-] Hdel. rewrite Hdel. simpl. apply mapGet_mapDelete_eq.
  - intros i' p' first others [= <- <-] Hdel. rewrite Hdel. simpl.
    destruct (rosterOk_leave _ _ _ _ _ _ _ Hro Hfind Hdel) as [Hlead Hother].
    destruct (String.eqb_spec (Room.leader r) socketId) as [Heq|Hne]; simpl;
      rewrite mapGet_mapSet_eq; [done|].
    destruct (Hother Hne) as (f0 & o0 & [= <- <-] & Hid & Hl & _).
    rewrite (set_isLeader_true _ Hl). f_equal.
    destruct r. unfold Room.set_players, Room.set_leader. simpl in *. by rewrite Hid.
Qed.

Lemma leaveStep_get_ne socketId rooms effects k0 r0 k :
  k ≠ k0 → mapGet k (leaveStep socketId (rooms, effects) (k0, r0)).1 = mapGet k rooms.
Proof.
  intros Hne. simpl.
  destruct (list_find (hasId socketId) (Room.players r0)) as [[i p]|]; [|done].
  destruct (delete i (Room.players r0)) as [|first others]; simpl.
  - by apply mapGet_mapDelete_ne.
  - destruct (String.eqb (Room.leader r0) socketId); simpl; by apply mapGet_mapSet_ne.
Qed.

Lemma leaveRoom_get_other socketId entries : ∀ rooms effects k,
  k ∉ entries.*1 →
  mapGet k (foldl (leaveStep socketId) (rooms, effects) entries).1 = mapGet k rooms.
Proof.
  induction entries as [|[k0 r0] entries IH]; intros rooms effects k Hk; cbn [foldl];
    [done|].
  rewrite fmap_cons in Hk. apply not_elem_of_cons in Hk as [Hne Hk]. simpl in Hne.
  pose proof (leaveStep_get_ne socketId rooms effects k0 r0 k Hne) as Hstep.
  destruct (leaveStep socketId (rooms, effects) (k0, r0)) as [rooms1 effects1].
  rewrite IH by done. done.
Qed.

Lemma leaveRoom_get socketId entries : ∀ rooms effects k r,
  NoDup entries.*1 → (k, r) ∈ entries →
  rosterOk (Room.leader r) (Room.players r) →
  let res := mapGet k (foldl (leaveStep socketId) (rooms, effects) entries).1 in
  (list_find (hasId socketId) (Room.players r) = None → res = mapGet k rooms) ∧
  (∀ i p, list_find (hasId socketId) (Room.players r) = Some (i, p) →
     delete i (Room.players r) = [] → res = None) ∧
  (∀ i p first others,
     list_find (hasId socketId) (Room.players r) = Some (i, p) →
     delete i (Room.players r) = first :: others →
     res = Some (Room.set_players (LobbyPlayer.set_isLeader true first :: others)
                   (Room.set_leader (LobbyPlayer.id first) r))).
Proof.
  induction entries as [|[k0 r0] entries IH]; intros rooms effects k r Hnd Hin Hro;
    [by apply elem_of_nil in Hin|].
  rewrite fmap_cons in Hnd. apply NoDup_cons in Hnd as [Hnotin Hnd]. simpl in Hnotin.
  cbn [foldl]. apply elem_of_cons in Hin as [[= -> ->]|Hin].
  - pose proof (leaveStep_get socketId rooms effects k0 r0 Hro) as Hstep.
    destruct (leaveStep socketId (rooms, effects) (k0, r0)) as [rooms1 effects1].
    simpl. rewrite leaveRoom_get_other by done. exact Hstep.
  - assert (Hne : k ≠ k0).
    { intros ->. apply Hnotin. apply list_elem_of_fmap. by exists (k0, r). }
    pose proof (leaveStep_get_ne socketId rooms effects k0 r0 k Hne) as Hstep.
    destruct (leaveStep socketId (rooms, effects) (k0, r0)) as [rooms1 effects1].
    simpl in Hstep. rewrite <- Hstep. by apply IH.
Qed.

(** X22: [leaveRoom] visits every room.  A room without the sender is left as
    it is.  From a room with the sender, the first roster entry with the
    sender's id is removed; the room is deleted when nobody is left;
    otherwise the first remaining player is its leader, and nothing else of
    the room changes: in particular the game state of a started room still
    lists the player who left. *)
Theorem leaveRoom_outcome rooms socketId k r :
  reachableRooms rooms →
  mapGet k rooms = Some r →
  let res := mapGet k (onLeaveRoom socketId rooms).1 in
  (list_find (hasId socketId) (Room.players r) = None → res = Some r) ∧
  (∀ i p, list_find (hasId socketId) (Room.players r) = Some (i, p) →
     delete i (Room.players r) = [] → res = None) ∧
  (∀ i p first others,
     list_find (hasId socketId) (Room.players r) = Some (i, p) →
     delete i (Room.players r) = first :: others →
     res = Some (Room.set_players (LobbyPlayer.set_isLeader true first :: others)
                   (Room.set_leader (LobbyPlayer.id first) r))).
Proof.
  intros Hreach Hget res.
  pose proof (reachableRooms_dirOk _ Hreach) as Hdir.
  destruct (dirOk_get _ _ _ Hdir Hget) as [_ [Hro _]].
  destruct Hdir as [Hnd _].
  destruct (leaveRoom_get socketId rooms rooms [] k r Hnd (mapGet_elem _ _ _ Hget) Hro)
    as (H1 & H2 & H3).
  split; [|split]; [|exact H2|exact H3].
  intros Hnone. subst res. unfold onLeaveRoom. by rewrite H1.
Qed.

Lemma leaveRoom_outcome_witness :
  mapGet "123456" (onLeaveRoom "s-alice" aliceAlone).1 = None.
Proof.
  refine (proj1 (proj2 (leaveRoom_outcome aliceAlone "s-alice" "123456"
           (Room.mk "123456" "s-alice" (PwString "secret") 4 false
              [LobbyPlayer.mk "s-alice" "alice" true true "#3B82F6"] None false) _ _))
           0%nat (LobbyPlayer.mk "s-alice" "alice" true true "#3B82F6") _ _).
  - apply aliceAlone_reachable.
  - reflexivity.
  - reflexivity.
  - reflexivity.
Defined.

(** ** quickMatch *)

(** X23: after [quickMatch] the requester is the last player of a quick-match
    room for four, marked ready; the requester leads the room exactly when
    alone in it.  The game of that room starts exactly when the requester is
    the fourth player, with a game state made from the roster.  No other
    room changes. *)
Theorem quickMatch_outcome draws socketId username rooms rooms' effects :
  reachableRooms rooms →
  findOrCreateQuickMatch draws socketId username rooms = Ok (rooms', effects) →
  ∃ roomId room others,
    mapGet roomId rooms' = Some room ∧
    SocketJoin socketId roomId ∈ effects ∧
    Room.isQuickMatch room = true ∧
    Room.maxPlayers room = 4 ∧
    Room.players room =
      others ++ [LobbyPlayer.mk socketId username true (bool_decide (others = []))
                   (playerColor (length others))] ∧
    (length others < 4)%nat ∧
    (Room.started room = true ↔ length others = 3%nat) ∧
    (Room.started room = true →
       Room.gameState room = Some (initializeGameState (Room.players room)) ∧
       Broadcast roomId (gameStarted (initializeGameState (Room.players room))) ∈ effects) ∧
    (∀ k, k ≠ roomId → mapGet k rooms' = mapGet k rooms).
Proof.
  intros Hreach H. pose proof (reachableRooms_dirOk _ Hreach) as [Hnd Hall].
  unfold findOrCreateQuickMatch in H.
  destruct (list_find quickMatchOpen rooms) as [[i [roomId room]]|] eqn:Hfind.
  - apply list_find_elem in Hfind as [Hin Hopen].
    pose proof (proj1 (Forall_forall _ _) Hall _ Hin) as [Hid Hroom].
    simpl in Hid, Hroom.
    destruct Hroom as (Hro & Hsz & Hst & Hwf & Hq).
    destruct Hopen as (Hquick & Hns & Hlt). simpl in Hquick, Hns, Hlt.
    pose proof (Hq Hquick) as Hmax. rewrite Hmax in Hlt.
    pose proof (rosterOk_nonempty _ _ Hro) as Hne.
    exists roomId. simpl in H. rewrite length_app, Hmax in H. simpl in H.
    destruct (Z.eqb_spec (Z.of_nat (length (Room.players room) + 1)) 4) as [Hfull|Hnot];
      injection H as <- <-; eexists _, (Room.players room);
      (split; [apply mapGet_mapSet_eq|]); simpl;
      (split; [apply list_elem_of_here|]);
      (split; [done|]); (split; [done|]);
      (split; [by rewrite bool_decide_eq_false_2|]);
      (split; [lia|]).
    + split; [split; [lia|done]|].
      split; [|intros k Hk; by apply mapGet_mapSet_ne].
      intros _. split; [done|].
      apply list_elem_of_further, list_elem_of_further, list_elem_of_here.
    + split; [split; [congruence|lia]|].
      split; [congruence|intros k Hk; by apply mapGet_mapSet_ne].
  - inv_bind. rename x into roomId. simplify_eq.
    eexists roomId, _, []. simpl.
    split; [apply mapGet_mapSet_eq|]. simpl.
    split; [apply list_elem_of_here|].
    split; [done|]. split; [done|]. split; [done|]. split; [simpl; lia|].
    split; [split; [done|simpl; lia]|].
    split; [done|]. intros k Hk. by apply mapGet_mapSet_ne.
Qed.

Lemma quickMatch_outcome_witness :
  ∃ roomId room others,
    mapGet roomId (aliceAlone ++
                     [("222222", Room.mk "222222" "s-bob" PwUndefined 4 true
                                   [LobbyPlayer.mk "s-bob" "bob" true true "#3B82F6"]
                                   None false)]) = Some room ∧
    Room.players room =
      others ++ [LobbyPlayer.mk "s-bob" "bob" true (bool_decide (others = []))
                   (playerColor (length others))].
Proof.
  destruct (quickMatch_outcome ["222222"] "s-bob" "bob" aliceAlone
              (aliceAlone ++
                 [("222222", Room.mk "222222" "s-bob" PwUndefined 4 true
                               [LobbyPlayer.mk "s-bob" "bob" true true "#3B82F6"]
                               None false)])
              [SocketJoin "s-bob" "222222";
               SocketEmit "s-bob"
                 (roomCreated (Room.mk "222222" "s-bob" PwUndefined 4 true
                                 [LobbyPlayer.mk "s-bob" "bob" true true "#3B82F6"]
                                 None false))])
    as (roomId & room & others & Hget & _ & _ & _ & Hps & _).
  - apply aliceAlone_reachable.
  - vm_compute. reflexivity.
  - exists roomId, room, others. split; [exact Hget|exact Hps].
Defined.

(** ** Events addressed to a room *)

Lemma mapSet_frame roomId room v rooms :
  mapGet roomId rooms = Some room →
  (mapSet roomId v rooms).*1 = rooms.*1 ∧
  ∀ k, k ≠ roomId → mapGet k (mapSet roomId v rooms) = mapGet k rooms.
Proof.
  intros Hget. split; [apply mapSet_keys; by eapply mapGet_Some_key|].
  intros k Hk. by apply mapGet_mapSet_ne.
Qed.

(** Closes a goal that every broadcast of a given list goes to [roomId]. *)
Ltac only_to_room :=
  let Hin := fresh "Hin" in
  intros ? ? Hin;
  repeat (apply elem_of_cons in Hin as [Hin|Hin]; [by simplify_eq|]);
  by apply elem_of_nil in Hin.

Lemma room_events_frame draws socketId ev rooms rooms' effects roomId :
  eventRoom ev = Some roomId →
  handle draws socketId ev rooms = Ok (rooms', effects) →
  rooms'.*1 = rooms.*1 ∧
  (∀ k, k ≠ roomId → mapGet k rooms' = mapGet k rooms) ∧
  (∀ k m, Broadcast k m ∈ effects → k = roomId).
Proof.
  intros Hev H. destruct ev; simpl in Hev; simplify_eq; simpl in H.
  - (* joinRoom *)
    unfold onJoinRoom in H.
    destruct (mapGet roomId rooms) as [room|] eqn:Hroom.
    + repeat case_match; simplify_eq;
        try (split; [done|]; split; [done|]; only_to_room).
      destruct (mapSet_frame roomId room
                  (Room.set_players
                     (Room.players room ++
                        [LobbyPlayer.mk socketId username false false
                           (playerColor (length (Room.players room)))]) room)
                  rooms Hroom) as [Hk Ho].
      split; [done|]. split; [done|]. only_to_room.
    + simplify_eq. split; [done|]. split; [done|]. only_to_room.
  - (* toggleReady *)
    unfold onToggleReady in H.
    destruct (mapGet roomId rooms) as [room|] eqn:Hroom.
    2: { simplify_eq. split; [done|]. split; [done|]. only_to_room. }
    destruct (list_find _ _) as [[i player]|]; simplify_eq.
    2: { split; [done|]. split; [done|]. only_to_room. }
    destruct (mapSet_frame roomId room
                (Room.set_players
                   (alter (fun p => LobbyPlayer.set_ready (negb (LobbyPlayer.ready p)) p)
                      i (Room.players room)) room) rooms Hroom) as [Hk Ho].
    split; [done|]. split; [done|]. only_to_room.
  - (* startGame *)
    unfold onStartGame in H.
    destruct (mapGet roomId rooms) as [room|] eqn:Hroom.
    2: { simplify_eq. split; [done|]. split; [done|]. only_to_room. }
    repeat case_match; simplify_eq;
      try (split; [done|]; split; [done|]; only_to_room).
    destruct (mapSet_frame roomId room
                (Room.set_gameState (Some (initializeGameState (Room.players room)))
                   (Room.set_started true room)) rooms Hroom) as [Hk Ho].
    split; [done|]. split; [done|]. only_to_room.
  - (* gameAction *)
    unfold onGameAction in H.
    destruct (mapGet roomId rooms) as [room|] eqn:Hroom.
    2: { simplify_eq. split; [done|]. split; [done|]. only_to_room. }
    destruct (negb (Room.started room)).
    { simplify_eq. split; [done|]. split; [done|]. only_to_room. }
    inv_bind. destruct (negb (String.eqb (GamePlayer.id x0) socketId)).
    { simplify_eq. split; [done|]. split; [done|]. only_to_room. }
    inv_bind. simplify_eq.
    destruct (mapSet_frame roomId room
                (Room.set_gameState (Some (ActionResult.gameState x1)) room) rooms Hroom)
      as [Hk Ho].
    split; [done|]. split; [done|].
    destruct (ActionResult.gameEnded x1); only_to_room.
  - (* sendEmote *)
    unfold onSendEmote in H.
    destruct (mapGet roomId rooms) as [room|] eqn:Hroom.
    2: { simplify_eq. split; [done|]. split; [done|]. only_to_room. }
    destruct (list_find _ _) as [[i player]|]; simplify_eq;
      (split; [done|]; split; [done|]; only_to_room).
Qed.

(** X24: an event addressed to a room ([joinRoom], [toggleReady],
    [startGame], [gameAction], [sendEmote]) stays in that room: it neither
    adds nor removes a room, every other room is what it was, and every
    broadcast it makes goes to the room addressed. *)
Theorem room_events_stay_in_their_room draws socketId ev rooms rooms' effects roomId :
  eventRoom ev = Some roomId →
  handle draws socketId ev rooms = Ok (rooms', effects) →
  rooms'.*1 = rooms.*1 ∧
  (∀ k, k ≠ roomId → mapGet k rooms' = mapGet k rooms) ∧
  (∀ k m, Broadcast k m ∈ effects → k = roomId).
Proof. apply room_events_frame. Qed.

Lemma room_events_stay_in_their_room_witness :
  aliceAndBob.*1 = aliceAlone.*1 ∧
  (∀ k, k ≠ "123456" → mapGet k aliceAndBob = mapGet k aliceAlone) ∧
  (∀ k m, Broadcast k m ∈
            (onJoinRoom "s-bob" "123456" (PwString "secret") "bob" aliceAlone).2 →
          k = "123456").
Proof.
  apply (room_events_stay_in_their_room [] "s-bob"
           (joinRoom "123456" (PwString "secret") "bob") aliceAlone).
  - reflexivity.
  - reflexivity.
Defined.

(** ** startGame, and rooms that have started *)

(** X25: [startGame] starts a game exactly when it comes from the leader of
    the room and every player of the roster is ready; otherwise it does
    nothing and answers nothing.  The game it starts is made from the roster
    as it is, whether or not a game was already running in the room, and its
    first turn is the leader's. *)
Theorem startGame_outcome rooms socketId k r :
  reachableRooms rooms →
  mapGet k rooms = Some r →
  (Room.leader r = socketId ∧ forallb LobbyPlayer.ready (Room.players r) = true →
     let gs := initializeGameState (Room.players r) in
     onStartGame socketId k rooms =
       (mapSet k (Room.set_gameState (Some gs) (Room.set_started true r)) rooms,
        [Broadcast k (gameStarted gs)]) ∧
     reachable gs false ∧
     (GamePlayer.id <$> GameState.players gs) = (LobbyPlayer.id <$> Room.players r) ∧
     ∃ first, GameState.players gs !! GameState.currentPlayer gs = Some first ∧
              GamePlayer.id first = Room.leader r) ∧
  (¬ (Room.leader r = socketId ∧ forallb LobbyPlayer.ready (Room.players r) = true) →
     onStartGame socketId k rooms = (rooms, [])).
Proof.
  intros Hreach Hr.
  destruct (dirOk_get _ _ _ (reachableRooms_dirOk _ Hreach) Hr) as [_ [Hro _]].
  unfold onStartGame. rewrite Hr. split.
  - intros [Hlead Hready]. apply String.eqb_eq in Hlead. rewrite Hlead, Hready. simpl.
    split; [done|]. split; [apply reachable_init; by eapply rosterOk_nonempty|].
    split.
    + generalize (length (Room.players r)). intros n.
      apply list_eq. intros i. rewrite !list_lookup_fmap, list_lookup_imap.
      by destruct (Room.players r !! i).
    + destruct Hro as (first & others & Hps & Hid & _).
      rewrite Hps. simpl. eexists. split; [reflexivity|]. done.
  - intros Hnot. destruct (String.eqb_spec (Room.leader r) socketId) as [Heq|Hne]; simpl;
      [|done].
    destruct (forallb LobbyPlayer.ready (Room.players r)); [|done].
    exfalso. by apply Hnot.
Qed.

Lemma startGame_outcome_witness :
  onStartGame "s-bob" "123456" aliceAlone = (aliceAlone, []).
Proof.
  refine (proj2 (startGame_outcome aliceAlone "s-bob" "123456"
           (Room.mk "123456" "s-alice" (PwString "secret") 4 false
              [LobbyPlayer.mk "s-alice" "alice" true true "#3B82F6"] None false) _ _) _).
  - apply aliceAlone_reachable.
  - reflexivity.
  - intros [H _]. discriminate H.
Defined.

(** X26: a room that has started stays started: no event resets the flag, not
    even the end of the game, so such a room never admits a new player
    again. *)
Theorem started_is_forever draws socketId ev rooms rooms' effects k r r' :
  reachableRooms rooms →
  handle draws socketId ev rooms = Ok (rooms', effects) →
  mapGet k rooms = Some r →
  mapGet k rooms' = Some r' →
  Room.started r = true →
  Room.started r' = true ∧
  ∀ socketId' password username,
    (onJoinRoom socketId' k password username rooms').1 = rooms'.
Proof.
  intros Hreach H Hr Hr' Hs.
  pose proof (reachableRooms_dirOk _ Hreach) as Hdir.
  assert (Hs' : Room.started r' = true).
  { destruct (eventRoom ev) as [roomId|] eqn:Hev.
    - destruct (decide (roomId = k)) as [->|Hne].
      2: { destruct (room_events_frame _ _ _ _ _ _ _ Hev H) as (_ & Hother & _).
           rewrite Hother, Hr in Hr' by done. by simplify_eq. }
      destruct ev; simpl in Hev; simplify_eq; simpl in H.
      + unfold onJoinRoom in H. rewrite Hr, Hs in H.
        repeat case_match; by simplify_eq.
      + unfold onToggleReady in H. rewrite Hr in H.
        destruct (list_find _ _) as [[i player]|]; simplify_eq; [|done].
        rewrite mapGet_mapSet_eq in Hr'. by simplify_eq.
      + unfold onStartGame in H. rewrite Hr in H.
        repeat case_match; simplify_eq; try done.
        rewrite mapGet_mapSet_eq in Hr'. by simplify_eq.
      + unfold onGameAction in H. rewrite Hr, Hs in H. simpl in H.
        inv_bind. destruct (negb (String.eqb (GamePlayer.id x0) socketId));
          [by simplify_eq|].
        inv_bind. simplify_eq. rewrite mapGet_mapSet_eq in Hr'. by simplify_eq.
      + unfold onSendEmote in H. rewrite Hr in H.
        destruct (list_find _ _) as [[i player]|]; by simplify_eq.
    - destruct ev; simpl in Hev; simplify_eq; simpl in H.
      + unfold findOrCreateQuickMatch in H.
        destruct (list_find quickMatchOpen rooms) as [[i [roomId room]]|] eqn:Hfind.
        * apply list_find_elem in Hfind as [Hin Hopen].
          destruct Hopen as (_ & Hns & _). simpl in Hns.
          assert (Hne : roomId ≠ k).
          { intros ->. rewrite (mapGet_NoDup_elem _ _ _ (proj1 Hdir) Hin) in Hr.
            simplify_eq. congruence. }
          destruct (_ =? _); simplify_eq;
            rewrite mapGet_mapSet_ne in Hr' by done; by simplify_eq.
        * inv_bind. rename x into roomId. simplify_eq.
          destruct (generateRoomId_fresh _ _ _ H0) as [_ Hfresh].
          rewrite mapGet_mapSet_ne in Hr' by (intros ->; congruence). by simplify_eq.
      + unfold onCreateRoom in H. inv_bind. rename x into roomId. simplify_eq.
        destruct (generateRoomId_fresh _ _ _ H0) as [_ Hfresh].
        rewrite mapGet_mapSet_ne in Hr' by (intros ->; congruence). by simplify_eq.
      + injection H as Hleave. unfold onLeaveRoom in Hleave.
        pose proof (mapGet_elem _ _ _ Hr) as Hin.
        destruct (dirOk_get _ _ _ Hdir Hr) as [_ [Hro _]].
        destruct (leaveRoom_get socketId rooms rooms [] k r (proj1 Hdir) Hin Hro)
          as (G1 & G2 & G3).
        rewrite Hleave in G1, G2, G3. simpl in *.
        destruct (list_find (hasId socketId) (Room.players r)) as [[i p]|] eqn:Hfind.
        * destruct (delete i (Room.players r)) as [|first others] eqn:Hdel.
          -- rewrite (G2 i p eq_refl Hdel) in Hr'. done.
          -- rewrite (G3 i p first others eq_refl Hdel) in Hr'. by simplify_eq.
        * rewrite G1, Hr in Hr' by done. by simplify_eq.
      + by simplify_eq. }
  split; [done|]. intros socketId' password username.
  unfold onJoinRoom. rewrite Hr', Hs'. by repeat case_match.
Qed.

Lemma started_is_forever_witness :
  ∃ r', mapGet "123456" (onLeaveRoom "s-bob" aliceStarted).1 = Some r' ∧
        Room.started r' = true.
Proof.
  assert (Hr : ∃ r, mapGet "123456" aliceStarted = Some r ∧ Room.started r = true)
    by (eexists; split; vm_compute; reflexivity).
  destruct Hr as (r & Hr & Hs).
  assert (Hr' : ∃ r', mapGet "123456" (onLeaveRoom "s-bob" aliceStarted).1 = Some r')
    by (eexists; vm_compute; reflexivity).
  destruct Hr' as [r' Hr']. exists r'. split; [exact Hr'|].
  apply (started_is_forever [] "s-bob" leaveRoom aliceStarted
           (onLeaveRoom "s-bob" aliceStarted).1 (onLeaveRoom "s-bob" aliceStarted).2
           "123456" r r').
  - apply aliceStarted_reachable.
  - vm_compute. reflexivity.
  - exact Hr.
  - exact Hr'.
  - exact Hs.
Defined.

(** * Client and server together *)

(** X27: the client sees the room it asked for.  When a client with a
    username calls [createRoom], it sends one event; when the server handles
    that event and the client receives what the server emits on its socket,
    the client's [currentRoom] is the new room of the directory without its
    password, with the client as its only player. *)
Theorem client_sees_the_room_it_created draws socketId maxPlayers password rooms roomId c :
  Client.username c ≠ "" →
  generateRoomId draws rooms = Ok roomId →
  ∃ ev rooms' effects room,
    Store.createRoom maxPlayers password c = (c, [ev]) ∧
    handle draws socketId ev rooms = Ok (rooms', effects) ∧
    mapGet roomId rooms' = Some room ∧
    Room.players room =
      [LobbyPlayer.mk socketId (Client.username c) true true (playerColor 0)] ∧
    Client.currentRoom (deliver (pushesTo socketId effects) c) = Some (stripPassword room) ∧
    broadcastsTo roomId effects = [].
Proof.
  intros Hname Hid. unfold Store.createRoom.
  apply String.eqb_neq in Hname. rewrite Hname.
  eexists _, _, _, _. split; [reflexivity|]. simpl.
  unfold onCreateRoom. rewrite Hid. simpl.
  split; [reflexivity|]. split; [apply mapGet_mapSet_eq|].
  split; [reflexivity|].
  unfold pushesTo, deliver. simpl. rewrite decide_True by done. done.
Qed.

Lemma client_sees_the_room_it_created_witness :
  ∃ room,
    mapGet "123456" aliceAlone = Some room ∧
    Client.currentRoom
      (deliver
         (pushesTo "s-alice"
            [SocketJoin "s-alice" "123456";
             SocketEmit "s-alice" (roomCreated (stripPassword room))])
         (Client.set_username "alice" Client.init)) = Some (stripPassword room).
Proof.
  destruct (client_sees_the_room_it_created ["123456"] "s-alice" 4 (PwString "secret") []
              "123456" (Client.set_username "alice" Client.init))
    as (ev & rooms' & effects & room & Hev & Hh & Hget & Hps & Hcur & _).
  - intros H. discriminate H.
  - reflexivity.
  - injection Hev as <-. injection Hh as <- <-.
    exists room. split; [exact Hget|].
    vm_compute in Hget. injection Hget as <-. exact Hcur.
Defined.

(** ** A client that watches a room *)

Lemma broadcastsTo_app k e1 e2 :
  broadcastsTo k (e1 ++ e2) = broadcastsTo k e1 ++ broadcastsTo k e2.
Proof. unfold broadcastsTo. apply omap_app. Qed.

Lemma broadcastsTo_other k roomId effects :
  (∀ k' m, Broadcast k' m ∈ effects → k' = roomId) →
  k ≠ roomId → broadcastsTo k effects = [].
Proof.
  intros Hall Hne. induction effects as [|e effects IH]; [done|].
  assert (IH' : broadcastsTo k effects = []).
  { apply IH. intros k' m Hin. apply (Hall k' m). by apply list_elem_of_further. }
  unfold broadcastsTo in *.
  destruct e as [| k' m | |]; simpl; try exact IH'.
  destruct (decide (k' = k)) as [->|_]; [|exact IH'].
  exfalso. apply Hne. apply (Hall k m). apply list_elem_of_here.
Qed.

(** One pass of the [leaveRoom] loop, seen from a room: what is broadcast
    to it. *)
Lemma leaveStep_effects socketId rooms effects k0 r0 k :
  rosterOk (Room.leader r0) (Room.players r0) →
  let out := broadcastsTo k (leaveStep socketId (rooms, effects) (k0, r0)).2 in
  (k ≠ k0 → out = broadcastsTo k effects) ∧
  (list_find (hasId socketId) (Room.players r0) = None → out = broadcastsTo k effects) ∧
  (∀ i p first others,
     k = k0 →
     list_find (hasId socketId) (Room.players r0) = Some (i, p) →
     delete i (Room.players r0) = first :: others →
     out = broadcastsTo k effects ++
           [playerLeft
              (stripPassword
                 (Room.set_players (LobbyPlayer.set_isLeader true first :: others)
                    (Room.set_leader (LobbyPlayer.id first) r0)))
              (LobbyPlayer.username p)]).
Proof.
  intros Hro out. subst out. simpl.
  destruct (list_find (hasId socketId) (Room.players r0)) as [[i p]|] eqn:Hfind.
  2: { split; [done|]. split; [done|]. intros; done. }
  split; [|split; [done|]].
  - intros Hne.
    destruct (delete i (Room.players r0)) as [|first others]; simpl.
    + rewrite broadcastsTo_app. unfold broadcastsTo at 2. simpl.
      rewrite decide_False by done. by rewrite app_nil_r.
    + destruct (String.eqb (Room.leader r0) socketId); simpl;
        rewrite broadcastsTo_app; unfold broadcastsTo at 2; simpl;
        rewrite decide_False by done; by rewrite app_nil_r.
  - intros i' p' first others -> [= <- <-] Hdel. rewrite Hdel. simpl.
    destruct (rosterOk_leave _ _ _ _ _ _ _ Hro Hfind Hdel) as [Hlead Hother].
    destruct (String.eqb_spec (Room.leader r0) socketId) as [Heq|Hne]; simpl;
      rewrite broadcastsTo_app; unfold broadcastsTo at 2; simpl;
      rewrite decide_True by done; [done|].
    destruct (Hother Hne) as (f0 & o0 & [= <- <-] & Hid & Hl & _).
    rewrite (set_isLeader_true _ Hl). do 3 f_equal.
    destruct r0. unfold Room.set_players, Room.set_leader, stripPassword, Room.set_password.
    simpl in *. by rewrite Hid.
Qed.

Lemma leaveRoom_effects_other socketId entries : ∀ rooms effects k,
  Forall (fun e => rosterOk (Room.leader e.2) (Room.players e.2)) entries →
  k ∉ entries.*1 →
  broadcastsTo k (foldl (leaveStep socketId) (rooms, effects) entries).2 =
    broadcastsTo k effects.
Proof.
  induction entries as [|[k0 r0] entries IH]; intros rooms effects k Hro Hk; cbn [foldl];
    [done|].
  apply Forall_cons in Hro as [Hro0 Hro].
  rewrite fmap_cons in Hk. apply not_elem_of_cons in Hk as [Hne Hk]. simpl in Hne.
  destruct (leaveStep_effects socketId rooms effects k0 r0 k Hro0) as [Hstep _].
  specialize (Hstep Hne).
  destruct (leaveStep socketId (rooms, effects) (k0, r0)) as [rooms1 effects1].
  rewrite IH by done. done.
Qed.

Lemma leaveRoom_effects socketId entries : ∀ rooms effects k r,
  Forall (fun e => rosterOk (Room.leader e.2) (Room.players e.2)) entries →
  NoDup entries.*1 → (k, r) ∈ entries →
  let out := broadcastsTo k (foldl (leaveStep socketId) (rooms, effects) entries).2 in
  (list_find (hasId socketId) (Room.players r) = None → out = broadcastsTo k effects) ∧
  (∀ i p first others,
     list_find (hasId socketId) (Room.players r) = Some (i, p) →
     delete i (Room.players r) = first :: others →
     out = broadcastsTo k effects ++
           [playerLeft
              (stripPassword
                 (Room.set_players (LobbyPlayer.set_isLeader true first :: others)
                    (Room.set_leader (LobbyPlayer.id first) r)))
              (LobbyPlayer.username p)]).
Proof.
  induction entries as [|[k0 r0] entries IH]; intros rooms effects k r Hro Hnd Hin;
    [by apply elem_of_nil in Hin|].
  apply Forall_cons in Hro as [Hro0 Hro]. simpl in Hro0.
  rewrite fmap_cons in Hnd. apply NoDup_cons in Hnd as [Hnotin Hnd]. simpl in Hnotin.
  cbn [foldl]. apply elem_of_cons in Hin as [[= -> ->]|Hin].
  - destruct (leaveStep_effects socketId rooms effects k0 r0 k0 Hro0) as (_ & Hnone & Hsome).
    destruct (leaveStep socketId (rooms, effects) (k0, r0)) as [rooms1 effects1].
    simpl. rewrite leaveRoom_effects_other by done.
    split; [done|]. intros i p first others. by apply Hsome.
  - assert (Hne : k ≠ k0).
    { intros ->. apply Hnotin. apply list_elem_of_fmap. by exists (k0, r). }
    destruct (leaveStep_effects socketId rooms effects k0 r0 k Hro0) as [Hstep _].
    specialize (Hstep Hne).
    destruct (leaveStep socketId (rooms, effects) (k0, r0)) as [rooms1 effects1].
    simpl in Hstep. rewrite <- Hstep. by apply IH.
Qed.

Lemma dirOk_rosters rooms :
  dirOk rooms → Forall (fun e => rosterOk (Room.leader e.2) (Room.players e.2)) rooms.
Proof.
  intros [_ Hall]. eapply Forall_impl; [exact Hall|]. by intros e [_ [? _]].
Qed.

(** An event addressed to another room is neither seen nor felt in room
    [k]. *)
Lemma other_room_event draws socketId ev rooms rooms' effects roomId k :
  eventRoom ev = Some roomId → roomId ≠ k →
  handle draws socketId ev rooms = Ok (rooms', effects) →
  mapGet k rooms' = mapGet k rooms ∧ broadcastsTo k effects = [].
Proof.
  intros Hev Hne H.
  destruct (room_events_frame _ _ _ _ _ _ _ Hev H) as (_ & Hother & Hto).
  split; [by apply Hother|]. by apply (broadcastsTo_other k roomId).
Qed.

Lemma stripPassword_quick r :
  Room.password r = PwUndefined → stripPassword r = r.
Proof. destruct r. simpl. by intros ->. Qed.

(** X28: a client that watches a room follows it.  Let the client's
    [currentRoom] be the server's room without its password, and let the
    client receive what the server broadcasts to that room.  Then after any
    event that the server handles, from any connection, [currentRoom] is
    again the server's room without its password; with one exception: after a
    [gameAction] that ends the game the server broadcasts the history only,
    and the client keeps the game state from before that action. *)
Theorem client_follows_its_room draws socketId ev rooms rooms' effects k r r' c :
  reachableRooms rooms →
  handle draws socketId ev rooms = Ok (rooms', effects) →
  mapGet k rooms = Some r →
  mapGet k rooms' = Some r' →
  Client.currentRoom c = Some (stripPassword r) →
  let c' := deliver (broadcastsTo k effects) c in
  Client.currentRoom c' = Some (stripPassword r') ∨
  ∃ action data gs result,
    ev = gameAction k action data ∧
    Room.gameState r = Some gs ∧
    processGameAction gs action data = Ok result ∧
    ActionResult.gameEnded result = true ∧
    Room.gameState r' = Some (ActionResult.gameState result) ∧
    Client.currentRoom c' = Some (stripPassword r) ∧
    Client.gameHistory c' = ActionResult.history result.
Proof.
  intros Hreach H Hr Hr' Hc c'. subst c'.
  pose proof (reachableRooms_dirOk _ Hreach) as Hdir.
  pose proof (reachableRooms_inv _ Hreach) as Hquick.
  assert (Hquiet : mapGet k rooms' = mapGet k rooms → broadcastsTo k effects = [] →
            Client.currentRoom (deliver (broadcastsTo k effects) c) =
              Some (stripPassword r')).
  { intros Hsame ->. rewrite Hsame, Hr in Hr'. by simplify_eq. }
  destruct (eventRoom ev) as [roomId|] eqn:Hev.
  - destruct (decide (roomId = k)) as [->|Hne].
    2: { left. destruct (other_room_event _ _ _ _ _ _ _ k Hev Hne H). by apply Hquiet. }
    destruct ev; simpl in Hev; simplify_eq; simpl in H.
    + (* joinRoom *)
      left. unfold onJoinRoom in H. rewrite Hr in H.
      repeat case_match; simplify_eq; try (by apply Hquiet).
      rewrite mapGet_mapSet_eq in Hr'. simplify_eq.
      unfold broadcastsTo. simpl. rewrite decide_True by done. done.
    + (* toggleReady *)
      left. unfold onToggleReady in H. rewrite Hr in H.
      destruct (list_find _ _) as [[i player]|]; simplify_eq; [|by apply Hquiet].
      rewrite mapGet_mapSet_eq in Hr'. simplify_eq.
      unfold broadcastsTo. simpl. rewrite decide_True by done. done.
    + (* startGame *)
      left. unfold onStartGame in H. rewrite Hr in H.
      repeat case_match; simplify_eq; try (by apply Hquiet).
      rewrite mapGet_mapSet_eq in Hr'. simplify_eq.
      unfold broadcastsTo. simpl. rewrite decide_True by done.
      unfold deliver. simpl. by rewrite Hc.
    + (* gameAction *)
      unfold onGameAction in H. rewrite Hr in H.
      destruct (negb (Room.started r)); [left; simplify_eq; by apply Hquiet|].
      inv_bind. rename x into gs, x0 into cp.
      destruct (negb (String.eqb (GamePlayer.id cp) socketId));
        [left; simplify_eq; by apply Hquiet|].
      inv_bind. rename x into result. simplify_eq.
      rewrite mapGet_mapSet_eq in Hr'. simplify_eq.
      unfold broadcastsTo.
      destruct (ActionResult.gameEnded result) eqn:Hend; simpl;
        rewrite decide_True by done; unfold deliver; simpl.
      * right. exists action, data, gs, result. by rewrite Hc.
      * left. by rewrite Hc.
    + (* sendEmote *)
      left. unfold onSendEmote in H. rewrite Hr in H.
      destruct (list_find _ _) as [[i player]|]; simplify_eq; [|by apply Hquiet].
      unfold broadcastsTo. simpl. rewrite decide_True by done. done.
  - left. destruct ev; simpl in Hev; simplify_eq; simpl in H.
    + (* quickMatch *)
      unfold findOrCreateQuickMatch in H.
      destruct (list_find quickMatchOpen rooms) as [[i [roomId room]]|] eqn:Hfind.
      * apply list_find_elem in Hfind as [Hin Hopen].
        destruct Hopen as (Hq & _ & _). simpl in Hq.
        pose proof (roomsInv_elem _ _ _ Hquick Hin Hq) as Hpw.
        destruct (decide (roomId = k)) as [->|Hne].
        -- rewrite (mapGet_NoDup_elem _ _ _ (proj1 Hdir) Hin) in Hr. simplify_eq.
           destruct (_ =? _); simplify_eq; rewrite mapGet_mapSet_eq in Hr'; simplify_eq;
             unfold broadcastsTo; simpl; rewrite !decide_True by done;
             unfold deliver; simpl; f_equal; symmetry; by apply stripPassword_quick.
        -- destruct (_ =? _); simplify_eq; apply Hquiet;
             try (by apply mapGet_mapSet_ne);
             unfold broadcastsTo; simpl; by rewrite !decide_False by done.
      * inv_bind. rename x into roomId. simplify_eq.
        destruct (generateRoomId_fresh _ _ _ H0) as [_ Hfresh].
        apply Hquiet; [|done]. apply mapGet_mapSet_ne. intros ->. congruence.
    + (* createRoom *)
      unfold onCreateRoom in H. inv_bind. rename x into roomId. simplify_eq.
      destruct (generateRoomId_fresh _ _ _ H0) as [_ Hfresh].
      apply Hquiet; [|done]. apply mapGet_mapSet_ne. intros ->. congruence.
    + (* leaveRoom *)
      injection H as Hleave. unfold onLeaveRoom in Hleave.
      pose proof (dirOk_rosters _ Hdir) as Hros.
      pose proof (mapGet_elem _ _ _ Hr) as Hin.
      destruct (dirOk_get _ _ _ Hdir Hr) as [_ [Hro _]].
      destruct (leaveRoom_get socketId rooms rooms [] k r (proj1 Hdir) Hin Hro)
        as (G1 & G2 & G3).
      destruct (leaveRoom_effects socketId rooms rooms [] k r Hros (proj1 Hdir) Hin)
        as (E1 & E3).
      rewrite Hleave in G1, G2, G3, E1, E3. simpl in *.
      destruct (list_find (hasId socketId) (Room.players r)) as [[i p]|] eqn:Hfind.
      * destruct (delete i (Room.players r)) as [|first others] eqn:Hdel.
        -- rewrite (G2 i p eq_refl Hdel) in Hr'. done.
        -- rewrite (G3 i p first others eq_refl Hdel) in Hr'. simplify_eq.
           rewrite (E3 i p first others eq_refl Hdel). done.
      * apply Hquiet; [by rewrite G1|by rewrite E1].
    + (* disconnect *)
      simplify_eq. by apply Hquiet.
Qed.

Lemma client_follows_its_room_witness :
  Client.currentRoom
    (deliver
       (broadcastsTo "123456"
          (onJoinRoom "s-bob" "123456" (PwString "secret") "bob" aliceAlone).2)
       (Client.mk true true (stripPassword <$> mapGet "123456" aliceAlone)
          "alice" None None false)) =
    (stripPassword <$> mapGet "123456" aliceAndBob).
Proof.
  assert (Hr' : ∃ r', mapGet "123456" aliceAndBob = Some r')
    by (eexists; vm_compute; reflexivity).
  destruct Hr' as [r' Hr']. rewrite Hr'.
  destruct (client_follows_its_room [] "s-bob" (joinRoom "123456" (PwString "secret") "bob")
              aliceAlone aliceAndBob
              (onJoinRoom "s-bob" "123456" (PwString "secret") "bob" aliceAlone).2
              "123456"
              (Room.mk "123456" "s-alice" (PwString "secret") 4 false
                 [LobbyPlayer.mk "s-alice" "alice" true true "#3B82F6"] None false)
              r'
              (Client.mk true true (stripPassword <$> mapGet "123456" aliceAlone)
                 "alice" None None false))
    as [Hsync|(action & data & gs & result & Hev & _)].
  - apply aliceAlone_reachable.
  - reflexivity.
  - reflexivity.
  - exact Hr'.
  - reflexivity.
  - exact Hsync.
  - discriminate Hev.
Defined.
